(** * PHAST dense matrices ([src/lib/base/matrix.c]): embedding and properties

    The routines of [matrix.c] work on heap objects reached through
    pointers, so the embedding is a small state-and-fault monad over a
    store of matrices and vectors.  Two pointer arguments of one call may
    name the same object; the store makes that visible.

    A C [double] is an abstract scalar: the type class [Scalar] lists the
    operations the routines use, and the statements that need an
    arithmetic law state it as a hypothesis.  Statements are run on the
    exact rationals and, where rounding decides the outcome, on IEEE 754
    binary64.  Dimensions and indices are the non-negative [int]s of the
    data model, kept as [nat].

    A run ends in a result and a store, or in a fault: a failed assertion,
    an access outside a buffer, or the use of a pointer that names no live
    object.  Allocation is taken to succeed ([smalloc] aborts the process
    otherwise). *)

From stdpp Require Import gmap list numbers.
From Stdlib Require Import ZArith QArith Qcanon Qcabs Lia.
From Stdlib Require PrimFloat.

Close Scope Q_scope.
Close Scope Qc_scope.

Set Default Proof Using "Type*".

(** ** Scalars *)

Class Scalar (D : Type) := {
  d_zero : D;               (* the constant 0 *)
  d_one : D;                (* the constant 1 *)
  d_add : D → D → D;        (* x + y *)
  d_mul : D → D → D;        (* x * y *)
  d_fabs : D → D;           (* fabs(x) *)
  d_ltb : D → D → bool;     (* x < y *)
  d_eqb : D → D → bool;     (* x == y *)
  d_milli : D               (* the literal 1e-3 *)
}.

(** ** Heap objects *)

Abbreviation loc := nat (only parsing).

Record Matrix {D : Type} := mkMatrix {
  data : list (list D);     (* double **data: one buffer per row *)
  nrows : nat;
  ncols : nat
}.
Arguments Matrix D : clear implicits.
Arguments mkMatrix {D} _ _ _.

Record Vector {D : Type} := mkVector {
  vec_data : list D;        (* double *data *)
  size : nat
}.
Arguments Vector D : clear implicits.
Arguments mkVector {D} _ _.

Record store {D : Type} := mkStore {
  mats : gmap loc (Matrix D);
  vecs : gmap loc (Vector D)
}.
Arguments store D : clear implicits.
Arguments mkStore {D} _ _.

(** ** The monad: state plus faults *)

Inductive fault :=
  | AssertFail        (* a failed assert(...) *)
  | OutOfBounds       (* an element access outside its buffer *)
  | InvalidPointer.   (* use of a pointer that names no live object *)

Inductive res (D A : Type) :=
  | Ok (a : A) (σ : store D)
  | Fault (e : fault).
Arguments Ok {D A} _ _.
Arguments Fault {D A} _.

Definition prog (D A : Type) : Type := store D → res D A.

Definition ret {D A} (a : A) : prog D A := λ σ, Ok a σ.

Definition bind {D A B} (c : prog D A) (k : A → prog D B) : prog D B :=
  λ σ, match c σ with
       | Ok a σ' => k a σ'
       | Fault e => Fault e
       end.

Definition fail {D A} (e : fault) : prog D A := λ _, Fault e.

Global Instance prog_ret {D} : MRet (prog D) := λ A, @ret D A.
Global Instance prog_bind {D} : MBind (prog D) := λ A B k c, bind c k.

Definition assert {D} (b : bool) : prog D unit :=
  if b then ret tt else fail AssertFail.

(** [for (i = lo; i < hi; i++) body], threading the locals [a] the body
    assigns. *)
Fixpoint for_range {D A} (i cnt : nat) (a : A) (body : nat → A → prog D A)
    : prog D A :=
  match cnt with
  | 0 => ret a
  | S c => a' ← body i a; for_range (S i) c a' body
  end.

Definition for_fold {D A} (lo hi : nat) (a : A) (body : nat → A → prog D A)
    : prog D A :=
  for_range lo (hi - lo) a body.

Definition for_ {D} (lo hi : nat) (body : nat → prog D unit) : prog D unit :=
  for_fold lo hi tt (λ i _, body i).

(** Local arrays ([double tmp[n][n]] and the like), indexed by offset. *)
Definition arr_get {D A} (a : list A) (k : nat) : prog D A :=
  match a !! k with
  | Some x => ret x
  | None => fail OutOfBounds
  end.

Definition arr_set {D A} (a : list A) (k : nat) (x : A) : prog D (list A) :=
  if decide (k < length a) then ret (<[k := x]> a) else fail OutOfBounds.

(** What [fprintf] writes is kept as a list of items: a number together
    with the conversion it was printed under, or the end of a line. *)
Inductive conversion :=
  | Fixed        (* "%11.6f " *)
  | Scientific.  (* "%14.6e " *)

Inductive item (D : Type) :=
  | Num (c : conversion) (x : D)
  | Newline.
Arguments Num {D} _ _.
Arguments Newline {D}.

(** The row table of a matrix is an array of pointers; while it is being
    resized a slot may hold something that is not a live buffer. *)
Inductive rowptr (D : Type) :=
  | RowBuf (r : list D)   (* a live buffer *)
  | NullPtr
  | WildPtr.              (* an indeterminate value *)
Arguments RowBuf {D} _.
Arguments NullPtr {D}.
Arguments WildPtr {D}.

Section Embedding.
Context {D : Type} `{Scalar D}.

(** What a freshly allocated buffer holds at offset [k]: anything. *)
Variable uninit : nat → D.

(** Whether the never-assigned pointer slot [k] of a grown row table happens
    to hold NULL; otherwise it holds a value that names no buffer. *)
Variable uninit_is_null : nat → bool.

(** [INFTY] of [misc.h], the starting value of the running minimum in
    [mat_print]. *)
Variable INFTY : D.

(** The factorization backend (LAPACK's [dgetrf_] and [dgetri_]), working on
    a flat buffer that it reads column by column.
    [dgetrf m n a lda] returns the overwritten buffer, the pivots and [info];
    [dgetri n a lda ipiv lwork] returns the overwritten buffer and [info]. *)
Variable dgetrf : nat → nat → list D → nat → list D * list Z * Z.
Variable dgetri : nat → list D → nat → list Z → nat → list D * Z.

(** *** Element access on one matrix value *)

Definition mget (M : Matrix D) (row col : nat) : option D :=
  match data M !! row with
  | Some r => r !! col
  | None => None
  end.

Definition mset (M : Matrix D) (row col : nat) (val : D) : option (Matrix D) :=
  match data M !! row with
  | Some r =>
      if decide (col < length r)
      then Some (mkMatrix (<[row := <[col := val]> r]> (data M)) (nrows M) (ncols M))
      else None
  | None => None
  end.

(** The invariant of the data model: [nrows] buffers of [ncols] cells. *)
Definition wf (M : Matrix D) : Prop :=
  length (data M) = nrows M ∧ Forall (λ r, length r = ncols M) (data M).

Definition vwf (v : Vector D) : Prop := length (vec_data v) = size v.

(** *** Pointers into the store *)

Definition load_mat (m : loc) : prog D (Matrix D) :=
  λ σ, match mats σ !! m with
       | Some M => Ok M σ
       | None => Fault InvalidPointer
       end.

Definition store_mat (m : loc) (M : Matrix D) : prog D unit :=
  λ σ, Ok tt (mkStore (<[m := M]> (mats σ)) (vecs σ)).

Definition load_vec (v : loc) : prog D (Vector D) :=
  λ σ, match vecs σ !! v with
       | Some V => Ok V σ
       | None => Fault InvalidPointer
       end.

Definition store_vec (v : loc) (V : Vector D) : prog D unit :=
  λ σ, Ok tt (mkStore (mats σ) (<[v := V]> (vecs σ))).

(** [m->data[row][col]] as an rvalue; [mat_get] is the same read. *)
Definition mat_get (m : loc) (row col : nat) : prog D D :=
  M ← load_mat m;
  match mget M row col with
  | Some x => ret x
  | None => fail OutOfBounds
  end.

(** [m->data[row][col] = val]; [mat_set] is the same write. *)
Definition mat_set (m : loc) (row col : nat) (val : D) : prog D unit :=
  M ← load_mat m;
  match mset M row col val with
  | Some M' => store_mat m M'
  | None => fail OutOfBounds
  end.

(** [v->data[i]] read and written. *)
Definition vec_get (v : loc) (i : nat) : prog D D :=
  V ← load_vec v;
  match vec_data V !! i with
  | Some x => ret x
  | None => fail OutOfBounds
  end.

Definition vec_set (v : loc) (i : nat) (val : D) : prog D unit :=
  V ← load_vec v;
  if decide (i < length (vec_data V))
  then store_vec v (mkVector (<[i := val]> (vec_data V)) (size V))
  else fail OutOfBounds.

(** *** [mat_new]: a fresh object, rows of unspecified contents *)

Definition fresh_row (row ncols : nat) : list D :=
  map (λ j, uninit (row * ncols + j)) (seq 0 ncols).

Definition mat_new (nrows ncols : nat) : prog D loc :=
  λ σ, let m := fresh (dom (mats σ)) in
       Ok m (mkStore
               (<[m := mkMatrix (map (λ i, fresh_row i ncols) (seq 0 nrows))
                                nrows ncols]> (mats σ))
               (vecs σ)).

(** *** [mat_transpose] *)

Definition mat_transpose (src : loc) : prog D loc :=
  S ← load_mat src;
  retval ← mat_new (ncols S) (nrows S);
  for_ 0 (nrows S) (λ i,
    for_ 0 (ncols S) (λ j,
      x ← mat_get src i j;
      mat_set retval j i x));;
  ret retval.

(** *** [mat_mult] *)

Definition mat_mult (prod m1 m2 : loc) : prog D unit :=
  P ← load_mat prod;
  M1 ← load_mat m1;
  M2 ← load_mat m2;
  assert (bool_decide (ncols M1 = nrows M2) && bool_decide (nrows M1 = ncols M2) &&
          bool_decide (nrows P = nrows M1) && bool_decide (ncols P = ncols M2));;
  for_ 0 (nrows P) (λ i,
    for_ 0 (ncols P) (λ j,
      mat_set prod i j d_zero;;
      for_ 0 (ncols M1) (λ k,
        acc ← mat_get prod i j;
        x ← mat_get m1 i k;
        y ← mat_get m2 k j;
        mat_set prod i j (d_add acc (d_mul x y))))).

(** *** [mat_vec_mult] *)

Definition mat_vec_mult (prod m v : loc) : prog D unit :=
  M ← load_mat m;
  V ← load_vec v;
  P ← load_vec prod;
  assert (bool_decide (nrows M = size V) && bool_decide (size V = size P));;
  for_ 0 (nrows M) (λ i,
    vec_set prod i d_zero;;
    for_ 0 (ncols M) (λ j,
      acc ← vec_get prod i;
      x ← mat_get m i j;
      y ← vec_get v j;
      vec_set prod i (d_add acc (d_mul x y)))).

(** *** [mat_mult_diag] *)

Definition mat_mult_diag (A B C D' : loc) : prog D unit :=
  VC ← load_vec C;
  let size := size VC in
  MA ← load_mat A;
  MB ← load_mat B;
  MD ← load_mat D';
  assert (bool_decide (nrows MA = ncols MA) && bool_decide (nrows MA = nrows MB) &&
          bool_decide (nrows MB = ncols MB) && bool_decide (nrows MB = size) &&
          bool_decide (size = nrows MD) && bool_decide (nrows MD = ncols MD));;
  for_ 0 size (λ i,
    for_ 0 size (λ j,
      mat_set A i j d_zero;;
      for_ 0 size (λ k,
        acc ← mat_get A i j;
        b ← mat_get B i k;
        c ← vec_get C k;
        d ← mat_get D' k j;
        mat_set A i j (d_add acc (d_mul (d_mul b c) d))))).

(** *** [mat_print] *)

Definition mat_print (m : loc) (F : list (item D)) : prog D (list (item D)) :=
  M ← load_mat m;
  let formatstr := Fixed in
  let min := INFTY in
  min ← for_fold 0 (nrows M) min (λ i min,
    for_fold 0 (ncols M) min (λ j min,
      x ← mat_get m i j;
      let val := d_fabs x in
      ret (if negb (d_eqb val d_zero) && d_ltb val min then val else min)));
  let formatstr := if d_ltb min d_milli then Scientific else formatstr in
  for_fold 0 (nrows M) F (λ i F,
    F ← for_fold 0 (ncols M) F (λ j F,
      x ← mat_get m i j;
      ret (F ++ [Num formatstr x]));
    ret (F ++ [Newline])).

(** *** [mat_resize] *)

(** Modelled from the spec: [srealloc] of [misc.c], which is not among the
    sources at hand, in its two uses here, on the row table and on one row.
    Reallocation keeps the old contents up to the smaller of the two sizes
    and leaves added capacity unspecified, which for the row table means
    slots that hold indeterminate pointers; given NULL it allocates; given
    anything else that is no live buffer it has no defined behaviour. *)
Definition srealloc_table (tbl : list (rowptr D)) (n : nat) : list (rowptr D) :=
  take n tbl ++
  map (λ k, if uninit_is_null k then NullPtr else WildPtr)
      (seq (length tbl) (n - length tbl)).

Definition srealloc (p : rowptr D) (n : nat) : prog D (list D) :=
  match p with
  | RowBuf r => ret (take n r ++ map uninit (seq (length r) (n - length r)))
  | NullPtr => ret (map uninit (seq 0 n))
  | WildPtr => fail InvalidPointer
  end.

Definition live_rows (tbl : list (rowptr D)) : prog D (list (list D)) :=
  match mapM (λ p, match p with RowBuf r => Some r | _ => None end) tbl with
  | Some rows => ret rows
  | None => fail InvalidPointer
  end.

Definition mat_resize (m : loc) (nrows' ncols' : nat) : prog D unit :=
  M ← load_mat m;
  (* the rows from nrows' on are freed and fall off the shrunk table *)
  for_ nrows' (nrows M) (λ i, _ ← arr_get (data M) i; ret tt);;
  let tbl := srealloc_table (RowBuf <$> data M) nrows' in
  tbl ← for_fold 0 nrows' tbl (λ i tbl,
    p ← arr_get tbl i;
    r ← srealloc p ncols';
    arr_set tbl i (RowBuf r));
  rows ← live_rows tbl;
  store_mat m (mkMatrix rows nrows' ncols').

(** *** [mat_invert] (the build with LAPACK; the messages on stderr are
    left out) *)

Definition mat_invert (M_inv M : loc) : prog D Z :=
  MM ← load_mat M;
  let n := nrows MM in
  let tmp := map uninit (seq 0 (n * n)) in      (* double tmp[n][n] *)
  let lwork := n in
  MI ← load_mat M_inv;
  assert (bool_decide (nrows MM = ncols MM) && bool_decide (nrows MI = ncols MI) &&
          bool_decide (nrows MM = nrows MI));;
  tmp ← for_fold 0 n tmp (λ i tmp,
    for_fold 0 n tmp (λ j tmp,
      x ← mat_get M j i;
      arr_set tmp (i * n + j) x));
  let '(tmp, ipiv, info) := dgetrf n n tmp n in
  if bool_decide (info ≠ 0%Z) then ret 1%Z else
  let '(tmp, info) := dgetri n tmp n ipiv lwork in
  if bool_decide (info ≠ 0%Z) then ret 1%Z else
  for_ 0 (nrows MM) (λ i,
    for_ 0 (nrows MM) (λ j,
      x ← arr_get tmp (j * n + i);
      mat_set M_inv i j x));;
  ret 0%Z.

End Embedding.

(** ** Values the statements speak about *)

Section Values.
Context {D : Type} `{Scalar D}.

(** The value a cell ends with after [cell = 0; for (k = 0; k < n; k++)
    cell += f k], in that order of accumulation. *)
Fixpoint accum (f : nat → D) (n : nat) : D :=
  match n with
  | 0 => d_zero
  | S k => d_add (accum f k) (f k)
  end.

(** Entries of a matrix and of a vector that is only read. *)
Definition ent (M : Matrix D) (i j : nat) : D := default d_zero (mget M i j).
Definition vent (V : Vector D) (i : nat) : D := default d_zero (vec_data V !! i).


(** The transpose as the specification words it, a matrix whose [j][i]
    entry is [src[i][j]]; the row-major buffer of a matrix; and the two
    readings of a flat buffer as a square matrix of order [n]. *)
Definition transposed (M : Matrix D) : Matrix D :=
  mkMatrix
    (map (λ j, map (λ i, ent M i j) (seq 0 (nrows M))) (seq 0 (ncols M)))
    (ncols M) (nrows M).

Definition flat (M : Matrix D) : list D := concat (data M).

Definition rowmajor (n : nat) (a : list D) : Matrix D :=
  mkMatrix
    (map (λ i, map (λ j, default d_zero (a !! (i * n + j))) (seq 0 n)) (seq 0 n))
    n n.

Definition colmajor (n : nat) (a : list D) : Matrix D :=
  transposed (rowmajor n a).

(** Inversion as the specification words it: feed the backend the
    transpose of [src], and transpose the backend's result before writing it
    into [dest].  The result is the return value and, on success, the new
    value of [dest]. *)
Definition invert_spec
    (dgetrf : nat → nat → list D → nat → list D * list Z * Z)
    (dgetri : nat → list D → nat → list Z → nat → list D * Z)
    (src : Matrix D) : Z * option (Matrix D) :=
  let n := nrows src in
  let '(lu, ipiv, info) := dgetrf n n (flat (transposed src)) n in
  if bool_decide (info ≠ 0%Z) then (1%Z, None) else
  let '(inv, info) := dgetri n lu n ipiv n in
  if bool_decide (info ≠ 0%Z) then (1%Z, None) else
  (0%Z, Some (transposed (rowmajor n inv))).

(** [X] is a two-sided inverse of [S], both of order [n]; a square matrix is
    singular when it has none. *)
Definition is_inverse_of (n : nat) (X S : Matrix D) : Prop :=
  ∀ i j, i < n → j < n →
    accum (λ k, d_mul (ent X i k) (ent S k j)) n =
      (if decide (i = j) then d_one else d_zero) ∧
    accum (λ k, d_mul (ent S i k) (ent X k j)) n =
      (if decide (i = j) then d_one else d_zero).

Definition singular (n : nat) (S : Matrix D) : Prop :=
  ¬ ∃ X, is_inverse_of n X S.

(** The contract of the backend at one buffer: when both calls report
    status zero, the matrix they leave is an inverse of the matrix they were
    given, both read column by column. *)
Definition backend_inverts
    (dgetrf : nat → nat → list D → nat → list D * list Z * Z)
    (dgetri : nat → list D → nat → list Z → nat → list D * Z)
    (n : nat) (a : list D) : Prop :=
  ∀ lu ipiv inv,
    dgetrf n n a n = (lu, ipiv, 0%Z) →
    dgetri n lu n ipiv n = (inv, 0%Z) →
    is_inverse_of n (colmajor n inv) (colmajor n a).

(** What row [i] of a matrix holds once resized to [nc'] columns under the
    reallocation semantics: the old row cut or extended with unspecified
    cells, or a wholly unspecified row where there was none. *)
Definition resized_row (uninit : nat → D) (M : Matrix D) (nc' i : nat) : list D :=
  match data M !! i with
  | Some r => take nc' r ++ map uninit (seq (length r) (nc' - length r))
  | None => map uninit (seq 0 nc')
  end.

(** The running minimum of [mat_print] after one more element. *)
Definition min_step (min x : D) : D :=
  let val := d_fabs x in
  if negb (d_eqb val d_zero) && d_ltb val min then val else min.

(** The absolute values of the elements that are not zero, and what it
    means for one of them to be the smallest. *)
Definition nonzero_abs_of (l : list D) : list D :=
  filter (λ v, d_eqb v d_zero = false) (map d_fabs l).

Definition nonzero_abs (M : Matrix D) : list D :=
  nonzero_abs_of (concat (data M)).

Definition smallest (s : D) (l : list D) : Prop :=
  s ∈ l ∧ ∀ w, w ∈ l → d_ltb w s = false.

(** A dump in which every number went through conversion [c]. *)
Definition printed (c : conversion) (M : Matrix D) : list (item D) :=
  concat (map (λ r, map (Num c) r ++ [Newline]) (data M)).

End Values.

(** ** Cells, shapes and frames of a store *)

Section StoreViews.
Context {D : Type}.
Implicit Types (M : Matrix D) (σ : store D).

(** The cell [m->data[i][j]] of the store, and the shape a pointer names. *)
Definition cell σ (m : loc) (i j : nat) : option D :=
  match mats σ !! m with
  | Some M => mget M i j
  | None => None
  end.

Definition shape σ (m : loc) (nr nc : nat) : Prop :=
  ∃ M, mats σ !! m = Some M ∧ wf M ∧ nrows M = nr ∧ ncols M = nc.

(** [σ'] differs from [σ] at most in the cells of matrix [m]. *)
Definition only_mat (m : loc) σ σ' : Prop :=
  vecs σ' = vecs σ ∧
  (∀ p, p ≠ m → mats σ' !! p = mats σ !! p) ∧
  (∀ nr nc, shape σ m nr nc → shape σ' m nr nc).

End StoreViews.


(** ** Exact rationals as scalars

    The instance the concrete evaluations below run on. *)

Definition Qc_ltb (x y : Qc) : bool :=
  match (x ?= y)%Qc with Lt => true | _ => false end.

Definition Qc_eqb (x y : Qc) : bool := Qeq_bool x y.

Global Instance Qc_scalar : Scalar Qc := {|
  d_zero := 0%Qc;
  d_one := 1%Qc;
  d_add := Qcplus;
  d_mul := Qcmult;
  d_fabs := Qcabs;
  d_ltb := Qc_ltb;
  d_eqb := Qc_eqb;
  d_milli := Q2Qc (1 # 1000)
|}.

(** Integers as rationals, and the numerators and denominators of a row. *)
Definition q (z : Z) : Qc := Q2Qc (inject_Z z).
Definition frac (x : Qc) : Z * positive := (Qnum x, Qden x).

(** A matrix from its rows. *)
Definition matrix_of {D} (rows : list (list D)) : Matrix D :=
  mkMatrix rows (length rows) (length (default [] (head rows))).

Definition vector_of {D} (xs : list D) : Vector D := mkVector xs (length xs).

Definition store_of {D} (ms : list (Matrix D)) (vs : list (Vector D)) : store D :=
  mkStore (list_to_map (zip (seq 0 (length ms)) ms))
          (list_to_map (zip (seq 0 (length vs)) vs)).

(** ** Sample stores *)

Module Samples.

(** Matrix 0 is a 2x2 destination; 1 and 2 are square inputs. *)
Definition squares : store Qc :=
  store_of [matrix_of [[q 0; q 0]; [q 0; q 0]];
            matrix_of [[q 1; q 2]; [q 3; q 4]];
            matrix_of [[q 1; q 2]; [q 4; q 5]]] [].

(** Matrix 0 is a 1x3 destination, 1 is 1x2, 2 is 2x3. *)
Definition two_by_three : Matrix Qc :=
  matrix_of [[q 1; q 2; q 3]; [q 4; q 5; q 6]].

Definition rectangles : store Qc :=
  store_of [matrix_of [[q 0; q 0; q 0]];
            matrix_of [[q 1; q 2]];
            two_by_three] [].

(** Some contents for memory that was never written. *)
Definition junk (k : nat) : Qc := q (Z.of_nat k).



(** A matrix with an element of magnitude 1/2000, and a value for [INFTY]. *)
Definition small_entries : Matrix Qc :=
  matrix_of [[Q2Qc (1 # 2000); q 2]; [q 0; q (-3)]].

Definition printable : store Qc := store_of [small_entries] [].

Definition big : Qc := q 999999999.

(** Matrix 0 is 1x2; vector 0 is a destination of size 1 and vector 1 an
    operand of size 1. *)
Definition one_by_two : Matrix Qc := matrix_of [[q 1; q 2]].

Definition short_operand : store Qc :=
  store_of [one_by_two] [vector_of [q 0]; vector_of [q 5]].

(** Matrix 0 is 1x1. *)
Definition single : store Qc := store_of [matrix_of [[q 5]]] [].

(** No never-assigned pointer slot happens to hold NULL. *)
Definition never_null (k : nat) : bool := false.

End Samples.

(** For inversion: matrix 0 is a 2x2 destination, 1 has an inverse and 2
    is the zero matrix. *)
Module InversionSamples.

Definition regular : Matrix Qc := matrix_of [[q 4; q 7]; [q 2; q 6]].
Definition zeros : Matrix Qc := matrix_of [[q 0; q 0]; [q 0; q 0]].
Definition blank : Matrix Qc := matrix_of [[q 9; q 9]; [q 9; q 9]].

Definition heap : store Qc := store_of [blank; regular; zeros] [].

End InversionSamples.

(** ** A backend in exact arithmetic

    LU factorization with partial pivoting and inversion from the factors,
    over the rationals and for square matrices, behind the interface of
    [dgetrf_] and [dgetri_]: buffers are read column by column, pivots are
    numbered from one, and [info] is zero on success, [k] when the [k]-th
    pivot is exactly zero and negative for an argument that is not
    accepted.  It stands for LAPACK wherever a statement is run. *)

Module Reference.

Definition grid : Type := list (list Qc).

Definition at_ (g : grid) (i j : nat) : Qc :=
  match g !! i with
  | Some r => default 0%Qc (r !! j)
  | None => 0%Qc
  end.

Definition tab (n : nat) (f : nat → nat → Qc) : grid :=
  map (λ i, map (λ j, f i j) (seq 0 n)) (seq 0 n).

Definition of_buffer (n : nat) (a : list Qc) : grid :=
  tab n (λ i j, default 0%Qc (a !! (j * n + i))).

Definition to_buffer (n : nat) (g : grid) (len : nat) : list Qc :=
  map (λ k, at_ g (k `mod` n) (k `div` n)) (seq 0 len).

(** The first row at or below [best] whose entry in column [j] is largest
    in magnitude. *)
Fixpoint pivot (g : grid) (j i cnt best : nat) : nat :=
  match cnt with
  | 0 => best
  | S c =>
      pivot g j (S i) c
        (if Qc_ltb (Qcabs (at_ g best j)) (Qcabs (at_ g i j)) then i else best)
  end.

Definition swap_rows (n : nat) (g : grid) (i p : nat) : grid :=
  tab n (λ r c, at_ g (if decide (r = i) then p else if decide (r = p) then i else r) c).

Definition eliminate (n : nat) (g : grid) (j : nat) : grid :=
  tab n (λ r c,
    if (j <? r) && (j <? c)
    then (at_ g r c - at_ g r j * at_ g j c)%Qc
    else at_ g r c).

Definition lu_step (n : nat) (st : grid * list Z * Z) (j : nat)
    : grid * list Z * Z :=
  let '(g, ipiv, info) := st in
  let p := pivot g j (S j) (n - S j) j in
  let ipiv := ipiv ++ [Z.of_nat (S p)] in
  if Qc_eqb (at_ g p j) 0%Qc
  then (eliminate n g j, ipiv, if (info =? 0)%Z then Z.of_nat (S j) else info)
  else
    let g := swap_rows n g j p in
    let g := tab n (λ r c,
               if (j <? r) && (c =? j)
               then (at_ g r j / at_ g j j)%Qc
               else at_ g r c) in
    (eliminate n g j, ipiv, info).

Definition dgetrf (m n : nat) (a : list Qc) (lda : nat)
    : list Qc * list Z * Z :=
  if negb (m =? n) then (a, [], (-1)%Z)
  else if lda <? Nat.max 1 m then (a, [], (-4)%Z)
  else
    let '(g, ipiv, info) :=
      fold_left (lu_step n) (seq 0 n) (of_buffer n a, [], 0%Z) in
    (to_buffer n g (length a), ipiv, info).

(** The column [c] of the identity with the row interchanges applied. *)
Definition permuted_unit (n : nat) (ipiv : list Z) (c : nat) : list Qc :=
  fold_left
    (λ b j,
       let p := Z.to_nat (default 1%Z (ipiv !! j)) - 1 in
       <[j := default 0%Qc (b !! p)]> (<[p := default 0%Qc (b !! j)]> b))
    (seq 0 n)
    (map (λ r, if decide (r = c) then 1%Qc else 0%Qc) (seq 0 n)).

Definition dot (g : grid) (i : nat) (ks : list nat) (x : nat → Qc) : Qc :=
  fold_left (λ acc k, (acc + at_ g i k * x k)%Qc) ks 0%Qc.

(** [L y = b] for the unit lower triangle, then [U x = y]. *)
Definition forward (n : nat) (g : grid) (b : list Qc) : list Qc :=
  fold_left
    (λ y i, y ++ [(default 0%Qc (b !! i)
                   - dot g i (seq 0 i) (λ k, default 0%Qc (y !! k)))%Qc])
    (seq 0 n) [].

Definition backward (n : nat) (g : grid) (y : list Qc) : list Qc :=
  fold_left
    (λ xs i,
       ((default 0%Qc (y !! i)
         - dot g i (seq (S i) (n - S i)%nat) (λ k, default 0%Qc (xs !! (k - S i)%nat)))
        / at_ g i i)%Qc :: xs)
    (rev (seq 0 n)) [].

Definition first_zero_pivot (n : nat) (g : grid) : option nat :=
  head (filter (λ i, Qc_eqb (at_ g i i) 0%Qc = true) (seq 0 n)).

Definition dgetri (n : nat) (a : list Qc) (lda : nat) (ipiv : list Z)
    (lwork : nat) : list Qc * Z :=
  if lda <? Nat.max 1 n then (a, (-3)%Z)
  else
    let g := of_buffer n a in
    match first_zero_pivot n g with
    | Some i => (a, Z.of_nat (S i))
    | None =>
        let cols :=
          map (λ c, backward n g (forward n g (permuted_unit n ipiv c)))
              (seq 0 n) in
        (to_buffer n (tab n (λ r c, default 0%Qc (default [] (cols !! c) !! r)))
                   (length a), 0%Z)
    end.

End Reference.

(** ** The same backend in binary64

    The factorization and the inversion of [Reference], step for step, on
    IEEE 754 doubles with every operation rounded to nearest: what a
    floating-point LAPACK computes on small matrices.  A pivot is reported
    only when the computed value compares equal to zero. *)

Module Binary64.
Import PrimFloat.

Definition scalar : Scalar float := {|
  d_zero := 0%float;
  d_one := 1%float;
  d_add := PrimFloat.add;
  d_mul := PrimFloat.mul;
  d_fabs := PrimFloat.abs;
  d_ltb := PrimFloat.ltb;
  d_eqb := PrimFloat.eqb;
  d_milli := 0x1.0624dd2f1a9fcp-10%float
|}.

Definition grid : Type := list (list float).

Definition at_ (g : grid) (i j : nat) : float :=
  match g !! i with
  | Some r => default 0%float (r !! j)
  | None => 0%float
  end.

Definition tab (n : nat) (f : nat → nat → float) : grid :=
  map (λ i, map (λ j, f i j) (seq 0 n)) (seq 0 n).

Definition of_buffer (n : nat) (a : list float) : grid :=
  tab n (λ i j, default 0%float (a !! (j * n + i))).

Definition to_buffer (n : nat) (g : grid) (len : nat) : list float :=
  map (λ k, at_ g (k `mod` n) (k `div` n)) (seq 0 len).

Fixpoint pivot (g : grid) (j i cnt best : nat) : nat :=
  match cnt with
  | 0 => best
  | S c =>
      pivot g j (S i) c
        (if PrimFloat.ltb (PrimFloat.abs (at_ g best j)) (PrimFloat.abs (at_ g i j))
         then i else best)
  end.

Definition swap_rows (n : nat) (g : grid) (i p : nat) : grid :=
  tab n (λ r c, at_ g (if decide (r = i) then p else if decide (r = p) then i else r) c).

Definition eliminate (n : nat) (g : grid) (j : nat) : grid :=
  tab n (λ r c,
    if (j <? r) && (j <? c)
    then (at_ g r c - at_ g r j * at_ g j c)%float
    else at_ g r c).

Definition lu_step (n : nat) (st : grid * list Z * Z) (j : nat)
    : grid * list Z * Z :=
  let '(g, ipiv, info) := st in
  let p := pivot g j (S j) (n - S j) j in
  let ipiv := ipiv ++ [Z.of_nat (S p)] in
  if PrimFloat.eqb (at_ g p j) 0%float
  then (eliminate n g j, ipiv, if (info =? 0)%Z then Z.of_nat (S j) else info)
  else
    let g := swap_rows n g j p in
    let g := tab n (λ r c,
               if (j <? r) && (c =? j)
               then (at_ g r j / at_ g j j)%float
               else at_ g r c) in
    (eliminate n g j, ipiv, info).

Definition dgetrf (m n : nat) (a : list float) (lda : nat)
    : list float * list Z * Z :=
  if negb (m =? n) then (a, [], (-1)%Z)
  else if lda <? Nat.max 1 m then (a, [], (-4)%Z)
  else
    let '(g, ipiv, info) :=
      fold_left (lu_step n) (seq 0 n) (of_buffer n a, [], 0%Z) in
    (to_buffer n g (length a), ipiv, info).

Definition permuted_unit (n : nat) (ipiv : list Z) (c : nat) : list float :=
  fold_left
    (λ b j,
       let p := Z.to_nat (default 1%Z (ipiv !! j)) - 1 in
       <[j := default 0%float (b !! p)]> (<[p := default 0%float (b !! j)]> b))
    (seq 0 n)
    (map (λ r, if decide (r = c) then 1%float else 0%float) (seq 0 n)).

Definition dot (g : grid) (i : nat) (ks : list nat) (x : nat → float) : float :=
  fold_left (λ acc k, (acc + at_ g i k * x k)%float) ks 0%float.

Definition forward (n : nat) (g : grid) (b : list float) : list float :=
  fold_left
    (λ y i, y ++ [(default 0%float (b !! i)
                   - dot g i (seq 0 i) (λ k, default 0%float (y !! k)))%float])
    (seq 0 n) [].

Definition backward (n : nat) (g : grid) (y : list float) : list float :=
  fold_left
    (λ xs i,
       ((default 0%float (y !! i)
         - dot g i (seq (S i) (n - S i)%nat)
             (λ k, default 0%float (xs !! (k - S i)%nat)))
        / at_ g i i)%float :: xs)
    (rev (seq 0 n)) [].

Definition first_zero_pivot (n : nat) (g : grid) : option nat :=
  head (filter (λ i, PrimFloat.eqb (at_ g i i) 0%float = true) (seq 0 n)).

Definition dgetri (n : nat) (a : list float) (lda : nat) (ipiv : list Z)
    (lwork : nat) : list float * Z :=
  if lda <? Nat.max 1 n then (a, (-3)%Z)
  else
    let g := of_buffer n a in
    match first_zero_pivot n g with
    | Some i => (a, Z.of_nat (S i))
    | None =>
        let cols :=
          map (λ c, backward n g (forward n g (permuted_unit n ipiv c)))
              (seq 0 n) in
        (to_buffer n (tab n (λ r c, default 0%float (default [] (cols !! c) !! r)))
                   (length a), 0%Z)
    end.

End Binary64.

(** A matrix whose rows are in arithmetic progression, for any scalars: its
    entries are 1 to 9, each counted up from zero by ones.  Its first row
    plus its third is twice its second. *)
Module RoundingSamples.
Import PrimFloat.

Definition count {D} `{Scalar D} (k : nat) : D := Nat.iter k (d_add d_one) d_zero.

Definition ramp {D} `{Scalar D} : Matrix D :=
  matrix_of [[count 1; count 2; count 3];
             [count 4; count 5; count 6];
             [count 7; count 8; count 9]].

Definition exact : Matrix Qc := ramp (H := Qc_scalar).
Definition rounded : Matrix PrimFloat.float := ramp (H := Binary64.scalar).

Definition blank : Matrix PrimFloat.float :=
  mkMatrix (replicate 3 (replicate 3 PrimFloat.zero)) 3 3.

(** Matrix 0 is the destination and matrix 1 the one to invert. *)
Definition heap : store PrimFloat.float := store_of [blank; rounded] [].

Definition unwritten (k : nat) : PrimFloat.float := PrimFloat.zero.

(** The entries of [rounded], the factors the factorization leaves for it,
    column by column with the pivots 7, 0.857... and 2^-53 on the diagonal,
    and what inversion then writes. *)
Definition entries : list (list PrimFloat.float) :=
  [[1; 2; 3]; [4; 5; 6]; [7; 8; 9]]%float.

Definition factors : list PrimFloat.float :=
  [7; 0x1.2492492492492p-3; 0x1.2492492492492p-1;
   8; 0x1.b6db6db6db6dcp-1; 0x1.0000000000002p-1;
   9; 0x1.b6db6db6db6dcp+0; 0x1p-53]%float.

Definition written : list (list PrimFloat.float) :=
  [[-0x1.0000000000002p+52; 0x1p+53; -0x1p+52];
   [0x1.0000000000002p+53; -0x1p+54; 0x1.fffffffffffffp+52];
   [-0x1.0000000000002p+52; 0x1p+53; -0x1.fffffffffffffp+51]]%float.

End RoundingSamples.

(** ** The other routines of [matrix.c] *)

(** [x - y] on scalars, which only [mat_minus_eq] uses. *)
Class Subtraction (D : Type) := d_sub : D → D → D.

Global Instance Qc_subtraction : Subtraction Qc := Qcminus.

(** What [FILE *F] still holds for [fscanf(F, "%lf ", ...)], as the input
    items that successive conversions meet.  An input item is the longest
    run of characters that is a number or the beginning of one (C11
    7.21.6.2): a whole number converts; a beginning that is no number, such
    as a lone sign or point, is read and lost by the call that fails on it;
    and where no number can begin, the item is empty and nothing is read. *)
Inductive token (D : Type) : Type :=
  | Number (x : D)
  | Fragment
  | Text.

Arguments Number {D} x.
Arguments Fragment {D}.
Arguments Text {D}.

Abbreviation stream D := (list (token D)) (only parsing).

Section Routines.
Context {D : Type} `{Scalar D} `{Subtraction D}.

Variable uninit : nat → D.

(** *** [mat_new_from_array]; the caller's array is only read *)

Definition mat_new_from_array (array : list (list D)) (nrows ncols : nat)
    : prog D loc :=
  m ← mat_new uninit nrows ncols;
  for_ 0 nrows (λ i,
    for_ 0 ncols (λ j,
      r ← arr_get array i;
      x ← arr_get r j;
      mat_set m i j x));;
  ret m.

(** Modelled from the spec: [vec_new] of [vector.c], which is not among the
    sources at hand: a fresh vector of the given size, contents
    unspecified. *)
Definition vec_new (size : nat) : prog D loc :=
  λ σ, let v := fresh (dom (vecs σ)) in
       Ok v (mkStore (mats σ)
               (<[v := mkVector (map uninit (seq 0 size)) size]> (vecs σ))).

(** *** [mat_get_row] and [mat_get_col] *)

Definition mat_get_row (m : loc) (row : nat) : prog D loc :=
  M ← load_mat m;
  v ← vec_new (ncols M);
  for_ 0 (ncols M) (λ j,
    x ← mat_get m row j;
    vec_set v j x);;
  ret v.

Definition mat_get_col (m : loc) (col : nat) : prog D loc :=
  M ← load_mat m;
  v ← vec_new (nrows M);
  for_ 0 (nrows M) (λ i,
    x ← mat_get m i col;
    vec_set v i x);;
  ret v.

(** *** [mat_set_identity], [mat_zero], [mat_set_all] *)

Definition mat_set_identity (m : loc) : prog D unit :=
  M ← load_mat m;
  for_ 0 (nrows M) (λ i,
    for_ 0 (ncols M) (λ j,
      mat_set m i j (if decide (i = j) then d_one else d_zero))).

Definition mat_zero (m : loc) : prog D unit :=
  M ← load_mat m;
  for_ 0 (nrows M) (λ i,
    for_ 0 (ncols M) (λ j,
      mat_set m i j d_zero)).

Definition mat_set_all (m : loc) (val : D) : prog D unit :=
  M ← load_mat m;
  for_ 0 (nrows M) (λ i,
    for_ 0 (ncols M) (λ j,
      mat_set m i j val)).

(** *** [mat_copy] and [mat_create_copy] *)

Definition mat_copy (dest src : loc) : prog D unit :=
  MD ← load_mat dest;
  MS ← load_mat src;
  assert (bool_decide (nrows MD = nrows MS) && bool_decide (ncols MD = ncols MS));;
  for_ 0 (nrows MD) (λ i,
    for_ 0 (ncols MD) (λ j,
      x ← mat_get src i j;
      mat_set dest i j x)).

Definition mat_create_copy (src : loc) : prog D loc :=
  MS ← load_mat src;
  dest ← mat_new uninit (nrows MS) (ncols MS);
  mat_copy dest src;;
  ret dest.

(** *** [mat_scale] *)

Definition mat_scale (m : loc) (scale_factor : D) : prog D unit :=
  M ← load_mat m;
  for_ 0 (nrows M) (λ i,
    for_ 0 (ncols M) (λ j,
      x ← mat_get m i j;
      mat_set m i j (d_mul x scale_factor))).

(** *** [mat_read] and [mat_new_from_file]

    One [fscanf(F, "%lf ", &cell)]: a number at the head of the stream is
    read and stored; a fragment is read and the call fails; text and the end
    of the file stay where they are and the call fails.  On failure the cell,
    which must exist all the same, is not written. *)

Definition fscanf_lf (F : stream D) : option D * stream D :=
  match F with
  | Number x :: F' => (Some x, F')
  | Fragment :: F' => (None, F')
  | Text :: _ | [] => (None, F)
  end.

Definition mat_read (m : loc) (F : stream D) : prog D (stream D) :=
  M ← load_mat m;
  for_fold 0 (nrows M) F (λ i F,
    for_fold 0 (ncols M) F (λ j F,
      match fscanf_lf F with
      | (Some x, F) => mat_set m i j x;; ret F
      | (None, F) => mat_get m i j;; ret F
      end)).

Definition mat_new_from_file (F : stream D) (nrows ncols : nat)
    : prog D (loc * stream D) :=
  m ← mat_new uninit nrows ncols;
  F ← mat_read m F;
  ret (m, F).

(** *** [mat_plus_eq], [mat_minus_eq], [mat_linear_comb] *)

Definition mat_plus_eq (thism addm : loc) : prog D unit :=
  T ← load_mat thism;
  A ← load_mat addm;
  assert (bool_decide (nrows T = nrows A) && bool_decide (ncols T = ncols A));;
  for_ 0 (nrows T) (λ i,
    for_ 0 (ncols T) (λ j,
      x ← mat_get thism i j;
      y ← mat_get addm i j;
      mat_set thism i j (d_add x y))).

Definition mat_minus_eq (thism subm : loc) : prog D unit :=
  T ← load_mat thism;
  S ← load_mat subm;
  assert (bool_decide (nrows T = nrows S) && bool_decide (ncols T = ncols S));;
  for_ 0 (nrows T) (λ i,
    for_ 0 (ncols T) (λ j,
      x ← mat_get thism i j;
      y ← mat_get subm i j;
      mat_set thism i j (d_sub x y))).

Definition mat_linear_comb (dest src1 : loc) (coef1 : D) (src2 : loc) (coef2 : D)
    : prog D unit :=
  MD ← load_mat dest;
  M1 ← load_mat src1;
  M2 ← load_mat src2;
  assert (bool_decide (nrows MD = nrows M1) && bool_decide (ncols MD = ncols M1) &&
          bool_decide (nrows MD = nrows M2) && bool_decide (ncols MD = ncols M2));;
  for_ 0 (nrows MD) (λ i,
    for_ 0 (ncols MD) (λ j,
      x ← mat_get src1 i j;
      y ← mat_get src2 i j;
      mat_set dest i j (d_add (d_mul coef1 x) (d_mul coef2 y)))).

End Routines.

(** ** More values the statements speak about *)

Section MoreValues.
Context {D : Type} `{Scalar D}.

(** The [nr] x [nc] matrix whose cell [i][j] is [g i j]. *)
Definition tabulated (nr nc : nat) (g : nat → nat → D) : Matrix D :=
  mkMatrix (map (λ i, map (λ j, g i j) (seq 0 nc)) (seq 0 nr)) nr nc.

(** The stream after [k] conversions, and what conversion number [k],
    counted from zero, yields. *)
Definition after (k : nat) (F : stream D) : stream D :=
  Nat.iter k (λ F, (fscanf_lf F).2) F.

Definition outcome (k : nat) (F : stream D) : option D :=
  (fscanf_lf (after k F)).1.

End MoreValues.

(** ** More sample stores *)

Module MoreSamples.

(** The store of [Samples.triple] with a vector of ones for the diagonal:
    matrix 0 is the destination, 1 is B and 2 is D. *)
Definition unit_weights : Vector Qc := vector_of [q 1; q 1].

Definition unit_triple : store Qc :=
  store_of [matrix_of [[q 0; q 0]; [q 0; q 0]];
            matrix_of [[q 1; q 2]; [q 3; q 4]];
            matrix_of [[q 1; q 2]; [q 4; q 5]]]
           [unit_weights].

(** Matrix 0 is 2x2; vector 0 is a destination of size 2 and vector 1 an
    operand of size 2. *)
Definition two_by_two : Matrix Qc := matrix_of [[q 1; q 2]; [q 3; q 4]].
Definition operand : Vector Qc := vector_of [q 5; q 6].
Definition target : Vector Qc := vector_of [q 0; q 0].

Definition with_vectors : store Qc := store_of [two_by_two] [target; operand].

(** A C array of two rows of three, and the stream of the text
    [10 20 - 30 40 50 60]. *)
Definition rows : list (list Qc) := [[q 1; q 2; q 3]; [q 4; q 5; q 6]].

Definition tokens : stream Qc :=
  [Number (q 10); Number (q 20); Fragment;
   Number (q 30); Number (q 40); Number (q 50); Number (q 60)].

End MoreSamples.

(** ** The blocks behind a matrix

    [mat_new] and [mat_free] are about the allocations themselves, which the
    store above keeps as one object.  Here the heap is a map from addresses
    to the blocks [smalloc] returned and [free] has not yet released: the
    struct, the table of row pointers, and one buffer for each row.  The
    numbers in the buffers play no part and are left out. *)

Module Blocks.

Inductive block :=
  | Header (data : option loc) (dims : option (nat * nat))  (* Matrix *)
  | Table (slots : list (option loc))                       (* double ** *)
  | Row (len : nat).                                        (* double * *)

(** A field or a slot that was never assigned is [None]. *)

Abbreviation heap := (gmap loc block) (only parsing).

Inductive result (A : Type) :=
  | Done (a : A) (h : heap)
  | Crash (e : fault).
Arguments Done {A} _ _.
Arguments Crash {A} _.

Definition run (A : Type) : Type := heap → result A.

Definition ret {A} (a : A) : run A := λ h, Done a h.

Definition bind {A B} (c : run A) (k : A → run B) : run B :=
  λ h, match c h with
       | Done a h' => k a h'
       | Crash e => Crash e
       end.

Definition fail {A} (e : fault) : run A := λ _, Crash e.

Global Instance run_ret : MRet run := λ A, @ret A.
Global Instance run_bind : MBind run := λ A B k c, bind c k.

Fixpoint for_range (i cnt : nat) (body : nat → run unit) : run unit :=
  match cnt with
  | 0 => ret tt
  | S c => body i;; for_range (S i) c body
  end.

Definition for_ (lo hi : nat) (body : nat → run unit) : run unit :=
  for_range lo (hi - lo) body.

(** [smalloc] returns an address that names no live block; [free] of
    anything but the address of a live block is undefined. *)
Definition smalloc (b : block) : run loc :=
  λ h, let l := fresh (dom h) in Done l (<[l := b]> h).

Definition free (p : option loc) : run unit :=
  λ h, match p with
       | Some l => if decide (is_Some (h !! l)) then Done tt (delete l h)
                   else Crash InvalidPointer
       | None => Crash InvalidPointer
       end.

Definition load (l : loc) : run block :=
  λ h, match h !! l with
       | Some b => Done b h
       | None => Crash InvalidPointer
       end.

Definition store (l : loc) (b : block) : run unit :=
  λ h, if decide (is_Some (h !! l)) then Done tt (<[l := b]> h)
       else Crash InvalidPointer.

(** The fields [m->data], [m->nrows] and [m->ncols], and the slots
    [m->data[i]]. *)
Definition get_header (m : loc) : run (option loc * option (nat * nat)) :=
  b ← load m;
  match b with
  | Header data dims => ret (data, dims)
  | _ => fail InvalidPointer
  end.

Definition get_data (m : loc) : run loc :=
  '(data, _) ← get_header m;
  match data with
  | Some t => ret t
  | None => fail InvalidPointer
  end.

Definition set_data (m t : loc) : run unit :=
  '(_, dims) ← get_header m;
  store m (Header (Some t) dims).

Definition get_nrows (m : loc) : run nat :=
  '(_, dims) ← get_header m;
  match dims with
  | Some (nrows, _) => ret nrows
  | None => fail InvalidPointer
  end.

Definition set_dims (m : loc) (nrows ncols : nat) : run unit :=
  '(data, _) ← get_header m;
  store m (Header data (Some (nrows, ncols))).

Definition get_slots (t : loc) : run (list (option loc)) :=
  b ← load t;
  match b with
  | Table slots => ret slots
  | _ => fail InvalidPointer
  end.

Definition get_slot (m : loc) (i : nat) : run (option loc) :=
  t ← get_data m;
  slots ← get_slots t;
  match slots !! i with
  | Some p => ret p
  | None => fail OutOfBounds
  end.

Definition set_slot (m : loc) (i : nat) (r : loc) : run unit :=
  t ← get_data m;
  slots ← get_slots t;
  if decide (i < length slots) then store t (Table (<[i := Some r]> slots))
  else fail OutOfBounds.

Definition mat_new (nrows ncols : nat) : run loc :=
  m ← smalloc (Header None None);
  t ← smalloc (Table (replicate nrows None));
  set_data m t;;
  for_ 0 nrows (λ i,
    r ← smalloc (Row ncols);
    set_slot m i r);;
  set_dims m nrows ncols;;
  ret m.

Definition mat_free (m : loc) : run unit :=
  nrows ← get_nrows m;
  for_ 0 nrows (λ i,
    p ← get_slot m i;
    free p);;
  t ← get_data m;
  free (Some t);;
  free (Some m).

(** [h'] is [h] with the blocks of one matrix added: the struct at [m] with
    the given dimensions, the table at [t] with the given slots, and a row
    buffer of [nc] numbers at each address of [rs]. *)
Definition extends (h h' : heap) (m t : loc) (rs : list loc)
    (dims : option (nat * nat)) (slots : list (option loc)) (nc : nat) : Prop :=
  NoDup (m :: t :: rs) ∧
  (∀ l, l ∈ m :: t :: rs → h !! l = None) ∧
  h' !! m = Some (Header (Some t) dims) ∧
  h' !! t = Some (Table slots) ∧
  (∀ r, r ∈ rs → h' !! r = Some (Row nc)) ∧
  (∀ l, l ∉ m :: t :: rs → h' !! l = h !! l).

End Blocks.
(** ** Reasoning about programs *)

Section Logic.
Context {D : Type}.

Lemma bind_ok {A B} (c : prog D A) (k : A → prog D B) σ a σ' :
  c σ = Ok a σ' → (x ← c; k x) σ = k a σ'.
Proof. intros Hc. unfold mbind, prog_bind, bind. by rewrite Hc. Qed.

(** The loop rule, for total correctness: an invariant that every iteration
    re-establishes holds when the loop ends, and the loop does end. *)
Lemma for_range_inv {A} (I : nat → A → store D → Prop)
    (body : nat → A → prog D A) cnt :
  ∀ i a σ,
    I i a σ →
    (∀ k a σ, i ≤ k < i + cnt → I k a σ →
       ∃ a' σ', body k a σ = Ok a' σ' ∧ I (S k) a' σ') →
    ∃ a' σ', for_range i cnt a body σ = Ok a' σ' ∧ I (i + cnt) a' σ'.
Proof.
  induction cnt as [|cnt IH]; intros i a σ HI Hstep; simpl.
  - exists a, σ. by rewrite Nat.add_0_r.
  - destruct (Hstep i a σ) as (a1 & σ1 & Hb & HI1); [lia|done|].
    destruct (IH (S i) a1 σ1 HI1) as (a2 & σ2 & Hr & HI2).
    { intros k a' σ' Hk. apply Hstep. lia. }
    exists a2, σ2. rewrite (bind_ok _ _ _ _ _ Hb).
    split; [done|]. by replace (i + S cnt) with (S i + cnt) by lia.
Qed.

Lemma for_fold_inv {A} (I : nat → A → store D → Prop)
    (body : nat → A → prog D A) lo hi a σ :
  lo ≤ hi →
  I lo a σ →
  (∀ k a σ, lo ≤ k < hi → I k a σ →
     ∃ a' σ', body k a σ = Ok a' σ' ∧ I (S k) a' σ') →
  ∃ a' σ', for_fold lo hi a body σ = Ok a' σ' ∧ I hi a' σ'.
Proof.
  intros Hle HI Hstep. unfold for_fold.
  destruct (for_range_inv I body (hi - lo) lo a σ HI) as (a' & σ' & Hr & HI').
  { intros k a1 σ1 Hk. apply Hstep. lia. }
  exists a', σ'. split; [done|]. by replace hi with (lo + (hi - lo)) by lia.
Qed.

Lemma for_inv (I : nat → store D → Prop) (body : nat → prog D unit) lo hi σ :
  lo ≤ hi →
  I lo σ →
  (∀ k σ, lo ≤ k < hi → I k σ → ∃ σ', body k σ = Ok tt σ' ∧ I (S k) σ') →
  ∃ σ', for_ lo hi body σ = Ok tt σ' ∧ I hi σ'.
Proof.
  intros Hle HI Hstep. unfold for_.
  destruct (for_fold_inv (λ k _ σ, I k σ) (λ i _, body i) lo hi tt σ Hle HI)
    as ([] & σ' & Hr & HI').
  { intros k [] σ1 Hk HI1. destruct (Hstep k σ1 Hk HI1) as (σ2 & ? & ?).
    by exists tt, σ2. }
  by exists σ'.
Qed.

(** A loop whose range is empty does nothing. *)
Lemma for_fold_empty {A} (body : nat → A → prog D A) lo hi a σ :
  hi ≤ lo → for_fold lo hi a body σ = Ok a σ.
Proof. intros Hle. unfold for_fold. by replace (hi - lo) with 0 by lia. Qed.

End Logic.

(** ** Cells, shapes and frames *)

Section Cells.
Context {D : Type}.
Implicit Types (M : Matrix D) (σ : store D).

Lemma data_lookup_wf M i :
  wf M → i < nrows M → ∃ r, data M !! i = Some r ∧ length r = ncols M.
Proof.
  intros [Hlen Hrows] Hi.
  destruct (lookup_lt_is_Some_2 (data M) i) as [r Hr]; [lia|].
  exists r. split; [done|]. by eapply (Forall_lookup_1 _ _ _ _ Hrows).
Qed.

Lemma mget_wf M i j : wf M → i < nrows M → j < ncols M → is_Some (mget M i j).
Proof.
  intros Hwf Hi Hj. destruct (data_lookup_wf M i Hwf Hi) as (r & Hr & Hlen).
  unfold mget. rewrite Hr. apply lookup_lt_is_Some_2. lia.
Qed.

Lemma mset_wf M i j v :
  wf M → i < nrows M → j < ncols M →
  ∃ M', mset M i j v = Some M' ∧ wf M' ∧
        nrows M' = nrows M ∧ ncols M' = ncols M ∧
        mget M' i j = Some v ∧
        ∀ i' j', i' ≠ i ∨ j' ≠ j → mget M' i' j' = mget M i' j'.
Proof.
  intros Hwf Hi Hj. destruct (data_lookup_wf M i Hwf Hi) as (r & Hr & Hlen).
  destruct Hwf as [Hl Hrows].
  unfold mset. rewrite Hr. rewrite decide_True by lia.
  eexists. split; [done|]. repeat split; simpl.
  - by rewrite length_insert.
  - apply Forall_insert; [done|]. by rewrite length_insert.
  - unfold mget; simpl. rewrite list_lookup_insert_eq by lia.
    apply list_lookup_insert_eq. lia.
  - intros i' j' Hne. unfold mget; simpl.
    destruct (decide (i' = i)) as [->|Hi'].
    + rewrite list_lookup_insert_eq by lia. rewrite Hr.
      apply list_lookup_insert_ne. destruct Hne; congruence.
    + by rewrite list_lookup_insert_ne.
Qed.

(** Two well-formed matrices of one shape with the same cells are equal. *)
Lemma matrix_ext M N :
  wf M → wf N → nrows M = nrows N → ncols M = ncols N →
  (∀ i j, i < nrows M → j < ncols M → mget M i j = mget N i j) →
  M = N.
Proof.
  intros HM HN Hr Hc Hcells.
  destruct M as [dm nr nc], N as [dn nr' nc']; simpl in *. subst nr' nc'.
  f_equal. apply list_eq_same_length with nr.
  - apply HN.
  - apply HM.
  - intros i r1 r2 Hi H1 H2.
    destruct HM as [_ HM], HN as [_ HN]; simpl in *.
    apply list_eq_same_length with nc.
    + by eapply (Forall_lookup_1 _ _ _ _ HN).
    + by eapply (Forall_lookup_1 _ _ _ _ HM).
    + intros j x y Hj Hx Hy. specialize (Hcells i j Hi Hj).
      unfold mget in Hcells; simpl in Hcells. rewrite H1, H2 in Hcells.
      congruence.
Qed.

Lemma only_mat_refl m σ : only_mat m σ σ.
Proof. by repeat split. Qed.

Lemma only_mat_trans m σ1 σ2 σ3 :
  only_mat m σ1 σ2 → only_mat m σ2 σ3 → only_mat m σ1 σ3.
Proof.
  intros (Hv1 & Hf1 & Hs1) (Hv2 & Hf2 & Hs2). repeat split.
  - congruence.
  - intros p Hp. rewrite Hf2, Hf1; done.
  - intros nr nc Hs. by apply Hs2, Hs1.
Qed.

Lemma only_mat_shape m σ σ' p nr nc :
  only_mat m σ σ' → shape σ p nr nc → shape σ' p nr nc.
Proof.
  intros (_ & Hf & Hs) Hsh. destruct (decide (p = m)) as [->|Hne]; [by apply Hs|].
  unfold shape in *. by rewrite Hf.
Qed.

Lemma only_mat_cell m σ σ' p i j :
  only_mat m σ σ' → p ≠ m → cell σ' p i j = cell σ p i j.
Proof. intros (_ & Hf & _) Hne. unfold cell. by rewrite Hf. Qed.

Lemma mat_get_cell σ m i j x :
  cell σ m i j = Some x → mat_get m i j σ = Ok x σ.
Proof.
  unfold cell, mat_get, load_mat. intros Hc.
  unfold mbind, prog_bind, bind. destruct (mats σ !! m); [|done].
  by rewrite Hc.
Qed.

Lemma mat_set_shape σ m nr nc i j v :
  shape σ m nr nc → i < nr → j < nc →
  ∃ σ', mat_set m i j v σ = Ok tt σ' ∧ only_mat m σ σ' ∧
        cell σ' m i j = Some v ∧
        ∀ i' j', i' ≠ i ∨ j' ≠ j → cell σ' m i' j' = cell σ m i' j'.
Proof.
  intros (M & HM & Hwf & <- & <-) Hi Hj.
  destruct (mset_wf M i j v Hwf Hi Hj) as (M' & Hset & Hwf' & Hr & Hc & Hv & Ho).
  eexists. unfold mat_set, load_mat, store_mat, mbind, prog_bind, bind.
  rewrite HM, Hset. split; [done|]. repeat split; simpl.
  - intros p Hp. by rewrite lookup_insert_ne.
  - intros nr nc (M0 & HM0 & _ & <- & <-). exists M'. simpl.
    rewrite lookup_insert_eq. replace M0 with M by congruence. done.
  - unfold cell; simpl. by rewrite lookup_insert_eq.
  - intros i' j' Hne. unfold cell; simpl. rewrite lookup_insert_eq, HM. by apply Ho.
Qed.

End Cells.

(** ** [mat_new] and [mat_transpose] *)

Section Transpose.
Context {D : Type}.
Variable uninit : nat → D.
Implicit Types (M : Matrix D) (σ : store D).

Lemma mat_new_wf nr nc :
  wf (mkMatrix (map (λ i, fresh_row uninit i nc) (seq 0 nr)) nr nc).
Proof.
  split; simpl.
  - by rewrite length_map, length_seq.
  - apply Forall_forall. intros r (i & <- & _)%in_map_iff.
    unfold fresh_row. by rewrite length_map, length_seq.
Qed.

Lemma mat_new_spec σ nr nc :
  ∃ r σ', mat_new uninit nr nc σ = Ok r σ' ∧
          mats σ !! r = None ∧ vecs σ' = vecs σ ∧
          (∀ p, p ≠ r → mats σ' !! p = mats σ !! p) ∧
          shape σ' r nr nc.
Proof.
  eexists _, _. split; [reflexivity|]. simpl.
  pose proof (is_fresh (dom (mats σ))) as Hfresh.
  repeat split.
  - by apply not_elem_of_dom.
  - intros p Hp. by rewrite lookup_insert_ne.
  - eexists. simpl. rewrite lookup_insert_eq. split; [done|].
    split; [apply mat_new_wf|done].
Qed.

(** One call: the result is a new object, the transposed shape, every cell
    mirrored, and nothing else in the store touched. *)
Lemma mat_transpose_once σ src M :
  mats σ !! src = Some M → wf M →
  ∃ r σ' T, mat_transpose uninit src σ = Ok r σ' ∧
            mats σ !! r = None ∧
            mats σ' = <[r := T]> (mats σ) ∧ vecs σ' = vecs σ ∧
            wf T ∧ nrows T = ncols M ∧ ncols T = nrows M ∧
            ∀ i j, i < nrows M → j < ncols M → mget T j i = mget M i j.
Proof.
  intros HM Hwf. unfold mat_transpose.
  assert (load_mat src σ = Ok M σ) as Hload by (unfold load_mat; by rewrite HM).
  rewrite (bind_ok _ _ _ _ _ Hload).
  destruct (mat_new_spec σ (ncols M) (nrows M))
    as (r & σ1 & Hnew & Hfresh & Hv1 & Hf1 & Hsh1).
  rewrite (bind_ok _ _ _ _ _ Hnew).
  assert (src ≠ r) as Hne by congruence.
  assert (∀ σ2 i j, only_mat r σ1 σ2 → cell σ2 src i j = mget M i j) as Hsrc.
  { intros σ2 i j Ho. rewrite (only_mat_cell _ _ _ _ _ _ Ho) by done.
    unfold cell. by rewrite Hf1, HM. }
  destruct (for_inv
    (λ i σ2, only_mat r σ1 σ2 ∧
             ∀ i' j, i' < i → j < ncols M → cell σ2 r j i' = mget M i' j)
    (λ i, for_ 0 (ncols M) (λ j, x ← mat_get src i j; mat_set r j i x))
    0 (nrows M) σ1) as (σ2 & Hloop & Ho2 & Hcells); [lia| |..].
  { split; [apply only_mat_refl|]. intros; lia. }
  { intros i σa Hi (Hoa & Ha).
    destruct (for_inv
      (λ j σ2, only_mat r σ1 σ2 ∧
               (∀ i' j', i' < i → j' < ncols M → cell σ2 r j' i' = mget M i' j') ∧
               ∀ j', j' < j → cell σ2 r j' i = mget M i j')
      (λ j, x ← mat_get src i j; mat_set r j i x)
      0 (ncols M) σa) as (σb & Hin & Hob & Hb1 & Hb2); [lia| |..].
    { split; [done|]. split; [done|]. intros; lia. }
    { intros j σc Hj (Hoc & Hc1 & Hc2).
      destruct (mget_wf M i j Hwf) as [x Hx]; [lia..|].
      rewrite (bind_ok _ _ _ x σc) by (apply mat_get_cell; by rewrite Hsrc).
      destruct (mat_set_shape σc r (ncols M) (nrows M) j i x)
        as (σd & Hset & Hod & Hnewc & Hother); [|lia..|].
      { eapply only_mat_shape; eauto. }
      exists σd. split; [done|]. split; [by eapply only_mat_trans|]. split.
      - intros i' j' Hi' Hj'. rewrite Hother by lia. by apply Hc1.
      - intros j' Hj'. destruct (decide (j' = j)) as [->|Hjne].
        + by rewrite Hnewc.
        + rewrite Hother by lia. apply Hc2. lia. }
    exists σb. split; [done|]. split; [done|].
    intros i' j Hi' Hj. destruct (decide (i' = i)) as [->|Hine].
    - by apply Hb2.
    - apply Hb1; lia. }
  rewrite (bind_ok _ _ _ _ _ Hloop).
  destruct (only_mat_shape _ _ _ _ _ _ Ho2 Hsh1) as (T & HT & HwfT & HrT & HcT).
  exists r, σ2, T. split; [done|]. split; [done|].
  destruct Ho2 as (Hv2 & Hf2 & _).
  split.
  { apply map_eq. intros p. destruct (decide (p = r)) as [->|Hp].
    - by rewrite lookup_insert_eq.
    - rewrite lookup_insert_ne by done. by rewrite Hf2, Hf1. }
  split; [congruence|]. do 3 (split; [done|]).
  intros i j Hi Hj. specialize (Hcells i j Hi Hj).
  unfold cell in Hcells. by rewrite HT in Hcells.
Qed.

(** C5: for every matrix M, [mat_transpose] returns a new [ncols]x[nrows]
    matrix whose entry [j][i] is M[i][j], leaving the rest of the store as it
    was; and transposing that result gives a matrix equal to M. *)
Theorem mat_transpose_involutive σ src M :
  mats σ !! src = Some M → wf M →
  ∃ r σ' T, mat_transpose uninit src σ = Ok r σ' ∧
            mats σ !! r = None ∧
            mats σ' = <[r := T]> (mats σ) ∧ vecs σ' = vecs σ ∧
            nrows T = ncols M ∧ ncols T = nrows M ∧
            (∀ i j, i < nrows M → j < ncols M →
                    is_Some (mget M i j) ∧ mget T j i = mget M i j) ∧
            ∃ r' σ'', mat_transpose uninit r σ' = Ok r' σ'' ∧
                      mats σ' !! r' = None ∧
                      mats σ'' = <[r' := M]> (mats σ').
Proof.
  intros HM Hwf.
  destruct (mat_transpose_once σ src M HM Hwf)
    as (r & σ' & T & Hrun & Hfresh & Hmats & Hvecs & HwfT & HrT & HcT & Hcells).
  exists r, σ', T. repeat (split; [done|]). split.
  { intros i j Hi Hj. split; [by apply mget_wf|by apply Hcells]. }
  assert (mats σ' !! r = Some T) as HT by (by rewrite Hmats, lookup_insert_eq).
  destruct (mat_transpose_once σ' r T HT HwfT)
    as (r' & σ'' & T' & Hrun' & Hfresh' & Hmats' & _ & HwfT' & HrT' & HcT' & Hcells').
  exists r', σ''. repeat (split; [done|]).
  rewrite Hmats'. f_equal. apply matrix_ext; try done; try congruence.
  intros i j Hi Hj. rewrite Hcells' by lia. apply Hcells; lia.
Qed.

End Transpose.

Lemma mat_transpose_involutive_witness :
  ∃ r σ' T, mat_transpose Samples.junk 2 Samples.rectangles = Ok r σ' ∧
            mats Samples.rectangles !! r = None ∧
            mats σ' = <[r := T]> (mats Samples.rectangles) ∧
            vecs σ' = vecs Samples.rectangles ∧
            nrows T = 3 ∧ ncols T = 2 ∧
            (∀ i j, i < 2 → j < 3 →
                    is_Some (mget Samples.two_by_three i j) ∧
                    mget T j i = mget Samples.two_by_three i j) ∧
            ∃ r' σ'', mat_transpose Samples.junk r σ' = Ok r' σ'' ∧
                      mats σ' !! r' = None ∧
                      mats σ'' = <[r' := Samples.two_by_three]> (mats σ').
Proof.
  apply (mat_transpose_involutive Samples.junk Samples.rectangles 2
           Samples.two_by_three);
    [reflexivity|split; [reflexivity|repeat constructor]].
Defined.

(** ** Accumulating loop nests: [mat_mult] and [mat_mult_diag] *)

Section Products.
Context {D : Type} `{Scalar D}.
Implicit Types (M : Matrix D) (σ : store D).

Lemma ent_wf M i j :
  wf M → i < nrows M → j < ncols M → mget M i j = Some (ent M i j).
Proof.
  intros Hwf Hi Hj. destruct (mget_wf M i j Hwf Hi Hj) as [x Hx].
  unfold ent. by rewrite Hx.
Qed.

Lemma cell_ent σ m M i j :
  mats σ !! m = Some M → wf M → i < nrows M → j < ncols M →
  cell σ m i j = Some (ent M i j).
Proof. intros HM Hwf Hi Hj. unfold cell. rewrite HM. by apply ent_wf. Qed.

(** The nest shared by the two products: every cell of [A] in range is
    zeroed and then receives its [n3] terms in order. *)
Lemma accum_nest (step : nat → nat → nat → prog D unit)
    (f : nat → nat → nat → D) σ A nr nc n1 n2 n3 :
  shape σ A nr nc → n1 ≤ nr → n2 ≤ nc →
  (∀ σ1 i j k acc,
     only_mat A σ σ1 → i < n1 → j < n2 → k < n3 →
     cell σ1 A i j = Some acc →
     ∃ σ2, step i j k σ1 = Ok tt σ2 ∧ only_mat A σ1 σ2 ∧
           cell σ2 A i j = Some (d_add acc (f i j k)) ∧
           ∀ i' j', i' ≠ i ∨ j' ≠ j → cell σ2 A i' j' = cell σ1 A i' j') →
  ∃ σ', for_ 0 n1 (λ i,
          for_ 0 n2 (λ j,
            mat_set A i j d_zero;;
            for_ 0 n3 (step i j))) σ = Ok tt σ' ∧
        only_mat A σ σ' ∧
        ∀ i j, i < n1 → j < n2 → cell σ' A i j = Some (accum (f i j) n3).
Proof.
  intros Hsh Hn1 Hn2 Hstep.
  apply (for_inv (λ i σ1, only_mat A σ σ1 ∧
    ∀ i' j, i' < i → j < n2 → cell σ1 A i' j = Some (accum (f i' j) n3)));
    [lia| |].
  { split; [apply only_mat_refl|]. intros; lia. }
  intros i σa Hi (Hoa & Ha).
  destruct (for_inv (λ j σ1, only_mat A σ σ1 ∧
      (∀ i' j', i' < i → j' < n2 → cell σ1 A i' j' = Some (accum (f i' j') n3)) ∧
      ∀ j', j' < j → cell σ1 A i j' = Some (accum (f i j') n3))
    (λ j, mat_set A i j d_zero;; for_ 0 n3 (step i j)) 0 n2 σa)
    as (σb & Hrun & Hob & Hb1 & Hb2); [lia| | |].
  { split; [done|]. split; [done|]. intros; lia. }
  { intros j σc Hj (Hoc & Hc1 & Hc2).
    destruct (mat_set_shape σc A nr nc i j d_zero)
      as (σd & Hset & Hod & Hz & Hother); [|lia..|].
    { eapply only_mat_shape; eauto. }
    assert (only_mat A σ σd) as Hod' by (by eapply only_mat_trans).
    destruct (for_inv (λ k σ1, only_mat A σ σ1 ∧
        cell σ1 A i j = Some (accum (f i j) k) ∧
        ∀ i' j', i' ≠ i ∨ j' ≠ j → cell σ1 A i' j' = cell σd A i' j')
      (step i j) 0 n3 σd) as (σe & Hk & Hoe & He1 & He2); [lia| | |].
    { split; [done|]. split; [done|]. done. }
    { intros k σk Hkr (Hok & Hk1 & Hk2).
      destruct (Hstep σk i j k (accum (f i j) k) Hok)
        as (σl & Hs & Hol & Hl1 & Hl2); [lia..|done|].
      exists σl. split; [done|]. split; [by eapply only_mat_trans|].
      split; [done|]. intros i' j' Hne. rewrite Hl2 by done. by apply Hk2. }
    exists σe. rewrite (bind_ok _ _ _ _ _ Hset). split; [done|].
    split; [done|]. split.
    - intros i' j' Hi' Hj'. rewrite He2, Hother by lia. by apply Hc1.
    - intros j' Hj'. destruct (decide (j' = j)) as [->|Hne]; [done|].
      rewrite He2, Hother by lia. apply Hc2. lia. }
  exists σb. split; [done|]. split; [done|].
  intros i' j Hi' Hj. destruct (decide (i' = i)) as [->|Hne].
  - by apply Hb2.
  - apply Hb1; lia.
Qed.

Lemma load_mat_ok σ m M : mats σ !! m = Some M → load_mat m σ = Ok M σ.
Proof. intros HM. unfold load_mat. by rewrite HM. Qed.

Lemma load_vec_ok σ v (V : Vector D) :
  vecs σ !! v = Some V → load_vec v σ = Ok V σ.
Proof. intros HV. unfold load_vec. by rewrite HV. Qed.

Lemma vec_get_ok σ v (V : Vector D) i x :
  vecs σ !! v = Some V → vec_data V !! i = Some x → vec_get v i σ = Ok x σ.
Proof.
  intros HV Hx. unfold vec_get. rewrite (bind_ok _ _ _ _ _ (load_vec_ok _ _ _ HV)).
  by rewrite Hx.
Qed.

Lemma vent_wf (V : Vector D) i :
  vwf V → i < size V → vec_data V !! i = Some (vent V i).
Proof.
  intros Hwf Hi. destruct (lookup_lt_is_Some_2 (vec_data V) i) as [x Hx].
  { unfold vwf in Hwf. lia. }
  unfold vent. by rewrite Hx.
Qed.

Lemma shape_intro σ m M :
  mats σ !! m = Some M → wf M → shape σ m (nrows M) (ncols M).
Proof. intros. by exists M. Qed.

(** [mat_mult] on three objects of which the destination is not an input:
    the check passes when, beyond the usual agreement of the inner
    dimension, the product is square. *)
Lemma mat_mult_separate σ prod m1 m2 P M1 M2 :
  mats σ !! prod = Some P → mats σ !! m1 = Some M1 → mats σ !! m2 = Some M2 →
  wf P → wf M1 → wf M2 →
  ncols M1 = nrows M2 → nrows M1 = ncols M2 →
  nrows P = nrows M1 → ncols P = ncols M2 →
  prod ≠ m1 → prod ≠ m2 →
  ∃ σ', mat_mult prod m1 m2 σ = Ok tt σ' ∧ only_mat prod σ σ' ∧
        ∀ i j, i < nrows M1 → j < ncols M2 →
          cell σ' prod i j =
          Some (accum (λ k, d_mul (ent M1 i k) (ent M2 k j)) (ncols M1)).
Proof.
  intros HP HM1 HM2 HwP Hw1 Hw2 Hin Hsq Hr Hc Hne1 Hne2. unfold mat_mult.
  rewrite (bind_ok _ _ _ _ _ (load_mat_ok _ _ _ HP)).
  rewrite (bind_ok _ _ _ _ _ (load_mat_ok _ _ _ HM1)).
  rewrite (bind_ok _ _ _ _ _ (load_mat_ok _ _ _ HM2)).
  rewrite !bool_decide_eq_true_2 by done. simpl.
  rewrite (bind_ok _ _ _ tt σ) by done.
  rewrite <- Hr, <- Hc.
  apply (accum_nest _ (λ i j k, d_mul (ent M1 i k) (ent M2 k j))
           σ prod (nrows P) (ncols P)); [by apply shape_intro|lia..|].
  intros σ1 i j k acc Ho Hi Hj Hk Hacc.
  rewrite (bind_ok _ _ _ acc σ1) by (by apply mat_get_cell).
  rewrite (bind_ok _ _ _ (ent M1 i k) σ1).
  2:{ apply mat_get_cell. rewrite (only_mat_cell _ _ _ _ _ _ Ho) by done.
      apply cell_ent; [done..|lia|lia]. }
  rewrite (bind_ok _ _ _ (ent M2 k j) σ1).
  2:{ apply mat_get_cell. rewrite (only_mat_cell _ _ _ _ _ _ Ho) by done.
      apply cell_ent; [done..|lia|lia]. }
  destruct (mat_set_shape σ1 prod (nrows P) (ncols P) i j
              (d_add acc (d_mul (ent M1 i k) (ent M2 k j))))
    as (σ2 & Hset & Ho2 & Hv & Hother); [|lia..|].
  { eapply only_mat_shape; [done|]. by apply shape_intro. }
  by exists σ2.
Qed.

(** [mat_mult_diag] on a destination that is not one of its inputs. *)
Lemma mat_mult_diag_separate σ A B C D' MA MB (VC : Vector D) MD n :
  mats σ !! A = Some MA → mats σ !! B = Some MB →
  vecs σ !! C = Some VC → mats σ !! D' = Some MD →
  wf MA → wf MB → vwf VC → wf MD →
  nrows MA = n → ncols MA = n → nrows MB = n → ncols MB = n →
  size VC = n → nrows MD = n → ncols MD = n →
  A ≠ B → A ≠ D' →
  ∃ σ', mat_mult_diag A B C D' σ = Ok tt σ' ∧ only_mat A σ σ' ∧
        ∀ i j, i < n → j < n →
          cell σ' A i j =
          Some (accum (λ k, d_mul (d_mul (ent MB i k) (vent VC k)) (ent MD k j)) n).
Proof.
  intros HA HB HC HD HwA HwB HwC HwD HrA HcA HrB HcB Hsz HrD HcD HneB HneD.
  unfold mat_mult_diag.
  rewrite (bind_ok _ _ _ _ _ (load_vec_ok _ _ _ HC)).
  rewrite (bind_ok _ _ _ _ _ (load_mat_ok _ _ _ HA)).
  rewrite (bind_ok _ _ _ _ _ (load_mat_ok _ _ _ HB)).
  rewrite (bind_ok _ _ _ _ _ (load_mat_ok _ _ _ HD)).
  rewrite !bool_decide_eq_true_2 by congruence. simpl.
  rewrite (bind_ok _ _ _ tt σ) by done.
  rewrite Hsz.
  assert (shape σ A n n) as Hsh by (exists MA; done).
  apply (accum_nest _ (λ i j k, d_mul (d_mul (ent MB i k) (vent VC k)) (ent MD k j))
           σ A n n); [done|lia..|].
  intros σ1 i j k acc Ho Hi Hj Hk Hacc.
  rewrite (bind_ok _ _ _ acc σ1) by (by apply mat_get_cell).
  rewrite (bind_ok _ _ _ (ent MB i k) σ1).
  2:{ apply mat_get_cell. rewrite (only_mat_cell _ _ _ _ _ _ Ho) by done.
      apply cell_ent; [done..|lia|lia]. }
  rewrite (bind_ok _ _ _ (vent VC k) σ1).
  2:{ apply vec_get_ok with VC; [destruct Ho as (-> & _); done|].
      apply vent_wf; [done|lia]. }
  rewrite (bind_ok _ _ _ (ent MD k j) σ1).
  2:{ apply mat_get_cell. rewrite (only_mat_cell _ _ _ _ _ _ Ho) by done.
      apply cell_ent; [done..|lia|lia]. }
  destruct (mat_set_shape σ1 A n n i j
              (d_add acc (d_mul (d_mul (ent MB i k) (vent VC k)) (ent MD k j))))
    as (σ2 & Hset & Ho2 & Hv & Hother); [|lia..|].
  { eapply only_mat_shape; [done|]. done. }
  by exists σ2.
Qed.

Lemma lookup_map_seq {A} (f : nat → A) s n i :
  i < n → map f (seq s n) !! i = Some (f (s + i)).
Proof.
  intros Hi. change (map f (seq s n)) with (f <$> seq s n).
  by rewrite list_lookup_fmap, lookup_seq_lt.
Qed.



Lemma accum_ext (f g : nat → D) n :
  (∀ k, k < n → f k = g k) → accum f n = accum g n.
Proof.
  induction n as [|n IH]; intros Hfg; simpl; [done|].
  rewrite IH, Hfg; auto.
Qed.

End Products.

(** ** [mat_mult]: the claim about its shape check *)

Section MatMult.
Context {D : Type} `{Scalar D}.
Implicit Types (M : Matrix D) (σ : store D).

(** C3, as amended: for matrices a, b with a.ncols = b.nrows and, as the
    assertion also demands, a.nrows = b.ncols, and a destination prod shaped
    a.nrows x b.ncols that is neither a nor b, [mat_mult] passes its check
    and leaves in prod[i][j] the sum over k of a[i][k] * b[k][j], accumulated
    from zero in the order of k; prod keeps its shape and nothing but prod
    changes. *)
Theorem mat_mult_square_product σ prod m1 m2 P M1 M2 :
  mats σ !! prod = Some P → mats σ !! m1 = Some M1 → mats σ !! m2 = Some M2 →
  wf P → wf M1 → wf M2 →
  ncols M1 = nrows M2 → nrows M1 = ncols M2 →
  nrows P = nrows M1 → ncols P = ncols M2 →
  prod ≠ m1 → prod ≠ m2 →
  ∃ P',
    mat_mult prod m1 m2 σ = Ok tt (mkStore (<[prod := P']> (mats σ)) (vecs σ)) ∧
    wf P' ∧ nrows P' = nrows P ∧ ncols P' = ncols P ∧
    ∀ i j, i < nrows M1 → j < ncols M2 →
      mget P' i j =
      Some (accum (λ k, d_mul (ent M1 i k) (ent M2 k j)) (ncols M1)).
Proof.
  intros HP HM1 HM2 HwP Hw1 Hw2 Hin Hsq Hr Hc Hne1 Hne2.
  destruct (mat_mult_separate σ prod m1 m2 P M1 M2)
    as (σ' & Hrun & Ho & Hcells); try done.
  destruct (only_mat_shape _ _ _ prod _ _ Ho (shape_intro _ _ _ HP HwP))
    as (P' & HP' & HwP' & HrP' & HcP').
  exists P'. split; [|split; [done|split; [done|split; [done|]]]].
  - rewrite Hrun. f_equal. destruct Ho as (Hv & Hf & _).
    destruct σ' as [ms vs]; simpl in *. subst vs. f_equal.
    apply map_eq. intros p. destruct (decide (p = prod)) as [->|Hp].
    + by rewrite lookup_insert_eq.
    + rewrite lookup_insert_ne by done. by apply Hf.
  - intros i j Hi Hj. specialize (Hcells i j Hi Hj).
    unfold cell in Hcells. by rewrite HP' in Hcells.
Qed.

End MatMult.

(** C3 as stated fails twice over.  On a 1x2 by 2x3 product into a 1x3
    destination, shapes the claim admits, the assertion fails; and when the
    destination is the left operand itself, cell [0][0] ends as 8 where the
    sum over k of a[0][k] * b[k][0] is 9. *)
Lemma mat_mult_needs_square_and_separate :
  (∃ P M1 M2,
     mats Samples.rectangles !! 0 = Some P ∧
     mats Samples.rectangles !! 1 = Some M1 ∧
     mats Samples.rectangles !! 2 = Some M2 ∧
     wf P ∧ wf M1 ∧ wf M2 ∧
     ncols M1 = nrows M2 ∧ nrows P = nrows M1 ∧ ncols P = ncols M2 ∧
     mat_mult 0 1 2 Samples.rectangles = Fault AssertFail) ∧
  (∃ M1 M2,
     mats Samples.squares !! 1 = Some M1 ∧
     mats Samples.squares !! 2 = Some M2 ∧
     frac (accum (λ k, d_mul (ent M1 0 k) (ent M2 k 0)) (ncols M1)) = (9%Z, 1%positive) ∧
     match mat_mult 1 1 2 Samples.squares with
     | Ok _ σ' => frac <$> cell σ' 1 0 0
     | Fault _ => None
     end = Some (8%Z, 1%positive)).
Proof.
  split.
  - eexists _, _, _. do 3 (split; [reflexivity|]).
    do 3 (split; [split; [reflexivity|repeat constructor]|]).
    repeat (split; [reflexivity|]). vm_compute. reflexivity.
  - eexists _, _. do 2 (split; [reflexivity|]).
    split; vm_compute; reflexivity.
Qed.

Lemma mat_mult_square_product_witness :
  ∃ P',
    mat_mult 0 1 2 Samples.squares =
      Ok tt (mkStore (<[0 := P']> (mats Samples.squares)) (vecs Samples.squares)) ∧
    wf P' ∧ nrows P' = 2 ∧ ncols P' = 2 ∧
    ∀ i j, i < 2 → j < 2 →
      mget P' i j =
      Some (accum (λ k, d_mul (ent (matrix_of [[q 1; q 2]; [q 3; q 4]]) i k)
                              (ent (matrix_of [[q 1; q 2]; [q 4; q 5]]) k j)) 2).
Proof.
  apply (mat_mult_square_product Samples.squares 0 1 2
           (matrix_of [[q 0; q 0]; [q 0; q 0]])
           (matrix_of [[q 1; q 2]; [q 3; q 4]])
           (matrix_of [[q 1; q 2]; [q 4; q 5]]));
    try reflexivity; try (split; [reflexivity|repeat constructor]); lia.
Defined.

(** ** [mat_mult_diag] against the explicit triple product *)

Section DiagonalProduct.
Context {D : Type} `{Scalar D}.
Implicit Types (M : Matrix D) (σ : store D).

(** The three laws of arithmetic the comparison rests on. *)
Hypothesis add_0_l : ∀ x : D, d_add d_zero x = x.
Hypothesis add_0_r : ∀ x : D, d_add x d_zero = x.
Hypothesis mul_0_r : ∀ x : D, d_mul x d_zero = d_zero.

(** A sum with a single term that is not zero. *)
Lemma accum_single (f : nat → D) k x n :
  (∀ l, l < n → l ≠ k → f l = d_zero) → f k = x →
  (k < n → accum f n = x) ∧ (n ≤ k → accum f n = d_zero).
Proof.
  intros Hz Hk. induction n as [|n IH]; simpl.
  - split; [lia|done].
  - destruct IH as [IH1 IH2]; [intros; apply Hz; lia|]. split.
    + intros Hlt. destruct (decide (k = n)) as [->|Hne].
      * rewrite IH2 by lia. by rewrite add_0_l.
      * rewrite IH1 by lia. rewrite Hz by lia. apply add_0_r.
    + intros Hle. rewrite IH2 by lia. rewrite Hz by lia. apply add_0_r.
Qed.


End DiagonalProduct.



(** ** [mat_print] *)

Section Print.
Context {D : Type} `{Scalar D}.
Variable INFTY : D.
Implicit Types (M : Matrix D) (σ : store D).

Lemma mat_get_in_row σ m M i j r x :
  mats σ !! m = Some M → data M !! i = Some r → r !! j = Some x →
  mat_get m i j σ = Ok x σ.
Proof.
  intros HM Hr Hx. apply mat_get_cell. unfold cell, mget. by rewrite HM, Hr.
Qed.

Lemma concat_take_S {A} (l : list (list A)) i r :
  l !! i = Some r → concat (take (S i) l) = concat (take i l) ++ r.
Proof.
  intros Hr. rewrite (take_S_r _ _ _ Hr), concat_app. simpl.
  by rewrite app_nil_r.
Qed.

(** The first nest leaves the running minimum of all elements, taken row by
    row. *)
Lemma mat_print_scan σ m M :
  mats σ !! m = Some M → wf M →
  for_fold 0 (nrows M) INFTY (λ i min,
    for_fold 0 (ncols M) min (λ j min,
      x ← mat_get m i j;
      let val := d_fabs x in
      ret (if negb (d_eqb val d_zero) && d_ltb val min then val else min))) σ
  = Ok (fold_left min_step (concat (data M)) INFTY) σ.
Proof.
  intros HM Hwf.
  destruct (for_fold_inv
    (λ i min σ', σ' = σ ∧
       min = fold_left min_step (concat (take i (data M))) INFTY)
    (λ i min, for_fold 0 (ncols M) min (λ j min,
       x ← mat_get m i j;
       let val := d_fabs x in
       ret (if negb (d_eqb val d_zero) && d_ltb val min then val else min)))
    0 (nrows M) INFTY σ) as (mn & σ' & Hrun & -> & ->); [lia|done| |].
  - intros i min σ' Hi (-> & ->).
    destruct (data_lookup_wf M i Hwf) as (r & Hr & Hlen); [lia|].
    destruct (for_fold_inv
      (λ j min σ', σ' = σ ∧
         min = fold_left min_step (concat (take i (data M)) ++ take j r) INFTY)
      (λ j min,
         x ← mat_get m i j;
         let val := d_fabs x in
         ret (if negb (d_eqb val d_zero) && d_ltb val min then val else min))
      0 (ncols M) (fold_left min_step (concat (take i (data M))) INFTY) σ)
      as (mn & σ' & Hrun & -> & ->); [lia| | |].
    + split; [done|]. by rewrite take_0, app_nil_r.
    + intros j min σ' Hj (-> & ->).
      destruct (lookup_lt_is_Some_2 r j) as [x Hx]; [lia|].
      rewrite (bind_ok _ _ _ _ _ (mat_get_in_row _ _ _ _ _ _ _ HM Hr Hx)).
      eexists _, σ. split; [reflexivity|]. split; [done|].
      rewrite (take_S_r _ _ _ Hx), app_assoc.
      by rewrite (fold_left_app min_step (concat (take i (data M)) ++ take j r) [x]).
    + eexists _, σ. split; [exact Hrun|]. split; [done|].
      rewrite (concat_take_S _ _ _ Hr). by rewrite <- Hlen, firstn_all.
  - rewrite Hrun. destruct Hwf as [<- _]. by rewrite firstn_all.
Qed.

(** The second nest appends the rows in order, each number under the one
    conversion [c], and a newline after each row. *)
Lemma mat_print_dump σ m M c (F : list (item D)) :
  mats σ !! m = Some M → wf M →
  for_fold 0 (nrows M) F (λ i F,
    F ← for_fold 0 (ncols M) F (λ j F,
      x ← mat_get m i j;
      ret (F ++ [Num c x]));
    ret (F ++ [Newline])) σ
  = Ok (F ++ printed c M) σ.
Proof.
  intros HM Hwf.
  destruct (for_fold_inv
    (λ i F' σ', σ' = σ ∧
       F' = F ++ concat (map (λ r, map (Num c) r ++ [Newline]) (take i (data M))))
    (λ i F,
       F ← for_fold 0 (ncols M) F (λ j F,
         x ← mat_get m i j;
         ret (F ++ [Num c x]));
       ret (F ++ [Newline]))
    0 (nrows M) F σ) as (F' & σ' & Hrun & -> & ->); [lia| | |].
  - split; [done|]. by rewrite take_0, app_nil_r.
  - intros i F0 σ' Hi (-> & ->).
    destruct (data_lookup_wf M i Hwf) as (r & Hr & Hlen); [lia|].
    destruct (for_fold_inv
      (λ j F' σ', σ' = σ ∧
         F' = (F ++ concat (map (λ r, map (Num c) r ++ [Newline]) (take i (data M))))
              ++ map (Num c) (take j r))
      (λ j F, x ← mat_get m i j; ret (F ++ [Num c x]))
      0 (ncols M)
      (F ++ concat (map (λ r, map (Num c) r ++ [Newline]) (take i (data M)))) σ)
      as (F' & σ' & Hrun & -> & ->); [lia| | |].
    + split; [done|]. by rewrite take_0, app_nil_r.
    + intros j F0 σ' Hj (-> & ->).
      destruct (lookup_lt_is_Some_2 r j) as [x Hx]; [lia|].
      rewrite (bind_ok _ _ _ _ _ (mat_get_in_row _ _ _ _ _ _ _ HM Hr Hx)).
      eexists _, σ. split; [reflexivity|]. split; [done|].
      rewrite (take_S_r _ _ _ Hx), map_app. simpl. by rewrite app_assoc.
    + rewrite (bind_ok _ _ _ _ _ Hrun).
      eexists _, σ. split; [reflexivity|]. split; [done|].
      rewrite (take_S_r _ _ _ Hr), map_app, concat_app. simpl.
      rewrite <- Hlen, firstn_all, app_nil_r. by rewrite <- !app_assoc.
  - rewrite Hrun. destruct Hwf as [<- _]. by rewrite firstn_all.
Qed.

(** The whole routine: one conversion for the whole dump, decided by the
    running minimum. *)
Lemma mat_print_runs σ m M (F : list (item D)) :
  mats σ !! m = Some M → wf M →
  mat_print INFTY m F σ =
  Ok (F ++ printed (if d_ltb (fold_left min_step (concat (data M)) INFTY) d_milli
                    then Scientific else Fixed) M) σ.
Proof.
  intros HM Hwf. unfold mat_print.
  rewrite (bind_ok _ _ _ _ _ (load_mat_ok _ _ _ HM)).
  rewrite (bind_ok _ _ _ _ _ (mat_print_scan σ m M HM Hwf)).
  by apply mat_print_dump.
Qed.

End Print.

Section PrintOrder.
Context {D : Type} `{Scalar D}.
Variable INFTY : D.
Implicit Types (M : Matrix D) (σ : store D).

(** [<] on scalars is a strict total order, and [INFTY] is not below the
    threshold. *)
Hypothesis ltb_irrefl : ∀ x : D, d_ltb x x = false.
Hypothesis ltb_trans :
  ∀ x y z : D, d_ltb x y = true → d_ltb y z = true → d_ltb x z = true.
Hypothesis ltb_connex :
  ∀ x y : D, d_ltb x y = false → d_ltb y x = true ∨ x = y.
Hypothesis INFTY_large : d_ltb INFTY d_milli = false.

Lemma nonzero_abs_snoc (l : list D) x :
  nonzero_abs_of (l ++ [x]) =
  nonzero_abs_of l ++ (if d_eqb (d_fabs x) d_zero then [] else [d_fabs x]).
Proof.
  unfold nonzero_abs_of. rewrite map_app, list.filter_app. simpl.
  rewrite filter_cons.
  destruct (d_eqb (d_fabs x) d_zero) eqn:E.
  - by rewrite decide_False by congruence.
  - by rewrite decide_True.
Qed.

(** The running minimum is [INFTY] or one of the values, and none of the
    values is below it. *)
Lemma scan_min_bound (l : list D) :
  (fold_left min_step l INFTY = INFTY ∨ fold_left min_step l INFTY ∈ nonzero_abs_of l) ∧
  ∀ w, w ∈ nonzero_abs_of l → d_ltb w (fold_left min_step l INFTY) = false.
Proof.
  induction l as [|x l [IH1 IH2]] using rev_ind.
  - split; [by left|]. intros w Hw. by apply elem_of_nil in Hw.
  - rewrite fold_left_app, nonzero_abs_snoc. simpl. unfold min_step at 1 3 5.
    set (mn := fold_left min_step l INFTY) in *.
    destruct (d_eqb (d_fabs x) d_zero) eqn:Ez; simpl.
    { rewrite app_nil_r. by split. }
    destruct (d_ltb (d_fabs x) mn) eqn:Elt.
    + split.
      * right. apply elem_of_app. right. by apply list_elem_of_singleton.
      * intros w [Hw|Hw%list_elem_of_singleton]%elem_of_app.
        -- destruct (d_ltb w (d_fabs x)) eqn:Ew; [|done].
           rewrite <- (IH2 w Hw). symmetry. by eapply ltb_trans.
        -- subst w. apply ltb_irrefl.
    + split.
      * destruct IH1 as [IH1|IH1]; [by left|].
        right. apply elem_of_app. by left.
      * intros w [Hw|Hw%list_elem_of_singleton]%elem_of_app.
        -- by apply IH2.
        -- by subst w.
Qed.

(** C7: [mat_print] writes the whole matrix under one conversion.  When
    the smallest absolute value among the elements that are not zero is below
    1e-3, every number is written in scientific notation; when there is no
    such smallest value below 1e-3, every number is written in fixed-point
    notation.  The store is left as it was. *)
Theorem mat_print_one_conversion σ m M (F : list (item D)) :
  mats σ !! m = Some M → wf M →
  ∃ c, mat_print INFTY m F σ = Ok (F ++ printed c M) σ ∧
       ((∃ s, smallest s (nonzero_abs M) ∧ d_ltb s d_milli = true) →
        c = Scientific) ∧
       (¬ (∃ s, smallest s (nonzero_abs M) ∧ d_ltb s d_milli = true) →
        c = Fixed).
Proof.
  intros HM Hwf. eexists. split; [by apply mat_print_runs|].
  destruct (scan_min_bound (concat (data M))) as [Hin Hlow].
  change (nonzero_abs_of (concat (data M))) with (nonzero_abs M) in *.
  set (mn := fold_left min_step (concat (data M)) INFTY) in *.
  destruct (d_ltb mn d_milli) eqn:Emn; (split; [intros (s & [Hs Hmin] & Hlt)|intros Hno]);
    try done.
  - exfalso. apply Hno. exists mn. split; [|done]. split; [|done].
    destruct Hin as [Heq|Hin]; [|done]. rewrite Heq in Emn. congruence.
  - exfalso. destruct (ltb_connex _ _ (Hlow s Hs)) as [Hms|Heq].
    + rewrite (ltb_trans _ _ _ Hms Hlt) in Emn. done.
    + rewrite <- Heq in Emn. congruence.
Qed.

End PrintOrder.

(** The order of the rationals meets what [mat_print] needs. *)
Lemma Qc_ltb_lt (x y : Qc) : Qc_ltb x y = true ↔ (x < y)%Qc.
Proof.
  unfold Qc_ltb. rewrite Qclt_alt. destruct (x ?= y)%Qc; split; congruence.
Qed.

Lemma Qc_ltb_irrefl (x : Qc) : Qc_ltb x x = false.
Proof.
  destruct (Qc_ltb x x) eqn:E; [|done].
  apply Qc_ltb_lt in E. by apply Qclt_not_eq in E.
Qed.

Lemma Qc_ltb_trans (x y z : Qc) :
  Qc_ltb x y = true → Qc_ltb y z = true → Qc_ltb x z = true.
Proof. rewrite !Qc_ltb_lt. apply Qclt_trans. Qed.

Lemma Qc_ltb_connex (x y : Qc) :
  Qc_ltb x y = false → Qc_ltb y x = true ∨ x = y.
Proof.
  intros E. destruct (Qc_dec x y) as [[Hlt|Hgt]|Heq].
  - apply Qc_ltb_lt in Hlt. congruence.
  - left. by apply Qc_ltb_lt.
  - by right.
Qed.

Lemma mat_print_one_conversion_witness :
  ∃ c, mat_print Samples.big 0 [] Samples.printable
       = Ok ([] ++ printed c Samples.small_entries) Samples.printable ∧
       ((∃ s, smallest s (nonzero_abs Samples.small_entries) ∧
              d_ltb s d_milli = true) → c = Scientific) ∧
       (¬ (∃ s, smallest s (nonzero_abs Samples.small_entries) ∧
                d_ltb s d_milli = true) → c = Fixed).
Proof.
  apply (mat_print_one_conversion (H := Qc_scalar) Samples.big
           Qc_ltb_irrefl Qc_ltb_trans Qc_ltb_connex eq_refl
           Samples.printable 0 Samples.small_entries []);
    [reflexivity|split; [reflexivity|repeat constructor]].
Defined.

(** ** [mat_vec_mult] under its own assertion *)

(** C6 fails on the code: a 1x2 matrix with an operand and a destination of
    size 1 meets m.nrows = v.size = prod.size, the assertion passes, and the
    inner loop, which runs over the columns, reads v[1] past the end of v. *)
Theorem mat_vec_mult_reads_past_operand :
  ∃ M P V,
    mats Samples.short_operand !! 0 = Some M ∧
    vecs Samples.short_operand !! 0 = Some P ∧
    vecs Samples.short_operand !! 1 = Some V ∧
    wf M ∧ vwf P ∧ vwf V ∧
    nrows M = size V ∧ size V = size P ∧
    mat_vec_mult 0 0 1 Samples.short_operand = Fault OutOfBounds.
Proof.
  eexists _, _, _. do 3 (split; [reflexivity|]).
  split; [split; [reflexivity|repeat constructor]|].
  do 4 (split; [reflexivity|]). vm_compute. reflexivity.
Qed.

(** ** [mat_resize] when rows are added *)

(** C8 fails on the code: resizing a 1x1 matrix to 2x1 grows the row table
    by one slot that is never assigned, and the loop over the new rows hands
    that slot to [srealloc]. *)
Theorem mat_resize_reallocates_unassigned_row :
  ∃ M, mats Samples.single !! 0 = Some M ∧ wf M ∧
       nrows M = 1 ∧ ncols M = 1 ∧
       mat_resize Samples.junk Samples.never_null 0 2 1 Samples.single
       = Fault InvalidPointer.
Proof.
  eexists. split; [reflexivity|].
  split; [split; [reflexivity|repeat constructor]|].
  do 2 (split; [reflexivity|]). vm_compute. reflexivity.
Qed.

(** ** Flat buffers and the two transposes *)

Section Layout.
Context {D : Type} `{Scalar D}.
Implicit Types (M : Matrix D) (σ : store D).

Lemma lookup_concat_uniform {A} (rows : list (list A)) n i j :
  Forall (λ r, length r = n) rows → j < n →
  concat rows !! (i * n + j) =
  match rows !! i with Some r => r !! j | None => None end.
Proof.
  intros Hrows Hj. revert i. induction Hrows as [|r rows Hr _ IH]; intros i.
  - by rewrite !lookup_nil.
  - destruct i as [|i]; simpl.
    + apply lookup_app_l. lia.
    + rewrite lookup_app_r by lia.
      replace (n + i * n + j - length r) with (i * n + j) by lia. apply IH.
Qed.

Lemma length_concat_uniform {A} (rows : list (list A)) n :
  Forall (λ r, length r = n) rows → length (concat rows) = length rows * n.
Proof.
  induction 1 as [|r rows Hr _ IH]; simpl; [done|].
  rewrite length_app. lia.
Qed.

Lemma list_eq_grid {A} n (l1 l2 : list A) :
  length l1 = n * n → length l2 = n * n →
  (∀ i j, i < n → j < n → l1 !! (i * n + j) = l2 !! (i * n + j)) →
  l1 = l2.
Proof.
  intros H1 H2 Hgrid. apply list_eq_same_length with (n * n); [done..|].
  intros k x y Hk Hx Hy.
  assert (0 < n) as Hn by (destruct n; lia).
  assert (k = k `div` n * n + k `mod` n) as Hdiv.
  { rewrite Nat.mul_comm. apply Nat.div_mod_eq. }
  assert (k `div` n < n) as Hq.
  { apply Nat.Div0.div_lt_upper_bound. lia. }
  assert (k `mod` n < n) as Hr by (apply Nat.mod_upper_bound; lia).
  specialize (Hgrid _ _ Hq Hr). rewrite <- Hdiv in Hgrid. congruence.
Qed.

Lemma flat_lookup M i j :
  wf M → i < nrows M → j < ncols M →
  flat M !! (i * ncols M + j) = mget M i j.
Proof.
  intros [Hlen Hrows] Hi Hj. unfold flat, mget.
  by apply lookup_concat_uniform.
Qed.

Lemma flat_length M : wf M → length (flat M) = nrows M * ncols M.
Proof.
  intros [Hlen Hrows]. unfold flat.
  by rewrite (length_concat_uniform _ _ Hrows), Hlen.
Qed.

Lemma transposed_wf M : wf (transposed M).
Proof.
  split; simpl.
  - by rewrite length_map, length_seq.
  - apply Forall_forall. intros r (i & <- & _)%in_map_iff.
    by rewrite length_map, length_seq.
Qed.

Lemma transposed_mget M i j :
  i < nrows M → j < ncols M → mget (transposed M) j i = Some (ent M i j).
Proof.
  intros Hi Hj. unfold mget, transposed; simpl.
  rewrite lookup_map_seq by done. by rewrite lookup_map_seq.
Qed.

Lemma rowmajor_wf n (a : list D) : wf (rowmajor n a).
Proof.
  split; simpl.
  - by rewrite length_map, length_seq.
  - apply Forall_forall. intros r (i & <- & _)%in_map_iff.
    by rewrite length_map, length_seq.
Qed.

Lemma rowmajor_ent n (a : list D) i j :
  i < n → j < n → ent (rowmajor n a) i j = default d_zero (a !! (i * n + j)).
Proof.
  intros Hi Hj. unfold ent, mget, rowmajor; simpl.
  rewrite lookup_map_seq by done. by rewrite lookup_map_seq.
Qed.

(** Read column by column, a buffer holds at offset [j * n + i] the entry
    [i][j]. *)
Lemma colmajor_mget n (a : list D) i j :
  i < n → j < n →
  mget (colmajor n a) i j = Some (default d_zero (a !! (j * n + i))).
Proof.
  intros Hi Hj. unfold colmajor.
  rewrite (transposed_mget (rowmajor n a) j i) by done.
  by rewrite rowmajor_ent.
Qed.

(** The row-major buffer of the transpose is the column-major image. *)
Lemma colmajor_flat_transposed M n :
  wf M → nrows M = n → ncols M = n → colmajor n (flat (transposed M)) = M.
Proof.
  intros Hwf Hr Hc. apply matrix_ext; [apply transposed_wf|done|simpl; lia..|].
  simpl. intros i j Hi Hj. rewrite colmajor_mget by done.
  pose proof (flat_lookup (transposed M) j i (transposed_wf M)) as Hf.
  simpl in Hf. rewrite Hr, Hc in Hf. rewrite Hf by lia.
  rewrite transposed_mget by lia. simpl. symmetry. apply ent_wf; [done|lia..].
Qed.

End Layout.

(** ** [mat_invert] *)

Section Invert.
Context {D : Type} `{Scalar D}.
Variable uninit : nat → D.
Variable dgetrf : nat → nat → list D → nat → list D * list Z * Z.
Variable dgetri : nat → list D → nat → list Z → nat → list D * Z.
Implicit Types (M : Matrix D) (σ : store D).

(** The backend works in place: the buffer it hands back is the one it was
    given, overwritten. *)
Hypothesis dgetrf_in_place :
  ∀ m n a lda, length (dgetrf m n a lda).1.1 = length a.
Hypothesis dgetri_in_place :
  ∀ n a lda ipiv lwork, length (dgetri n a lda ipiv lwork).1 = length a.

(** The copy loop fills [tmp] with the rows of the transpose, whatever
    [tmp] held before, and leaves the store alone. *)
Lemma mat_invert_copy_in σ src S n (tmp0 : list D) :
  mats σ !! src = Some S → wf S → nrows S = n → ncols S = n →
  length tmp0 = n * n →
  for_fold 0 n tmp0 (λ i tmp,
    for_fold 0 n tmp (λ j tmp,
      x ← mat_get src j i;
      arr_set tmp (i * n + j) x)) σ
  = Ok (flat (transposed S)) σ.
Proof.
  intros HS Hwf Hr Hc Hlen0.
  destruct (for_fold_inv
    (λ i tmp σ', σ' = σ ∧ length tmp = n * n ∧
       ∀ i' j', i' < i → j' < n → tmp !! (i' * n + j') = Some (ent S j' i'))
    (λ i tmp, for_fold 0 n tmp (λ j tmp,
       x ← mat_get src j i; arr_set tmp (i * n + j) x))
    0 n tmp0 σ) as (tmp & σ' & Hrun & -> & Hlen & Hcells); [lia| | |].
  - split; [done|]. split; [done|]. intros; lia.
  - intros i tmp σ' Hi (-> & Hlen & Hdone).
    destruct (for_fold_inv
      (λ j tmp σ', σ' = σ ∧ length tmp = n * n ∧
         (∀ i' j', i' < i → j' < n → tmp !! (i' * n + j') = Some (ent S j' i')) ∧
         ∀ j', j' < j → tmp !! (i * n + j') = Some (ent S j' i))
      (λ j tmp, x ← mat_get src j i; arr_set tmp (i * n + j) x)
      0 n tmp σ) as (tmp1 & σ' & Hrun & -> & Hlen1 & Hd1 & Hd2); [lia| | |].
    + split; [done|]. split; [done|]. split; [done|]. intros; lia.
    + intros j tmp1 σ' Hj (-> & Hlen1 & Hd1 & Hd2).
      rewrite (bind_ok _ _ _ (ent S j i) σ).
      2:{ apply mat_get_cell. apply cell_ent; [done..|lia|lia]. }
      unfold arr_set. rewrite decide_True by nia.
      eexists _, σ. split; [reflexivity|]. split; [done|].
      split; [by rewrite length_insert|]. split.
      * intros i' j' Hi' Hj'. rewrite list_lookup_insert_ne by nia. by apply Hd1.
      * intros j' Hj'. destruct (decide (j' = j)) as [->|Hne].
        -- apply list_lookup_insert_eq. nia.
        -- rewrite list_lookup_insert_ne by lia. apply Hd2. lia.
    + exists tmp1, σ. split; [done|]. split; [done|]. split; [done|].
      intros i' j' Hi' Hj'. destruct (decide (i' = i)) as [->|Hne].
      * by apply Hd2.
      * apply Hd1; lia.
  - rewrite Hrun. f_equal. apply (list_eq_grid n); [done| |].
    + rewrite flat_length by apply transposed_wf. simpl. by rewrite Hr, Hc.
    + intros i j Hi Hj. rewrite Hcells by done.
      pose proof (flat_lookup (transposed S) i j (transposed_wf S)) as Hf.
      simpl in Hf. rewrite Hr, Hc in Hf. rewrite Hf by done.
      symmetry. apply transposed_mget; lia.
Qed.

(** The copy loop back writes into [dest] the column-major reading of the
    buffer, and touches nothing else. *)
Lemma mat_invert_copy_out σ dest Dm n (inv : list D) :
  mats σ !! dest = Some Dm → wf Dm → nrows Dm = n → ncols Dm = n →
  length inv = n * n →
  for_ 0 n (λ i,
    for_ 0 n (λ j,
      x ← arr_get inv (j * n + i);
      mat_set dest i j x)) σ
  = Ok tt (mkStore (<[dest := colmajor n inv]> (mats σ)) (vecs σ)).
Proof.
  intros HD Hwf Hr Hc Hlen.
  assert (shape σ dest n n) as Hsh by (by exists Dm).
  destruct (for_inv
    (λ i σ', only_mat dest σ σ' ∧
       ∀ i' j', i' < i → j' < n →
         cell σ' dest i' j' = Some (default d_zero (inv !! (j' * n + i'))))
    (λ i, for_ 0 n (λ j, x ← arr_get inv (j * n + i); mat_set dest i j x))
    0 n σ) as (σ' & Hrun & Ho & Hcells); [lia| | |].
  - split; [apply only_mat_refl|]. intros; lia.
  - intros i σa Hi (Hoa & Ha).
    destruct (for_inv
      (λ j σ', only_mat dest σ σ' ∧
         (∀ i' j', i' < i → j' < n →
            cell σ' dest i' j' = Some (default d_zero (inv !! (j' * n + i')))) ∧
         ∀ j', j' < j →
            cell σ' dest i j' = Some (default d_zero (inv !! (j' * n + i))))
      (λ j, x ← arr_get inv (j * n + i); mat_set dest i j x)
      0 n σa) as (σb & Hrunb & Hob & Hb1 & Hb2); [lia| | |].
    + split; [done|]. split; [done|]. intros; lia.
    + intros j σc Hj (Hoc & Hc1 & Hc2).
      destruct (lookup_lt_is_Some_2 inv (j * n + i)) as [x Hx]; [nia|].
      unfold arr_get at 1. rewrite Hx.
      rewrite (bind_ok _ _ _ x σc) by done.
      destruct (mat_set_shape σc dest n n i j x)
        as (σd & Hset & Hod & Hnew & Hother); [|lia..|].
      { by eapply only_mat_shape. }
      exists σd. split; [done|]. split; [by eapply only_mat_trans|]. split.
      * intros i' j' Hi' Hj'. rewrite Hother by lia. by apply Hc1.
      * intros j' Hj'. destruct (decide (j' = j)) as [->|Hne].
        -- by rewrite Hnew, Hx.
        -- rewrite Hother by lia. apply Hc2. lia.
    + exists σb. split; [done|]. split; [done|].
      intros i' j' Hi' Hj'. destruct (decide (i' = i)) as [->|Hne].
      * by apply Hb2.
      * apply Hb1; lia.
  - rewrite Hrun. f_equal.
    destruct (only_mat_shape _ _ _ _ _ _ Ho Hsh) as (R & HR & HwR & HrR & HcR).
    destruct Ho as (Hv & Hf & _).
    assert (R = colmajor n inv) as ->.
    { apply matrix_ext; [done|apply transposed_wf|simpl; lia..|].
      intros i j Hi Hj. rewrite colmajor_mget by lia.
      specialize (Hcells i j). unfold cell in Hcells. rewrite HR in Hcells.
      apply Hcells; lia. }
    destruct σ' as [ms vs]; simpl in *. subst vs. f_equal.
    apply map_eq. intros p. destruct (decide (p = dest)) as [->|Hp].
    + by rewrite lookup_insert_eq.
    + rewrite lookup_insert_ne by done. by apply Hf.
Qed.

(** The code refines the specification's wording: it returns what
    [invert_spec] returns and, on success, overwrites [dest] with the matrix
    [invert_spec] yields; on failure the store is the one it started from. *)
Lemma mat_invert_runs σ dest src S Dm n :
  mats σ !! src = Some S → mats σ !! dest = Some Dm →
  wf S → wf Dm →
  nrows S = n → ncols S = n → nrows Dm = n → ncols Dm = n →
  mat_invert uninit dgetrf dgetri dest src σ =
  Ok (invert_spec dgetrf dgetri S).1
     (match (invert_spec dgetrf dgetri S).2 with
      | Some R => mkStore (<[dest := R]> (mats σ)) (vecs σ)
      | None => σ
      end).
Proof.
  intros HS HD HwS HwD HrS HcS HrD HcD. unfold mat_invert, invert_spec.
  rewrite (bind_ok _ _ _ _ _ (load_mat_ok _ _ _ HS)). cbv beta zeta.
  rewrite (bind_ok _ _ _ _ _ (load_mat_ok _ _ _ HD)).
  rewrite !bool_decide_eq_true_2 by congruence. simpl assert.
  rewrite (bind_ok _ _ _ tt σ) by done.
  rewrite HrS.
  rewrite (bind_ok _ _ _ _ _ (mat_invert_copy_in σ src S n _ HS HwS HrS HcS
             ltac:(by rewrite length_map, length_seq))).
  pose proof (dgetrf_in_place n n (flat (transposed S)) n) as Hlen1.
  destruct (dgetrf n n (flat (transposed S)) n) as [[lu ipiv] info1].
  simpl in Hlen1.
  case_bool_decide; [done|].
  pose proof (dgetri_in_place n lu n ipiv n) as Hlen2.
  destruct (dgetri n lu n ipiv n) as [inv info2]. simpl in Hlen2.
  case_bool_decide; [done|]. simpl.
  assert (length inv = n * n) as Hlen.
  { rewrite Hlen2, Hlen1, flat_length by apply transposed_wf. simpl. lia. }
  by rewrite (bind_ok _ _ _ _ _ (mat_invert_copy_out σ dest Dm n inv HD HwD HrD HcD Hlen)).
Qed.

(** C1: for a square source of order n and a backend that works in place,
    [mat_invert] does what the specification words: the buffer handed to the
    backend is the row-major buffer of the transpose of src, which read
    column by column is src itself; the call returns what [invert_spec]
    returns and leaves the store [invert_spec] describes; and when both
    backend calls report zero, dest is overwritten with the transpose of the
    row-major reading of the backend's buffer, so that dest[i][j] is the
    entry at offset j * n + i, the column-major entry (i, j) of the inverse
    the backend computed. *)
Theorem mat_invert_transposes_in_and_out σ dest src S Dm n :
  mats σ !! src = Some S → mats σ !! dest = Some Dm →
  wf S → wf Dm →
  nrows S = n → ncols S = n → nrows Dm = n → ncols Dm = n →
  (∀ i j, i < n → j < n →
     flat (transposed S) !! (j * n + i) = Some (ent S i j) ∧
     mget S i j = Some (ent S i j)) ∧
  colmajor n (flat (transposed S)) = S ∧
  mat_invert uninit dgetrf dgetri dest src σ =
    Ok (invert_spec dgetrf dgetri S).1
       (match (invert_spec dgetrf dgetri S).2 with
        | Some R => mkStore (<[dest := R]> (mats σ)) (vecs σ)
        | None => σ
        end) ∧
  ∀ lu ipiv inv,
    dgetrf n n (flat (transposed S)) n = (lu, ipiv, 0%Z) →
    dgetri n lu n ipiv n = (inv, 0%Z) →
    mat_invert uninit dgetrf dgetri dest src σ =
      Ok 0%Z (mkStore (<[dest := transposed (rowmajor n inv)]> (mats σ)) (vecs σ)) ∧
    ∀ i j, i < n → j < n →
      ∃ x, inv !! (j * n + i) = Some x ∧
           mget (transposed (rowmajor n inv)) i j = Some x.
Proof.
  intros HS HD HwS HwD HrS HcS HrD HcD.
  pose proof (mat_invert_runs σ dest src S Dm n HS HD HwS HwD HrS HcS HrD HcD)
    as Hrun.
  split; [|split; [by apply colmajor_flat_transposed|split; [done|]]].
  { intros i j Hi Hj. split; [|apply ent_wf; [done|lia..]].
    pose proof (flat_lookup (transposed S) j i (transposed_wf S)) as Hf.
    simpl in Hf. rewrite HrS, HcS in Hf. rewrite Hf by lia.
    apply transposed_mget; lia. }
  intros lu ipiv inv E1 E2. rewrite Hrun. unfold invert_spec.
  rewrite HrS, E1. simpl. rewrite E2. simpl. split; [done|].
  intros i j Hi Hj.
  pose proof (dgetrf_in_place n n (flat (transposed S)) n) as Hl1.
  pose proof (dgetri_in_place n lu n ipiv n) as Hl2.
  rewrite E1 in Hl1. rewrite E2 in Hl2. simpl in Hl1, Hl2.
  rewrite flat_length in Hl1 by apply transposed_wf. simpl in Hl1.
  destruct (lookup_lt_is_Some_2 inv (j * n + i)) as [x Hx]; [nia|].
  exists x. split; [done|].
  change (transposed (rowmajor n inv)) with (colmajor n inv).
  rewrite colmajor_mget by done. by rewrite Hx.
Qed.

(** C2: [mat_invert] returns 0 or 1, and it returns non-zero exactly when
    the factorization reports a non-zero status or the inversion from the
    factors does; so it returns success whenever both report zero.  Whether a
    singular matrix fails is therefore what the backend reports on it, and
    nothing in [mat_invert] looks at the matrix otherwise. *)
Theorem mat_invert_fails_iff_backend_reports σ dest src S Dm n :
  mats σ !! src = Some S → mats σ !! dest = Some Dm →
  wf S → wf Dm →
  nrows S = n → ncols S = n → nrows Dm = n → ncols Dm = n →
  ∃ ret σ',
    mat_invert uninit dgetrf dgetri dest src σ = Ok ret σ' ∧
    (ret = 0%Z ∨ ret = 1%Z) ∧
    (ret ≠ 0%Z ↔
       (dgetrf n n (flat (transposed S)) n).2 ≠ 0%Z ∨
       (dgetri n (dgetrf n n (flat (transposed S)) n).1.1 n
                 (dgetrf n n (flat (transposed S)) n).1.2 n).2 ≠ 0%Z) ∧
    ((dgetrf n n (flat (transposed S)) n).2 = 0%Z →
     (dgetri n (dgetrf n n (flat (transposed S)) n).1.1 n
               (dgetrf n n (flat (transposed S)) n).1.2 n).2 = 0%Z →
     ret = 0%Z).
Proof.
  intros HS HD HwS HwD HrS HcS HrD HcD.
  eexists _, _. split; [by eapply mat_invert_runs|].
  unfold invert_spec. rewrite HrS.
  destruct (dgetrf n n (flat (transposed S)) n) as [[lu ipiv] info1]. simpl.
  case_bool_decide as E1; simpl.
  { split; [by right|]. split; [split; [by left|done]|]. done. }
  subst info1.
  destruct (dgetri n lu n ipiv n) as [inv info2] eqn:Eri. simpl.
  case_bool_decide as E2; simpl.
  { split; [by right|]. split; [split; [by right|done]|]. done. }
  subst info2.
  split; [by left|]. split; [split; [done|intros [?|?]; done]|]. done.
Qed.

(** C9: when [mat_invert] returns failure, the store, and with it dest,
    is exactly what it was before the call; only a call that returns success
    has written to dest, and then to nothing else. *)
Theorem mat_invert_failure_writes_nothing σ dest src S Dm n :
  mats σ !! src = Some S → mats σ !! dest = Some Dm →
  wf S → wf Dm →
  nrows S = n → ncols S = n → nrows Dm = n → ncols Dm = n →
  ∃ ret σ',
    mat_invert uninit dgetrf dgetri dest src σ = Ok ret σ' ∧
    (ret ≠ 0%Z → σ' = σ) ∧
    (ret = 0%Z → vecs σ' = vecs σ ∧ ∀ p, p ≠ dest → mats σ' !! p = mats σ !! p).
Proof.
  intros HS HD HwS HwD HrS HcS HrD HcD.
  eexists _, _. split; [by eapply mat_invert_runs|].
  unfold invert_spec.
  destruct (dgetrf (nrows S) (nrows S) (flat (transposed S)) (nrows S))
    as [[lu ipiv] info1].
  case_bool_decide; simpl; [by split|].
  destruct (dgetri (nrows S) lu (nrows S) ipiv (nrows S)) as [inv info2].
  case_bool_decide; simpl; [by split|].
  split; [done|]. intros _. split; [done|].
  intros p Hp. by rewrite lookup_insert_ne.
Qed.

(** C10, as amended: when dest is an object other than src, the source
    matrix is, after [mat_invert] has returned success or failure, exactly
    what it was before the call. *)
Theorem mat_invert_keeps_separate_source σ dest src S Dm n :
  mats σ !! src = Some S → mats σ !! dest = Some Dm →
  wf S → wf Dm →
  nrows S = n → ncols S = n → nrows Dm = n → ncols Dm = n →
  dest ≠ src →
  ∃ ret σ',
    mat_invert uninit dgetrf dgetri dest src σ = Ok ret σ' ∧
    mats σ' !! src = Some S.
Proof.
  intros HS HD HwS HwD HrS HcS HrD HcD Hne.
  eexists _, _. split; [by eapply mat_invert_runs|].
  destruct (invert_spec dgetrf dgetri S).2; simpl; [|done].
  by rewrite lookup_insert_ne.
Qed.

End Invert.

(** ** The statements on inversion, run on the reference backend *)

Lemma reference_dgetrf_in_place m n a lda :
  length (Reference.dgetrf m n a lda).1.1 = length a.
Proof.
  unfold Reference.dgetrf. destruct (negb (m =? n)); [done|].
  destruct (lda <? Nat.max 1 m); [done|].
  destruct (fold_left _ _ _) as [[g ipiv] info]. simpl.
  unfold Reference.to_buffer. by rewrite length_map, length_seq.
Qed.

Lemma reference_dgetri_in_place n a lda ipiv lwork :
  length (Reference.dgetri n a lda ipiv lwork).1 = length a.
Proof.
  unfold Reference.dgetri. destruct (lda <? Nat.max 1 n); [done|].
  destruct (Reference.first_zero_pivot _ _); [done|]. simpl.
  unfold Reference.to_buffer. by rewrite length_map, length_seq.
Qed.

(** The zero matrix has no inverse. *)
Lemma zeros_singular : singular 2 InversionSamples.zeros.
Proof.
  intros [X HX]. destruct (HX 0 0) as [H1 _]; [lia..|].
  cbn [accum d_mul d_add d_zero d_one Qc_scalar] in H1.
  change (ent InversionSamples.zeros 0 0) with 0%Qc in H1.
  change (ent InversionSamples.zeros 1 0) with 0%Qc in H1.
  rewrite !Qcmult_0_r, !Qcplus_0_l in H1. done.
Qed.

(** On the zero matrix the reference backend reports a zero pivot. *)
Lemma reference_contract_at_zeros :
  backend_inverts Reference.dgetrf Reference.dgetri 2
    (flat (transposed InversionSamples.zeros)).
Proof. intros lu ipiv inv E. vm_compute in E. discriminate E. Qed.

Lemma mat_invert_transposes_in_and_out_witness :
  (∀ i j, i < 2 → j < 2 →
     flat (transposed InversionSamples.regular) !! (j * 2 + i)
       = Some (ent InversionSamples.regular i j) ∧
     mget InversionSamples.regular i j = Some (ent InversionSamples.regular i j)) ∧
  colmajor 2 (flat (transposed InversionSamples.regular)) = InversionSamples.regular ∧
  mat_invert Samples.junk Reference.dgetrf Reference.dgetri 0 1 InversionSamples.heap =
    Ok (invert_spec Reference.dgetrf Reference.dgetri InversionSamples.regular).1
       (match (invert_spec Reference.dgetrf Reference.dgetri InversionSamples.regular).2 with
        | Some R => mkStore (<[0 := R]> (mats InversionSamples.heap))
                            (vecs InversionSamples.heap)
        | None => InversionSamples.heap
        end) ∧
  ∀ lu ipiv inv,
    Reference.dgetrf 2 2 (flat (transposed InversionSamples.regular)) 2
      = (lu, ipiv, 0%Z) →
    Reference.dgetri 2 lu 2 ipiv 2 = (inv, 0%Z) →
    mat_invert Samples.junk Reference.dgetrf Reference.dgetri 0 1 InversionSamples.heap =
      Ok 0%Z (mkStore (<[0 := transposed (rowmajor 2 inv)]> (mats InversionSamples.heap))
                      (vecs InversionSamples.heap)) ∧
    ∀ i j, i < 2 → j < 2 →
      ∃ x, inv !! (j * 2 + i) = Some x ∧
           mget (transposed (rowmajor 2 inv)) i j = Some x.
Proof.
  apply (mat_invert_transposes_in_and_out (H := Qc_scalar) Samples.junk
           Reference.dgetrf Reference.dgetri
           reference_dgetrf_in_place reference_dgetri_in_place
           InversionSamples.heap 0 1 InversionSamples.regular InversionSamples.blank 2);
    try reflexivity; split; try reflexivity; repeat constructor.
Defined.

Lemma mat_invert_fails_iff_backend_reports_witness :
  (Reference.dgetrf 2 2 (flat (transposed InversionSamples.zeros)) 2).2 = 1%Z ∧
  ∃ σ', mat_invert Samples.junk Reference.dgetrf Reference.dgetri 0 2
          InversionSamples.heap = Ok 1%Z σ'.
Proof.
  split; [reflexivity|].
  destruct (mat_invert_fails_iff_backend_reports (H := Qc_scalar) Samples.junk
              Reference.dgetrf Reference.dgetri
              reference_dgetrf_in_place reference_dgetri_in_place
              InversionSamples.heap 0 2 InversionSamples.zeros InversionSamples.blank 2)
    as (ret & σ' & Hrun & [Hret|Hret] & Hiff & _);
    try reflexivity; try (split; [reflexivity|repeat constructor]).
  - exfalso. apply (proj2 Hiff); [|exact Hret].
    left. intros E. vm_compute in E. discriminate E.
  - exists σ'. by rewrite <- Hret.
Defined.

(** The matrix with rows 1 2 3, 4 5 6 and 7 8 9 has no inverse: whatever X
    is, the first row of S X minus twice the second plus the third is zero,
    and that of the identity is not. *)
Lemma ramp_singular : singular 3 RoundingSamples.exact.
Proof.
  assert (∀ a b c : Qc, a = 1%Qc → b = 0%Qc → c = 0%Qc →
            (a - (1 + 1) * b + c = 0)%Qc → False) as Hcomb.
  { intros a b c -> -> -> Heq.
    apply (f_equal (λ x : Qc, Qnum x)) in Heq. vm_compute in Heq. discriminate. }
  intros [X HX].
  destruct (HX 0 0) as [_ H0]; [lia..|].
  destruct (HX 1 0) as [_ H1]; [lia..|].
  destruct (HX 2 0) as [_ H2]; [lia..|].
  rewrite decide_True in H0 by done.
  rewrite decide_False in H1 by done. rewrite decide_False in H2 by done.
  set (x0 := ent X 0 0) in *. set (x1 := ent X 1 0) in *.
  set (x2 := ent X 2 0) in *.
  assert (∀ i k, i < 3 → k < 3 →
            ent RoundingSamples.exact i k
            = RoundingSamples.count (H := Qc_scalar) (3 * i + k + 1)) as Hent.
  { intros [|[|[|i]]] [|[|[|k]]] Hi Hk; try lia; reflexivity. }
  cbn [accum] in H0, H1, H2.
  rewrite !Hent in H0, H1, H2 by lia.
  cbv [RoundingSamples.count Nat.iter nat_rect Nat.mul Nat.add] in H0, H1, H2.
  cbn [d_add d_mul d_zero d_one Qc_scalar] in H0, H1, H2.
  apply (Hcomb _ _ _ H0 H1 H2). ring.
Qed.

(** C2 as stated fails for a backend that rounds.  The matrix above is
    singular, and in binary64 its entries are exact; the factorization meets
    the pivots 7, 0.857... and 2^-53, none of them zero, so both calls report
    status zero and [mat_invert] returns success.  What it has written to dest
    has entries of magnitude 2^52 and more. *)
Lemma mat_invert_accepts_rounded_singular :
  singular 3 RoundingSamples.exact ∧
  map (map frac) (data RoundingSamples.exact) =
    [[(1%Z, 1%positive); (2%Z, 1%positive); (3%Z, 1%positive)];
     [(4%Z, 1%positive); (5%Z, 1%positive); (6%Z, 1%positive)];
     [(7%Z, 1%positive); (8%Z, 1%positive); (9%Z, 1%positive)]] ∧
  data RoundingSamples.rounded = RoundingSamples.entries ∧
  mats RoundingSamples.heap !! 1 = Some RoundingSamples.rounded ∧
  (Binary64.dgetrf 3 3 (flat (transposed (H := Binary64.scalar)
                                  RoundingSamples.rounded)) 3).1.1 =
    RoundingSamples.factors ∧
  match mat_invert RoundingSamples.unwritten
          Binary64.dgetrf Binary64.dgetri 0 1 RoundingSamples.heap with
  | Ok ret σ' => Some (ret, data <$> mats σ' !! 0)
  | Fault _ => None
  end = Some (0%Z, Some RoundingSamples.written).
Proof.
  split; [exact ramp_singular|].
  split; [vm_compute; reflexivity|].
  split; [vm_compute; reflexivity|].
  split; [reflexivity|].
  split; vm_compute; reflexivity.
Qed.

Lemma mat_invert_failure_writes_nothing_witness :
  ∃ ret σ',
    mat_invert Samples.junk Reference.dgetrf Reference.dgetri 0 2
      InversionSamples.heap = Ok ret σ' ∧
    (ret ≠ 0%Z → σ' = InversionSamples.heap) ∧
    (ret = 0%Z → vecs σ' = vecs InversionSamples.heap ∧
                 ∀ p, p ≠ 0 → mats σ' !! p = mats InversionSamples.heap !! p).
Proof.
  apply (mat_invert_failure_writes_nothing (H := Qc_scalar) Samples.junk
           Reference.dgetrf Reference.dgetri
           reference_dgetrf_in_place reference_dgetri_in_place
           InversionSamples.heap 0 2 InversionSamples.zeros InversionSamples.blank 2);
    try reflexivity; split; try reflexivity; repeat constructor.
Defined.

Lemma mat_invert_keeps_separate_source_witness :
  ∃ ret σ',
    mat_invert Samples.junk Reference.dgetrf Reference.dgetri 0 1
      InversionSamples.heap = Ok ret σ' ∧
    mats σ' !! 1 = Some InversionSamples.regular.
Proof.
  apply (mat_invert_keeps_separate_source (H := Qc_scalar) Samples.junk
           Reference.dgetrf Reference.dgetri
           reference_dgetrf_in_place reference_dgetri_in_place
           InversionSamples.heap 0 1 InversionSamples.regular InversionSamples.blank 2);
    try reflexivity; try (split; [reflexivity|repeat constructor]); lia.
Defined.

(** C10 as stated fails when dest is src itself: inverting matrix 1 of the
    sample heap into itself succeeds, and the source [[4, 7], [2, 6]] has
    become [[3/5, -7/10], [-1/5, 2/5]]. *)
Lemma mat_invert_overwrites_aliased_source :
  ∃ S, mats InversionSamples.heap !! 1 = Some S ∧ wf S ∧
       nrows S = 2 ∧ ncols S = 2 ∧
       map (map frac) (data S) =
         [[(4%Z, 1%positive); (7%Z, 1%positive)];
          [(2%Z, 1%positive); (6%Z, 1%positive)]] ∧
       match mat_invert Samples.junk Reference.dgetrf Reference.dgetri 1 1
               InversionSamples.heap with
       | Ok ret σ' => Some (ret, map (map frac) <$> (data <$> mats σ' !! 1))
       | Fault _ => None
       end =
       Some (0%Z, Some [[(3%Z, 5%positive); ((-7)%Z, 10%positive)];
                        [((-1)%Z, 5%positive); (2%Z, 5%positive)]]).
Proof.
  eexists. split; [reflexivity|].
  split; [split; [reflexivity|repeat constructor]|].
  do 3 (split; [reflexivity|]). vm_compute. reflexivity.
Qed.

(** ** [mat_resize] when no wild pointer is met *)

Section Resize.
Context {D : Type} `{Scalar D}.
Variable uninit : nat → D.
Variable uninit_is_null : nat → bool.
Implicit Types (M : Matrix D) (σ : store D).

Lemma srealloc_table_length (tbl : list (rowptr D)) n :
  length (srealloc_table uninit_is_null tbl n) = n.
Proof.
  unfold srealloc_table.
  rewrite length_app, length_take, length_map, length_seq. lia.
Qed.

Lemma srealloc_table_old (rows : list (list D)) n i r :
  i < n → rows !! i = Some r →
  srealloc_table uninit_is_null (RowBuf <$> rows) n !! i = Some (RowBuf r).
Proof.
  intros Hi Hr. unfold srealloc_table.
  rewrite lookup_app_l.
  2:{ rewrite length_take, length_fmap. apply lookup_lt_Some in Hr. lia. }
  rewrite lookup_take_lt by done. by rewrite list_lookup_fmap, Hr.
Qed.

Lemma srealloc_table_new (rows : list (list D)) n i :
  i < n → rows !! i = None → uninit_is_null i = true →
  srealloc_table uninit_is_null (RowBuf <$> rows) n !! i = Some NullPtr.
Proof.
  intros Hi Hr Hnull. apply lookup_ge_None in Hr. unfold srealloc_table.
  rewrite lookup_app_r by (rewrite length_take, length_fmap; lia).
  rewrite length_take, !length_fmap.
  rewrite lookup_map_seq by lia.
  replace (length rows + (i - n `min` length rows)) with i by lia.
  by rewrite Hnull.
Qed.

(** Shrinking, widening, narrowing, and growing over slots that happen to
    hold NULL: the matrix takes the new shape, rows are cut or extended in
    place, and nothing else in the store changes. *)
Lemma mat_resize_without_wild_pointer σ m M nr' nc' :
  mats σ !! m = Some M → wf M →
  (∀ k, nrows M ≤ k < nr' → uninit_is_null k = true) →
  mat_resize uninit uninit_is_null m nr' nc' σ =
  Ok tt (mkStore
           (<[m := mkMatrix (map (resized_row uninit M nc') (seq 0 nr')) nr' nc']>
              (mats σ))
           (vecs σ)).
Proof.
  intros HM [Hlen Hrows] Hnull. unfold mat_resize.
  rewrite (bind_ok _ _ _ _ _ (load_mat_ok _ _ _ HM)).
  assert (for_ nr' (nrows M) (λ i, _ ← arr_get (data M) i; ret tt) σ = Ok tt σ)
    as Hfree.
  { destruct (decide (nr' ≤ nrows M)) as [Hle|Hgt].
    - destruct (for_inv (λ _ σ', σ' = σ)
        (λ i, _ ← arr_get (data M) i; ret tt) nr' (nrows M) σ Hle eq_refl)
        as (σ' & Hrun & ->); [|done].
      intros i σ' Hi ->. exists σ. split; [|done].
      destruct (lookup_lt_is_Some_2 (data M) i) as [r Hr]; [lia|].
      unfold arr_get. by rewrite Hr.
    - unfold for_. apply for_fold_empty. lia. }
  rewrite (bind_ok _ _ _ _ _ Hfree).
  set (tbl0 := srealloc_table uninit_is_null (RowBuf <$> data M) nr').
  destruct (for_fold_inv
    (λ i tbl σ', σ' = σ ∧
       tbl = (RowBuf <$> map (resized_row uninit M nc') (seq 0 i)) ++ drop i tbl0)
    (λ i tbl, p ← arr_get tbl i; r ← srealloc uninit p nc';
              arr_set tbl i (RowBuf r))
    0 nr' tbl0 σ) as (tbl & σ' & Hrun & -> & ->); [lia|done| |].
  - intros i tbl σ' Hi (-> & ->).
    set (done_ := RowBuf <$> map (resized_row uninit M nc') (seq 0 i)).
    assert (length done_ = i) as Hdone.
    { unfold done_. by rewrite length_fmap, length_map, length_seq. }
    assert (∃ p, tbl0 !! i = Some p ∧
                 srealloc uninit p nc' σ = Ok (resized_row uninit M nc' i) σ)
      as (p & Hp & Hre).
    { unfold resized_row. destruct (data M !! i) as [r|] eqn:Hr.
      - exists (RowBuf r). split; [|done]. apply srealloc_table_old; [lia|done].
      - exists NullPtr. split; [|done]. apply srealloc_table_new; [lia|done|].
        apply Hnull. apply lookup_ge_None in Hr. lia. }
    assert (drop i tbl0 = p :: drop (S i) tbl0) as Hdrop.
    { by apply drop_S. }
    assert ((done_ ++ drop i tbl0) !! i = Some p) as Hlk.
    { rewrite lookup_app_r by lia. by rewrite Hdone, Nat.sub_diag, Hdrop. }
    assert (∀ x, <[i := x]> (done_ ++ drop i tbl0) = done_ ++ x :: drop (S i) tbl0)
      as Hins.
    { intros x. rewrite <- Hdone at 1. rewrite insert_app_r_alt by lia.
      by rewrite Hdone, Nat.sub_diag, Hdrop. }
    unfold arr_get at 1. rewrite Hlk.
    rewrite (bind_ok _ _ _ p σ) by done.
    rewrite (bind_ok _ _ _ _ _ Hre).
    unfold arr_set. rewrite decide_True by (by eapply lookup_lt_Some).
    eexists _, σ. split; [reflexivity|]. split; [done|].
    rewrite Hins, seq_S, map_app, fmap_app. simpl. by rewrite <- app_assoc.
  - rewrite (bind_ok _ _ _ _ _ Hrun).
    rewrite drop_ge, app_nil_r by (unfold tbl0; rewrite srealloc_table_length; lia).
    unfold live_rows.
    rewrite (mapM_Some_2 _ _ (map (resized_row uninit M nc') (seq 0 nr'))).
    + reflexivity.
    + apply Forall2_fmap_l. by apply Forall_Forall2_diag, Forall_true.
Qed.

Lemma resized_row_length M nc' i : length (resized_row uninit M nc' i) = nc'.
Proof.
  unfold resized_row. destruct (data M !! i) as [r|].
  - rewrite length_app, length_take, length_map, length_seq. lia.
  - by rewrite length_map, length_seq.
Qed.

(** The resized matrix is well formed and agrees with the old one on every
    cell that lies within both shapes. *)
Lemma resized_keeps_prefix M nr' nc' :
  wf M →
  wf (mkMatrix (map (resized_row uninit M nc') (seq 0 nr')) nr' nc') ∧
  ∀ i j, i < nrows M → i < nr' → j < ncols M → j < nc' →
    mget (mkMatrix (map (resized_row uninit M nc') (seq 0 nr')) nr' nc') i j
    = mget M i j.
Proof.
  intros Hwf. split.
  - split; simpl.
    + by rewrite length_map, length_seq.
    + apply Forall_forall. intros r (i & <- & _)%in_map_iff.
      apply resized_row_length.
  - intros i j Hi Hi' Hj Hj'. unfold mget; simpl.
    rewrite lookup_map_seq by done. simpl.
    destruct (data_lookup_wf M i Hwf Hi) as (r & Hr & Hlen).
    unfold resized_row. rewrite Hr.
    rewrite lookup_app_l by (rewrite length_take; lia).
    by apply lookup_take_lt.
Qed.

End Resize.

(** ** [mat_vec_mult] when the operand is long enough *)

Section VectorProduct.
Context {D : Type} `{Scalar D}.
Implicit Types (M : Matrix D) (σ : store D) (V : Vector D).

Lemma vec_get_in_bounds σ v V i :
  vecs σ !! v = Some V → i < length (vec_data V) →
  ∃ x, vec_get v i σ = Ok x σ.
Proof.
  intros HV Hi. destruct (lookup_lt_is_Some_2 (vec_data V) i Hi) as [x Hx].
  exists x. by eapply vec_get_ok.
Qed.

Lemma vec_set_in_bounds σ v V i x :
  vecs σ !! v = Some V → i < length (vec_data V) →
  vec_set v i x σ =
  Ok tt (mkStore (mats σ)
           (<[v := mkVector (<[i := x]> (vec_data V)) (size V)]> (vecs σ))).
Proof.
  intros HV Hi. unfold vec_set.
  rewrite (bind_ok _ _ _ _ _ (load_vec_ok _ _ _ HV)).
  by rewrite decide_True.
Qed.

(** What [mat_vec_mult] needs beyond its assertion is that the operand has
    an element for every column: then every access is in bounds, whether or
    not the destination is the operand, and no matrix changes. *)
Lemma mat_vec_mult_within_bounds σ prod m v M V P :
  mats σ !! m = Some M → vecs σ !! v = Some V → vecs σ !! prod = Some P →
  wf M → vwf V → vwf P →
  nrows M = size V → size V = size P →
  ncols M ≤ size V →
  ∃ σ', mat_vec_mult prod m v σ = Ok tt σ' ∧ mats σ' = mats σ.
Proof.
  intros HM HV HP HwM HwV HwP Hrv Hvp Hcols. unfold mat_vec_mult.
  rewrite (bind_ok _ _ _ _ _ (load_mat_ok _ _ _ HM)).
  rewrite (bind_ok _ _ _ _ _ (load_vec_ok _ _ _ HV)).
  rewrite (bind_ok _ _ _ _ _ (load_vec_ok _ _ _ HP)).
  rewrite !bool_decide_eq_true_2 by done. simpl.
  rewrite (bind_ok _ _ _ tt σ) by done.
  unfold vwf in HwV, HwP.
  assert (∀ σ1 i x,
    (mats σ1 = mats σ ∧
     (∃ V1, vecs σ1 !! v = Some V1 ∧ length (vec_data V1) = size V) ∧
     (∃ P1, vecs σ1 !! prod = Some P1 ∧ length (vec_data P1) = size P)) →
    i < size P →
    ∃ σ2, vec_set prod i x σ1 = Ok tt σ2 ∧
      mats σ2 = mats σ ∧
      (∃ V1, vecs σ2 !! v = Some V1 ∧ length (vec_data V1) = size V) ∧
      (∃ P1, vecs σ2 !! prod = Some P1 ∧ length (vec_data P1) = size P)) as Hset.
  { intros σ1 i x (Hm & (V1 & HV1 & HlV) & (P1 & HP1 & HlP)) Hi.
    eexists. split; [apply (vec_set_in_bounds _ _ P1); [done|lia]|]. simpl.
    split; [done|]. split.
    - destruct (decide (v = prod)) as [->|Hne].
      + eexists. rewrite lookup_insert_eq. split; [done|]. simpl.
        rewrite length_insert. lia.
      + exists V1. by rewrite lookup_insert_ne.
    - eexists. rewrite lookup_insert_eq. split; [done|]. simpl.
      by rewrite length_insert. }
  destruct (for_inv
    (λ _ σ1, mats σ1 = mats σ ∧
       (∃ V1, vecs σ1 !! v = Some V1 ∧ length (vec_data V1) = size V) ∧
       (∃ P1, vecs σ1 !! prod = Some P1 ∧ length (vec_data P1) = size P))
    (λ i, vec_set prod i d_zero;;
          for_ 0 (ncols M) (λ j,
            acc ← vec_get prod i; x ← mat_get m i j; y ← vec_get v j;
            vec_set prod i (d_add acc (d_mul x y))))
    0 (nrows M) σ) as (σ' & Hrun & Hm & _); [lia| | |].
  - split; [done|]. split; [by exists V|by exists P].
  - intros i σ1 Hi Hinv.
    destruct (Hset σ1 i d_zero Hinv) as (σ2 & Hz & Hinv2); [lia|].
    rewrite (bind_ok _ _ _ _ _ Hz).
    apply (for_inv
      (λ _ σ1, mats σ1 = mats σ ∧
         (∃ V1, vecs σ1 !! v = Some V1 ∧ length (vec_data V1) = size V) ∧
         (∃ P1, vecs σ1 !! prod = Some P1 ∧ length (vec_data P1) = size P)));
      [lia|done|].
    intros j σ3 Hj Hinv3.
    pose proof Hinv3 as (Hm3 & (V3 & HV3 & HlV3) & (P3 & HP3 & HlP3)).
    destruct (vec_get_in_bounds σ3 prod P3 i HP3) as [acc Hacc]; [lia|].
    rewrite (bind_ok _ _ _ _ _ Hacc).
    rewrite (bind_ok _ _ _ (ent M i j) σ3).
    2:{ apply mat_get_cell. apply cell_ent; [by rewrite Hm3|done|lia..]. }
    destruct (vec_get_in_bounds σ3 v V3 j HV3) as [y Hy]; [lia|].
    rewrite (bind_ok _ _ _ _ _ Hy).
    apply Hset; [done|lia].
  - by exists σ'.
Qed.

End VectorProduct.

(** On the regular sample the reference backend reports success and leaves
    an inverse, as its contract asks. *)
Lemma reference_contract_at_regular :
  backend_inverts Reference.dgetrf Reference.dgetri 2
    (flat (transposed InversionSamples.regular)).
Proof.
  intros lu ipiv inv E1 E2.
  assert (Reference.dgetrf 2 2 (flat (transposed InversionSamples.regular)) 2
          = (lu, ipiv, 0%Z) →
          Reference.dgetri 2 lu 2 ipiv 2 = (inv, 0%Z) →
          inv = (Reference.dgetri 2
                   (Reference.dgetrf 2 2 (flat (transposed InversionSamples.regular)) 2).1.1
                   2
                   (Reference.dgetrf 2 2 (flat (transposed InversionSamples.regular)) 2).1.2
                   2).1) as Hinv.
  { intros H1 H2. rewrite H1. simpl. by rewrite H2. }
  rewrite (Hinv E1 E2). clear.
  intros i j Hi Hj.
  destruct i as [|[|i]]; [| |lia]; (destruct j as [|[|j]]; [| |lia]);
    split; apply Qc_is_canon; vm_compute; reflexivity.
Qed.

(** ** Loops that assign every cell once *)

Section Pointwise.
Context {D : Type} `{Scalar D}.
Implicit Types (M : Matrix D) (σ : store D).

Lemma tabulated_wf nr nc (g : nat → nat → D) : wf (tabulated nr nc g).
Proof.
  split; simpl.
  - by rewrite length_map, length_seq.
  - apply Forall_forall. intros r (i & <- & _)%in_map_iff.
    by rewrite length_map, length_seq.
Qed.

Lemma tabulated_mget nr nc (g : nat → nat → D) i j :
  i < nr → j < nc → mget (tabulated nr nc g) i j = Some (g i j).
Proof.
  intros Hi Hj. unfold mget, tabulated; simpl.
  rewrite lookup_map_seq by done. by rewrite lookup_map_seq.
Qed.

(** A well-formed matrix is the table of its own entries. *)
Lemma tabulated_ent M : wf M → tabulated (nrows M) (ncols M) (ent M) = M.
Proof.
  intros Hwf. apply matrix_ext; [apply tabulated_wf|done..|].
  simpl. intros i j Hi Hj. rewrite tabulated_mget by done.
  symmetry. by apply ent_wf.
Qed.

Lemma tabulated_ext nr nc (g g' : nat → nat → D) :
  (∀ i j, i < nr → j < nc → g i j = g' i j) →
  tabulated nr nc g = tabulated nr nc g'.
Proof.
  intros Hg. apply matrix_ext; [apply tabulated_wf..|done|done|].
  simpl. intros i j Hi Hj. rewrite !tabulated_mget by done. by rewrite Hg.
Qed.

(** A store that differs from [σ] in the cells of one matrix only, and whose
    cells there are known, is known. *)
Lemma only_mat_store σ σ' A nr nc (g : nat → nat → D) :
  only_mat A σ σ' → shape σ A nr nc →
  (∀ i j, i < nr → j < nc → cell σ' A i j = Some (g i j)) →
  σ' = mkStore (<[A := tabulated nr nc g]> (mats σ)) (vecs σ).
Proof.
  intros Ho Hsh Hcells.
  destruct (only_mat_shape _ _ _ _ _ _ Ho Hsh) as (R & HR & HwR & HrR & HcR).
  destruct Ho as (Hv & Hf & _).
  assert (R = tabulated nr nc g) as ->.
  { apply matrix_ext; [done|apply tabulated_wf|done..|].
    intros i j Hi Hj. rewrite tabulated_mget by lia.
    specialize (Hcells i j). unfold cell in Hcells. rewrite HR in Hcells.
    apply Hcells; lia. }
  destruct σ' as [ms vs]; simpl in *. subst vs. f_equal.
  apply map_eq. intros p. destruct (decide (p = A)) as [->|Hp].
  - by rewrite lookup_insert_eq.
  - rewrite lookup_insert_ne by done. by apply Hf.
Qed.

(** The nest [for i, for j: step i j] in which each step assigns cell
    [i][j] of [A], and may read that cell as it was before the nest began. *)
Lemma pointwise_nest (step : nat → nat → prog D unit) (g : nat → nat → D)
    σ A nr nc :
  shape σ A nr nc →
  (∀ σ1 i j,
     only_mat A σ σ1 → i < nr → j < nc →
     cell σ1 A i j = cell σ A i j →
     ∃ σ2, step i j σ1 = Ok tt σ2 ∧ only_mat A σ1 σ2 ∧
           cell σ2 A i j = Some (g i j) ∧
           ∀ i' j', i' ≠ i ∨ j' ≠ j → cell σ2 A i' j' = cell σ1 A i' j') →
  for_ 0 nr (λ i, for_ 0 nc (step i)) σ
  = Ok tt (mkStore (<[A := tabulated nr nc g]> (mats σ)) (vecs σ)).
Proof.
  intros Hsh Hstep.
  destruct (for_inv (λ i σ1, only_mat A σ σ1 ∧
      (∀ i' j, i' < i → j < nc → cell σ1 A i' j = Some (g i' j)) ∧
      ∀ i' j, i ≤ i' → cell σ1 A i' j = cell σ A i' j)
    (λ i, for_ 0 nc (step i)) 0 nr σ) as (σ' & Hrun & Ho & Hdone & _);
    [lia| | |].
  - split; [apply only_mat_refl|]. split; [intros; lia|done].
  - intros i σa Hi (Hoa & Ha1 & Ha2).
    destruct (for_inv (λ j σ1, only_mat A σ σ1 ∧
        (∀ i' j', i' < i → j' < nc → cell σ1 A i' j' = Some (g i' j')) ∧
        (∀ j', j' < j → cell σ1 A i j' = Some (g i j')) ∧
        ∀ i' j', i < i' ∨ (i' = i ∧ j ≤ j') → cell σ1 A i' j' = cell σ A i' j')
      (step i) 0 nc σa) as (σb & Hrunb & Hob & Hb1 & Hb2 & Hb3); [lia| | |].
    + split; [done|]. split; [done|]. split; [intros; lia|].
      intros i' j' Hl. apply Ha2. lia.
    + intros j σc Hj (Hoc & Hc1 & Hc2 & Hc3).
      destruct (Hstep σc i j Hoc) as (σd & Hs & Hod & Hnew & Hother);
        [lia..|apply Hc3; lia|].
      exists σd. split; [done|]. split; [by eapply only_mat_trans|].
      split; [|split].
      * intros i' j' Hi' Hj'. rewrite Hother by lia. by apply Hc1.
      * intros j' Hj'. destruct (decide (j' = j)) as [->|Hne]; [done|].
        rewrite Hother by lia. apply Hc2. lia.
      * intros i' j' Hlater. rewrite Hother by lia. apply Hc3. lia.
    + exists σb. split; [done|]. split; [done|]. split.
      * intros i' j Hi' Hj. destruct (decide (i' = i)) as [->|Hne].
        -- by apply Hb2.
        -- apply Hb1; lia.
      * intros i' j Hi'. apply Hb3. lia.
  - rewrite Hrun. f_equal. by eapply only_mat_store.
Qed.

End Pointwise.

(** ** Element-wise routines *)

Section Elementwise.
Context {D : Type} `{Scalar D}.
Implicit Types (M : Matrix D) (σ : store D).

(** Reading an operand inside such a nest: whether or not the operand is
    the matrix being assigned, the cell read is the one from before. *)
Lemma read_operand σ σ1 A p MP i j :
  only_mat A σ σ1 → cell σ1 A i j = cell σ A i j →
  mats σ !! p = Some MP → wf MP → i < nrows MP → j < ncols MP →
  mat_get p i j σ1 = Ok (ent MP i j) σ1.
Proof.
  intros Ho Hsame HP Hwf Hi Hj. apply mat_get_cell.
  destruct (decide (p = A)) as [->|Hne].
  - rewrite Hsame. by apply cell_ent.
  - rewrite (only_mat_cell _ _ _ _ _ _ Ho) by done. by apply cell_ent.
Qed.

Lemma write_cell σ σ1 A nr nc i j v :
  only_mat A σ σ1 → shape σ A nr nc → i < nr → j < nc →
  ∃ σ2, mat_set A i j v σ1 = Ok tt σ2 ∧ only_mat A σ1 σ2 ∧
        cell σ2 A i j = Some v ∧
        ∀ i' j', i' ≠ i ∨ j' ≠ j → cell σ2 A i' j' = cell σ1 A i' j'.
Proof.
  intros Ho Hsh Hi Hj. apply (mat_set_shape σ1 A nr nc); [|done..].
  by eapply only_mat_shape.
Qed.

(** What [mat_set_all] and [mat_set_identity] leave. *)
Lemma mat_set_all_cells σ m M v :
  mats σ !! m = Some M → wf M →
  mat_set_all m v σ =
  Ok tt (mkStore (<[m := tabulated (nrows M) (ncols M) (λ _ _, v)]> (mats σ))
                 (vecs σ)).
Proof.
  intros HM Hwf.
  unfold mat_set_all. rewrite (bind_ok _ _ _ _ _ (load_mat_ok _ _ _ HM)).
  apply pointwise_nest; [by apply shape_intro|].
  intros σ1 i j Ho Hi Hj _. eapply write_cell; eauto. by apply shape_intro.
Qed.

Lemma mat_set_identity_cells σ m M :
  mats σ !! m = Some M → wf M →
  mat_set_identity m σ =
  Ok tt (mkStore
           (<[m := tabulated (nrows M) (ncols M)
                     (λ i j, if decide (i = j) then d_one else d_zero)]> (mats σ))
           (vecs σ)).
Proof.
  intros HM Hwf.
  unfold mat_set_identity. rewrite (bind_ok _ _ _ _ _ (load_mat_ok _ _ _ HM)).
  apply (pointwise_nest _ (λ i j, if decide (i = j) then d_one else d_zero));
    [by apply shape_intro|].
  intros σ1 i j Ho Hi Hj _. eapply write_cell; eauto. by apply shape_intro.
Qed.

(** X1: [mat_set_all] leaves a matrix of the same shape in which every
    cell holds the value, and changes nothing else; a matrix without rows or
    without columns is left as it is. *)
Theorem mat_set_all_fills σ m M v :
  mats σ !! m = Some M → wf M →
  mat_set_all m v σ =
    Ok tt (mkStore (<[m := tabulated (nrows M) (ncols M) (λ _ _, v)]> (mats σ))
                   (vecs σ)) ∧
  (∀ i j, i < nrows M → j < ncols M →
     mget (tabulated (nrows M) (ncols M) (λ _ _, v)) i j = Some v) ∧
  (nrows M = 0 ∨ ncols M = 0 →
     tabulated (nrows M) (ncols M) (λ _ _, v) = M).
Proof.
  intros HM Hwf. split; [|split].
  - by apply mat_set_all_cells.
  - intros i j Hi Hj. by apply tabulated_mget.
  - intros Hempty. apply matrix_ext; [apply tabulated_wf|done..|].
    simpl. intros i j Hi Hj. lia.
Qed.

(** X2: [mat_set_identity] works on any shape: cell [i][j] becomes 1 when
    i = j and 0 otherwise, also to the right of or below the square part. *)
Theorem mat_set_identity_any_shape σ m M :
  mats σ !! m = Some M → wf M →
  mat_set_identity m σ =
    Ok tt (mkStore
             (<[m := tabulated (nrows M) (ncols M)
                       (λ i j, if decide (i = j) then d_one else d_zero)]> (mats σ))
             (vecs σ)) ∧
  ∀ i j, i < nrows M → j < ncols M →
    mget (tabulated (nrows M) (ncols M)
            (λ i j, if decide (i = j) then d_one else d_zero)) i j
    = Some (if decide (i = j) then d_one else d_zero).
Proof.
  intros HM Hwf. split.
  - by apply mat_set_identity_cells.
  - intros i j Hi Hj. by apply tabulated_mget.
Qed.

(** What [mat_copy] leaves when the shapes agree, separate objects or not. *)
Lemma mat_copy_same_shape σ dest src MD MS :
  mats σ !! dest = Some MD → mats σ !! src = Some MS →
  wf MD → wf MS → nrows MD = nrows MS → ncols MD = ncols MS →
  mat_copy dest src σ = Ok tt (mkStore (<[dest := MS]> (mats σ)) (vecs σ)).
Proof.
  intros HD HS HwD HwS Hr Hc. unfold mat_copy.
  rewrite (bind_ok _ _ _ _ _ (load_mat_ok _ _ _ HD)).
  rewrite (bind_ok _ _ _ _ _ (load_mat_ok _ _ _ HS)).
  rewrite !bool_decide_eq_true_2 by done. simpl.
  rewrite (bind_ok _ _ _ tt σ) by done.
  replace (<[dest := MS]> (mats σ))
    with (<[dest := tabulated (nrows MD) (ncols MD) (ent MS)]> (mats σ))
    by (by rewrite Hr, Hc, tabulated_ent).
  apply pointwise_nest; [by apply shape_intro|].
  intros σ1 i j Ho Hi Hj Hsame.
  rewrite (bind_ok _ _ _ _ _
             (read_operand σ σ1 dest src MS i j Ho Hsame HS HwS
                ltac:(lia) ltac:(lia))).
  eapply write_cell; eauto. by apply shape_intro.
Qed.

(** X3: [mat_copy] either fails its assertion, when the two shapes differ,
    or leaves in dest a matrix equal to src and changes nothing else; copying
    a matrix onto itself leaves the store as it was. *)
Theorem mat_copy_all_or_nothing σ dest src MD MS :
  mats σ !! dest = Some MD → mats σ !! src = Some MS →
  wf MD → wf MS →
  mat_copy dest src σ =
    (if decide (nrows MD = nrows MS ∧ ncols MD = ncols MS)
     then Ok tt (mkStore (<[dest := MS]> (mats σ)) (vecs σ))
     else Fault AssertFail) ∧
  (dest = src → mat_copy dest src σ = Ok tt σ).
Proof.
  intros HD HS HwD HwS. split.
  - case_decide as Hshape.
    + destruct Hshape. by apply (mat_copy_same_shape σ dest src MD MS).
    + unfold mat_copy.
      rewrite (bind_ok _ _ _ _ _ (load_mat_ok _ _ _ HD)).
      rewrite (bind_ok _ _ _ _ _ (load_mat_ok _ _ _ HS)).
      destruct (bool_decide (nrows MD = nrows MS)) eqn:E1;
        destruct (bool_decide (ncols MD = ncols MS)) eqn:E2; try done.
      apply bool_decide_eq_true_1 in E1, E2. by destruct Hshape.
  - intros ->. assert (MD = MS) as -> by congruence.
    rewrite (mat_copy_same_shape σ src src MS MS) by done.
    f_equal. destruct σ as [ms vs]; simpl in *. f_equal. by apply insert_id.
Qed.

(** What [mat_scale] leaves. *)
Lemma mat_scale_cells σ m M f :
  mats σ !! m = Some M → wf M →
  mat_scale m f σ =
  Ok tt (mkStore
           (<[m := tabulated (nrows M) (ncols M) (λ i j, d_mul (ent M i j) f)]>
              (mats σ))
           (vecs σ)).
Proof.
  intros HM Hwf. unfold mat_scale.
  rewrite (bind_ok _ _ _ _ _ (load_mat_ok _ _ _ HM)).
  apply (pointwise_nest _ (λ i j, d_mul (ent M i j) f)); [by apply shape_intro|].
  intros σ1 i j Ho Hi Hj Hsame.
  rewrite (bind_ok _ _ _ _ _
             (read_operand σ σ1 m m M i j Ho Hsame HM Hwf Hi Hj)).
  eapply write_cell; eauto. by apply shape_intro.
Qed.

(** What [mat_plus_eq] leaves when the shapes agree, the addend being
    another matrix or the same one. *)
Lemma mat_plus_eq_cells σ thism addm T A :
  mats σ !! thism = Some T → mats σ !! addm = Some A →
  wf T → wf A → nrows T = nrows A → ncols T = ncols A →
  mat_plus_eq thism addm σ =
  Ok tt (mkStore
           (<[thism := tabulated (nrows T) (ncols T)
                         (λ i j, d_add (ent T i j) (ent A i j))]> (mats σ))
           (vecs σ)).
Proof.
  intros HT HA HwT HwA Hr Hc. unfold mat_plus_eq.
  rewrite (bind_ok _ _ _ _ _ (load_mat_ok _ _ _ HT)).
  rewrite (bind_ok _ _ _ _ _ (load_mat_ok _ _ _ HA)).
  rewrite !bool_decide_eq_true_2 by done. simpl.
  rewrite (bind_ok _ _ _ tt σ) by done.
  apply (pointwise_nest _ (λ i j, d_add (ent T i j) (ent A i j)));
    [by apply shape_intro|].
  intros σ1 i j Ho Hi Hj Hsame.
  rewrite (bind_ok _ _ _ _ _
             (read_operand σ σ1 thism thism T i j Ho Hsame HT HwT Hi Hj)).
  rewrite (bind_ok _ _ _ _ _
             (read_operand σ σ1 thism addm A i j Ho Hsame HA HwA
                ltac:(lia) ltac:(lia))).
  eapply write_cell; eauto. by apply shape_intro.
Qed.

(** What [mat_linear_comb] leaves when the shapes agree, whichever of the
    three pointers coincide. *)
Lemma mat_linear_comb_cells σ dest src1 c1 src2 c2 MD M1 M2 :
  mats σ !! dest = Some MD →
  mats σ !! src1 = Some M1 → mats σ !! src2 = Some M2 →
  wf MD → wf M1 → wf M2 →
  nrows MD = nrows M1 → ncols MD = ncols M1 →
  nrows MD = nrows M2 → ncols MD = ncols M2 →
  mat_linear_comb dest src1 c1 src2 c2 σ =
  Ok tt (mkStore
           (<[dest := tabulated (nrows MD) (ncols MD)
                        (λ i j, d_add (d_mul c1 (ent M1 i j))
                                      (d_mul c2 (ent M2 i j)))]> (mats σ))
           (vecs σ)).
Proof.
  intros HD H1 H2 HwD Hw1 Hw2 Hr1 Hc1 Hr2 Hc2.
  unfold mat_linear_comb.
  rewrite (bind_ok _ _ _ _ _ (load_mat_ok _ _ _ HD)).
  rewrite (bind_ok _ _ _ _ _ (load_mat_ok _ _ _ H1)).
  rewrite (bind_ok _ _ _ _ _ (load_mat_ok _ _ _ H2)).
  rewrite !bool_decide_eq_true_2 by done. simpl.
  rewrite (bind_ok _ _ _ tt σ) by done.
  apply (pointwise_nest _
           (λ i j, d_add (d_mul c1 (ent M1 i j)) (d_mul c2 (ent M2 i j))));
    [by apply shape_intro|].
  intros σ1 i j Ho Hi Hj Hsame.
  rewrite (bind_ok _ _ _ _ _
             (read_operand σ σ1 dest src1 M1 i j Ho Hsame H1 Hw1
                ltac:(lia) ltac:(lia))).
  rewrite (bind_ok _ _ _ _ _
             (read_operand σ σ1 dest src2 M2 i j Ho Hsame H2 Hw2
                ltac:(lia) ltac:(lia))).
  eapply write_cell; eauto. by apply shape_intro.
Qed.

(** X4: [mat_linear_comb] may be given a destination that is one of its
    sources, or both: each cell is read before it is written, so dest[i][j]
    ends as coef1 * src1[i][j] + coef2 * src2[i][j] of the values the sources
    had before the call, and nothing but dest changes. *)
Theorem mat_linear_comb_allows_aliasing σ dest src1 c1 src2 c2 MD M1 M2 :
  mats σ !! dest = Some MD →
  mats σ !! src1 = Some M1 → mats σ !! src2 = Some M2 →
  wf MD → wf M1 → wf M2 →
  nrows MD = nrows M1 → ncols MD = ncols M1 →
  nrows MD = nrows M2 → ncols MD = ncols M2 →
  mat_linear_comb dest src1 c1 src2 c2 σ =
    Ok tt (mkStore
             (<[dest := tabulated (nrows MD) (ncols MD)
                          (λ i j, d_add (d_mul c1 (ent M1 i j))
                                        (d_mul c2 (ent M2 i j)))]> (mats σ))
             (vecs σ)) ∧
  ∀ i j, i < nrows MD → j < ncols MD →
    mget (tabulated (nrows MD) (ncols MD)
            (λ i j, d_add (d_mul c1 (ent M1 i j)) (d_mul c2 (ent M2 i j)))) i j
    = Some (d_add (d_mul c1 (ent M1 i j)) (d_mul c2 (ent M2 i j))).
Proof.
  intros HD H1 H2 HwD Hw1 Hw2 Hr1 Hc1 Hr2 Hc2. split.
  - by apply (mat_linear_comb_cells σ dest src1 c1 src2 c2 MD M1 M2).
  - intros i j Hi Hj. exact (tabulated_mget _ _ _ i j Hi Hj).
Qed.

End Elementwise.

Section Subtracting.
Context {D : Type} `{Scalar D} `{Subtraction D}.
Implicit Types (M : Matrix D) (σ : store D).

(** What [mat_minus_eq] leaves when the shapes agree. *)
Lemma mat_minus_eq_cells σ thism subm T S :
  mats σ !! thism = Some T → mats σ !! subm = Some S →
  wf T → wf S → nrows T = nrows S → ncols T = ncols S →
  mat_minus_eq thism subm σ =
  Ok tt (mkStore
           (<[thism := tabulated (nrows T) (ncols T)
                         (λ i j, d_sub (ent T i j) (ent S i j))]> (mats σ))
           (vecs σ)).
Proof.
  intros HT HS HwT HwS Hr Hc. unfold mat_minus_eq.
  rewrite (bind_ok _ _ _ _ _ (load_mat_ok _ _ _ HT)).
  rewrite (bind_ok _ _ _ _ _ (load_mat_ok _ _ _ HS)).
  rewrite !bool_decide_eq_true_2 by done. simpl.
  rewrite (bind_ok _ _ _ tt σ) by done.
  apply (pointwise_nest _ (λ i j, d_sub (ent T i j) (ent S i j)));
    [by apply shape_intro|].
  intros σ1 i j Ho Hi Hj Hsame.
  rewrite (bind_ok _ _ _ _ _
             (read_operand σ σ1 thism thism T i j Ho Hsame HT HwT Hi Hj)).
  rewrite (bind_ok _ _ _ _ _
             (read_operand σ σ1 thism subm S i j Ho Hsame HS HwS
                ltac:(lia) ltac:(lia))).
  eapply write_cell; eauto. by apply shape_intro.
Qed.

End Subtracting.

(** ** How the element-wise routines compose *)

Section Composing.
Context {D : Type} `{Scalar D}.
Implicit Types (M : Matrix D) (σ : store D).

Lemma store_insert_id σ m M :
  mats σ !! m = Some M → mkStore (<[m := M]> (mats σ)) (vecs σ) = σ.
Proof. intros HM. destruct σ as [ms vs]; simpl in *. f_equal. by apply insert_id. Qed.

Lemma mat_zero_cells σ m M :
  mats σ !! m = Some M → wf M →
  mat_zero m σ =
  Ok tt (mkStore (<[m := tabulated (nrows M) (ncols M) (λ _ _, d_zero)]> (mats σ))
                 (vecs σ)).
Proof. intros HM Hwf. by apply (mat_set_all_cells σ m M d_zero). Qed.

(** X6: scaling by one leaves the store as it was, where x * 1 = x; scaling
    by zero leaves what [mat_zero] leaves, where x * 0 = 0. *)
Theorem mat_scale_by_one_and_zero σ m M :
  mats σ !! m = Some M → wf M →
  ((∀ x : D, d_mul x d_one = x) → mat_scale m d_one σ = Ok tt σ) ∧
  ((∀ x : D, d_mul x d_zero = d_zero) → mat_scale m d_zero σ = mat_zero m σ).
Proof.
  intros HM Hwf. split; intros Hlaw.
  - rewrite (mat_scale_cells σ m M d_one HM Hwf). f_equal.
    assert (tabulated (nrows M) (ncols M) (λ i j, d_mul (ent M i j) d_one) = M)
      as ->.
    { transitivity (tabulated (nrows M) (ncols M) (ent M));
        [|by apply tabulated_ent].
      apply tabulated_ext. intros i j _ _. apply Hlaw. }
    by apply store_insert_id.
  - rewrite (mat_scale_cells σ m M d_zero HM Hwf), (mat_zero_cells σ m M HM Hwf).
    do 3 f_equal. apply tabulated_ext. intros i j _ _. apply Hlaw.
Qed.

(** X7: [mat_linear_comb] with both coefficients one and its first source
    as destination does what [mat_plus_eq] does, where 1 * x = x. *)
Theorem mat_linear_comb_as_plus_eq σ thism addm T A :
  (∀ x : D, d_mul d_one x = x) →
  mats σ !! thism = Some T → mats σ !! addm = Some A →
  wf T → wf A → nrows T = nrows A → ncols T = ncols A →
  mat_linear_comb thism thism d_one addm d_one σ = mat_plus_eq thism addm σ.
Proof.
  intros Hone HT HA HwT HwA Hr Hc.
  rewrite (mat_linear_comb_cells σ thism thism d_one addm d_one T T A) by done.
  rewrite (mat_plus_eq_cells σ thism addm T A) by done.
  do 3 f_equal. apply tabulated_ext. intros i j _ _. by rewrite !Hone.
Qed.

End Composing.

Section ComposingSubtraction.
Context {D : Type} `{Scalar D} `{Subtraction D}.
Implicit Types (M : Matrix D) (σ : store D).

(** X9: subtracting a matrix from itself is accepted and leaves what
    [mat_zero] leaves, every cell zero, where x - x = 0. *)
Theorem mat_minus_eq_itself σ m M :
  (∀ x : D, d_sub x x = d_zero) →
  mats σ !! m = Some M → wf M →
  mat_minus_eq m m σ = mat_zero m σ ∧
  mat_zero m σ =
    Ok tt (mkStore (<[m := tabulated (nrows M) (ncols M) (λ _ _, d_zero)]> (mats σ))
                   (vecs σ)).
Proof.
  intros Hlaw HM Hwf. split; [|by apply mat_zero_cells].
  rewrite (mat_minus_eq_cells σ m m M M) by done.
  rewrite (mat_zero_cells σ m M HM Hwf).
  do 3 f_equal. apply tabulated_ext. intros i j _ _. apply Hlaw.
Qed.

End ComposingSubtraction.

(** ** The identity matrix under [mat_mult] *)

Section Identity.
Context {D : Type} `{Scalar D}.
Implicit Types (M : Matrix D) (σ : store D).

Lemma tabulated_entry nr nc (g : nat → nat → D) i j :
  i < nr → j < nc → ent (tabulated nr nc g) i j = g i j.
Proof. intros Hi Hj. unfold ent. by rewrite tabulated_mget. Qed.

(** X10: the matrix [mat_set_identity] leaves is neutral for [mat_mult] on
    both sides: with I, M and a separate destination all square of one order,
    the product of I with M and the product of M with I are both equal to M.
    The laws used are 0 + x = x, x + 0 = x, 1 * x = x, x * 1 = x, 0 * x = 0 and
    x * 0 = 0. *)
Theorem mat_mult_by_identity σ e m p E M P n :
  (∀ x : D, d_add d_zero x = x) → (∀ x : D, d_add x d_zero = x) →
  (∀ x : D, d_mul x d_zero = d_zero) → (∀ x : D, d_mul d_zero x = d_zero) →
  (∀ x : D, d_mul d_one x = x) → (∀ x : D, d_mul x d_one = x) →
  mats σ !! e = Some E → mats σ !! m = Some M → mats σ !! p = Some P →
  wf E → wf M → wf P →
  nrows E = n → ncols E = n → nrows M = n → ncols M = n →
  nrows P = n → ncols P = n →
  p ≠ e → p ≠ m → e ≠ m →
  (mat_set_identity e;; mat_mult p e m) σ =
    Ok tt (mkStore
             (<[p := M]>
                (<[e := tabulated n n (λ i j, if decide (i = j) then d_one else d_zero)]>
                   (mats σ)))
             (vecs σ)) ∧
  (mat_set_identity e;; mat_mult p m e) σ =
    Ok tt (mkStore
             (<[p := M]>
                (<[e := tabulated n n (λ i j, if decide (i = j) then d_one else d_zero)]>
                   (mats σ)))
             (vecs σ)).
Proof.
  intros add_0_l add_0_r mul_0_r mul_0_l mul_1_l mul_1_r
    HE HM HP HwE HwM HwP HrE HcE HrM HcM HrP HcP Hpe Hpm Hem.
  pose proof (mat_set_identity_cells σ e E HE HwE) as Hid.
  rewrite HrE, HcE in Hid.
  set (Id := tabulated n n (λ i j, if decide (i = j) then d_one else d_zero)) in *.
  set (σa := mkStore (<[e := Id]> (mats σ)) (vecs σ)) in *.
  assert (mats σa !! e = Some Id) as HE' by (simpl; apply lookup_insert_eq).
  assert (mats σa !! m = Some M) as HM' by (simpl; by rewrite lookup_insert_ne).
  assert (mats σa !! p = Some P) as HP' by (simpl; by rewrite lookup_insert_ne).
  assert (wf Id) as HwI by apply tabulated_wf.
  assert (tabulated n n (ent M) = M) as HMtab.
  { rewrite <- HrM at 1. rewrite <- HcM at 1. by apply tabulated_ent. }
  split; rewrite (bind_ok _ _ _ _ _ Hid).
  - destruct (mat_mult_separate σa p e m P Id M)
      as (σ' & Hrun & Ho & Hcells); try done; simpl; try congruence.
    rewrite Hrun. f_equal. rewrite <- HMtab at 1.
    apply (only_mat_store σa σ' p n n); [done|by exists P|].
    intros i j Hi Hj. simpl in Hcells. rewrite Hcells by lia. f_equal.
    apply (accum_single add_0_l add_0_r mul_0_r _ i _ n); [| |lia].
    + intros l Hl Hne. unfold Id. rewrite tabulated_entry by lia.
      rewrite decide_False by done. apply mul_0_l.
    + unfold Id. rewrite tabulated_entry by lia.
      rewrite decide_True by done. apply mul_1_l.
  - destruct (mat_mult_separate σa p m e P M Id)
      as (σ' & Hrun & Ho & Hcells); try done; simpl; try congruence.
    rewrite Hrun. f_equal. rewrite <- HMtab at 1.
    apply (only_mat_store σa σ' p n n); [done|by exists P|].
    intros i j Hi Hj. simpl in Hcells. rewrite Hcells by lia. f_equal.
    rewrite HcM.
    apply (accum_single add_0_l add_0_r mul_0_r _ j _ n); [| |lia].
    + intros l Hl Hne. unfold Id. rewrite tabulated_entry by lia.
      rewrite decide_False by done. apply mul_0_r.
    + unfold Id. rewrite tabulated_entry by lia.
      rewrite decide_True by done. apply mul_1_r.
Qed.

End Identity.

(** ** Allocation: [mat_new], [mat_create_copy], [mat_new_from_array] *)

Section Lifecycle.
Context {D : Type} `{Scalar D}.
Variable uninit : nat → D.
Implicit Types (M : Matrix D) (σ : store D).

Lemma mat_new_runs σ nr nc :
  mat_new uninit nr nc σ =
  Ok (fresh (dom (mats σ)))
     (mkStore (<[fresh (dom (mats σ)) :=
                  mkMatrix (map (λ i, fresh_row uninit i nc) (seq 0 nr)) nr nc]>
                 (mats σ))
              (vecs σ)).
Proof. reflexivity. Qed.

Lemma fresh_not_live σ : mats σ !! fresh (dom (mats σ)) = None.
Proof. apply not_elem_of_dom, is_fresh. Qed.

(** X12: [mat_create_copy] returns a pointer that named nothing before, to
    a matrix equal to src; src and everything else stay as they were. *)
Theorem mat_create_copy_is_fresh_and_equal σ src MS :
  mats σ !! src = Some MS → wf MS →
  ∃ r, mat_create_copy uninit src σ =
         Ok r (mkStore (<[r := MS]> (mats σ)) (vecs σ)) ∧
       mats σ !! r = None ∧ r ≠ src.
Proof.
  intros HS Hwf. exists (fresh (dom (mats σ))).
  pose proof (fresh_not_live σ) as Hfresh.
  assert (fresh (dom (mats σ)) ≠ src) as Hne by congruence.
  split; [|done]. unfold mat_create_copy.
  rewrite (bind_ok _ _ _ _ _ (load_mat_ok _ _ _ HS)).
  rewrite (bind_ok _ _ _ _ _ (mat_new_runs σ (nrows MS) (ncols MS))).
  set (r := fresh (dom (mats σ))) in *.
  set (σ1 := mkStore _ _).
  rewrite (bind_ok _ _ _ tt (mkStore (<[r := MS]> (mats σ1)) (vecs σ1))).
  - simpl. by rewrite insert_insert_eq.
  - apply (mat_copy_same_shape σ1 r src
             (mkMatrix (map (λ i, fresh_row uninit i (ncols MS)) (seq 0 (nrows MS)))
                       (nrows MS) (ncols MS)) MS);
      [simpl; apply lookup_insert_eq|simpl; by rewrite lookup_insert_ne
      |apply mat_new_wf|done..].
Qed.

(** X13: [mat_new_from_array] returns a new matrix whose cells are the
    top-left nrows x ncols block of the array, which is exactly the array
    when the array has that shape; the array needs nrows rows of at least
    ncols elements. *)
Theorem mat_new_from_array_copies σ (array : list (list D)) nr nc :
  nr ≤ length array → Forall (λ r, nc ≤ length r) (take nr array) →
  ∃ r,
    mat_new_from_array uninit array nr nc σ =
      Ok r (mkStore
              (<[r := tabulated nr nc (λ i j, ent (mkMatrix array nr nc) i j)]>
                 (mats σ))
              (vecs σ)) ∧
    mats σ !! r = None ∧
    (wf (mkMatrix array nr nc) →
     tabulated nr nc (λ i j, ent (mkMatrix array nr nc) i j)
     = mkMatrix array nr nc).
Proof.
  intros Hrows Hcols. exists (fresh (dom (mats σ))).
  pose proof (fresh_not_live σ) as Hfresh.
  split; [|split; [done|]].
  - unfold mat_new_from_array.
    rewrite (bind_ok _ _ _ _ _ (mat_new_runs σ nr nc)).
    set (r := fresh (dom (mats σ))) in *.
    set (σ1 := mkStore _ _).
    rewrite (bind_ok _ _ _ tt
               (mkStore (<[r := tabulated nr nc (λ i j, ent (mkMatrix array nr nc) i j)]>
                           (mats σ1)) (vecs σ1))).
    { simpl. by rewrite insert_insert_eq. }
    apply pointwise_nest.
    { eexists. split; [simpl; apply lookup_insert_eq|].
      split; [apply mat_new_wf|done]. }
    intros σ2 i j Ho Hi Hj _.
    destruct (lookup_lt_is_Some_2 array i) as [row Hrow]; [lia|].
    assert (nc ≤ length row) as Hlen.
    { eapply (Forall_lookup_1 _ _ i _ Hcols). by rewrite lookup_take_lt. }
    destruct (lookup_lt_is_Some_2 row j) as [x Hx]; [lia|].
    rewrite (bind_ok _ _ _ row σ2) by (unfold arr_get; by rewrite Hrow).
    rewrite (bind_ok _ _ _ x σ2) by (unfold arr_get; by rewrite Hx).
    replace (ent (mkMatrix array nr nc) i j) with x
      by (unfold ent, mget; simpl; by rewrite Hrow, Hx).
    eapply write_cell; eauto.
    eexists. split; [simpl; apply lookup_insert_eq|].
    split; [apply mat_new_wf|done].
  - intros Hwf. by apply (tabulated_ent (mkMatrix array nr nc)).
Qed.

End Lifecycle.

(** ** Rows and columns as vectors *)

Section RowsAndColumns.
Context {D : Type} `{Scalar D}.
Variable uninit : nat → D.
Implicit Types (M : Matrix D) (σ : store D).

Lemma insert_take_drop_step {A} (l1 l2 : list A) k x :
  length l1 = length l2 → l1 !! k = Some x →
  <[k := x]> (take k l1 ++ drop k l2) = take (S k) l1 ++ drop (S k) l2.
Proof.
  intros Hlen Hx. pose proof (lookup_lt_Some _ _ _ Hx) as Hk.
  assert (length (take k l1) = k) as Htake by (rewrite length_take; lia).
  rewrite <- Htake at 1. rewrite insert_app_r_alt by lia.
  rewrite Htake, Nat.sub_diag.
  destruct (lookup_lt_is_Some_2 l2 k) as [y Hy]; [lia|].
  rewrite (drop_S _ _ _ Hy). simpl.
  rewrite (take_S_r _ _ _ Hx). by rewrite <- app_assoc.
Qed.

(** A loop that assigns the elements of a fresh vector in order. *)
Lemma vec_fill σ v n (init target : list D) (get : nat → prog D D) :
  length init = n → length target = n →
  (∀ σ1 k x, mats σ1 = mats σ → k < n → target !! k = Some x →
     get k σ1 = Ok x σ1) →
  for_ 0 n (λ k, x ← get k; vec_set v k x)
    (mkStore (mats σ) (<[v := mkVector init n]> (vecs σ)))
  = Ok tt (mkStore (mats σ) (<[v := mkVector target n]> (vecs σ))).
Proof.
  intros Hinit Htarget Hget.
  destruct (for_inv
    (λ k σ1, σ1 = mkStore (mats σ)
                    (<[v := mkVector (take k target ++ drop k init) n]> (vecs σ)))
    (λ k, x ← get k; vec_set v k x) 0 n
    (mkStore (mats σ) (<[v := mkVector init n]> (vecs σ))))
    as (σ' & Hrun & ->); [lia|reflexivity| |].
  - intros k σ1 Hk ->.
    destruct (lookup_lt_is_Some_2 target k) as [x Hx]; [lia|].
    rewrite (bind_ok _ _ _ x _) by (apply Hget; [done|lia|done]).
    eexists. split.
    + apply (vec_set_in_bounds _ v (mkVector (take k target ++ drop k init) n));
        [simpl; apply lookup_insert_eq|].
      simpl. rewrite length_app, length_take, length_drop. lia.
    + simpl. rewrite insert_insert_eq.
      by rewrite (insert_take_drop_step target init k x) by (done || lia).
  - rewrite Hrun. do 4 f_equal.
    rewrite <- Htarget at 1. rewrite firstn_all, drop_ge, app_nil_r by lia. done.
Qed.

Lemma vec_new_runs σ n :
  vec_new uninit n σ =
  Ok (fresh (dom (vecs σ)))
     (mkStore (mats σ)
        (<[fresh (dom (vecs σ)) := mkVector (map uninit (seq 0 n)) n]> (vecs σ))).
Proof. reflexivity. Qed.

Lemma mat_get_row_runs σ m M row r :
  mats σ !! m = Some M → wf M → data M !! row = Some r →
  mat_get_row uninit m row σ =
  Ok (fresh (dom (vecs σ)))
     (mkStore (mats σ) (<[fresh (dom (vecs σ)) := mkVector r (ncols M)]> (vecs σ))).
Proof.
  intros HM Hwf Hr.
  assert (length r = ncols M) as Hlen.
  { destruct Hwf as [_ Hrows]. by eapply (Forall_lookup_1 _ _ _ _ Hrows). }
  unfold mat_get_row.
  rewrite (bind_ok _ _ _ _ _ (load_mat_ok _ _ _ HM)).
  rewrite (bind_ok _ _ _ _ _ (vec_new_runs σ (ncols M))).
  rewrite (bind_ok _ _ _ tt
             (mkStore (mats σ) (<[fresh (dom (vecs σ)) := mkVector r (ncols M)]> (vecs σ)))).
  { done. }
  apply (vec_fill σ _ (ncols M) _ r (λ j, mat_get m row j));
    [by rewrite length_map, length_seq|done|].
  intros σ1 k x Hm Hk Hx. apply mat_get_cell.
  unfold cell, mget. by rewrite Hm, HM, Hr.
Qed.

Lemma mat_get_col_runs σ m M col :
  mats σ !! m = Some M → wf M → col < ncols M →
  mat_get_col uninit m col σ =
  Ok (fresh (dom (vecs σ)))
     (mkStore (mats σ)
        (<[fresh (dom (vecs σ)) :=
             mkVector (map (λ i, ent M i col) (seq 0 (nrows M))) (nrows M)]>
           (vecs σ))).
Proof.
  intros HM Hwf Hcol. unfold mat_get_col.
  rewrite (bind_ok _ _ _ _ _ (load_mat_ok _ _ _ HM)).
  rewrite (bind_ok _ _ _ _ _ (vec_new_runs σ (nrows M))).
  rewrite (bind_ok _ _ _ tt
             (mkStore (mats σ)
                (<[fresh (dom (vecs σ)) :=
                     mkVector (map (λ i, ent M i col) (seq 0 (nrows M))) (nrows M)]>
                   (vecs σ)))).
  { done. }
  apply (vec_fill σ _ (nrows M) _ _ (λ i, mat_get m i col));
    [by rewrite length_map, length_seq..|].
  intros σ1 k x Hm Hk Hx. apply mat_get_cell.
  rewrite lookup_map_seq in Hx by done. injection Hx as <-.
  unfold cell. rewrite Hm, HM. by apply ent_wf.
Qed.

(** X14: [mat_get_row] of a row within the matrix returns a new vector,
    one that named nothing before, of size ncols and holding that row; the
    matrices and the other vectors stay as they were. *)
Theorem mat_get_row_copies σ m M row r :
  mats σ !! m = Some M → wf M → data M !! row = Some r →
  ∃ v, mat_get_row uninit m row σ =
         Ok v (mkStore (mats σ) (<[v := mkVector r (ncols M)]> (vecs σ))) ∧
       vecs σ !! v = None ∧ length r = ncols M.
Proof.
  intros HM Hwf Hr. exists (fresh (dom (vecs σ))).
  split; [by apply mat_get_row_runs|].
  split; [apply not_elem_of_dom, is_fresh|].
  destruct Hwf as [_ Hrows]. by eapply (Forall_lookup_1 _ _ _ _ Hrows).
Qed.

(** X15: [mat_get_col] of a column within the matrix returns a new vector
    of size nrows whose element i is m[i][col]. *)
Theorem mat_get_col_copies σ m M col :
  mats σ !! m = Some M → wf M → col < ncols M →
  ∃ v, mat_get_col uninit m col σ =
         Ok v (mkStore (mats σ)
                 (<[v := mkVector (map (λ i, ent M i col) (seq 0 (nrows M)))
                                  (nrows M)]> (vecs σ))) ∧
       vecs σ !! v = None ∧
       ∀ i, i < nrows M → mget M i col = Some (ent M i col).
Proof.
  intros HM Hwf Hcol. exists (fresh (dom (vecs σ))).
  split; [by apply mat_get_col_runs|].
  split; [apply not_elem_of_dom, is_fresh|].
  intros i Hi. by apply ent_wf.
Qed.

(** X16: a column of the transpose is the corresponding row of the matrix:
    [mat_get_col] on what [mat_transpose] returns and [mat_get_row] on the
    matrix itself return the same pointer to the same vector. *)
Theorem mat_get_col_of_transpose σ m M row r :
  mats σ !! m = Some M → wf M → data M !! row = Some r →
  ∃ v σ1 σ2,
    (t ← mat_transpose uninit m; mat_get_col uninit t row) σ = Ok v σ1 ∧
    mat_get_row uninit m row σ = Ok v σ2 ∧
    vecs σ1 = vecs σ2 ∧
    vecs σ1 !! v = Some (mkVector r (ncols M)).
Proof.
  intros HM Hwf Hr.
  pose proof (lookup_lt_Some _ _ _ Hr) as Hrow.
  pose proof Hwf as [Hlen Hrows]. rewrite Hlen in Hrow.
  assert (length r = ncols M) as Hlr
    by (by eapply (Forall_lookup_1 _ _ _ _ Hrows)).
  destruct (mat_transpose_once uninit σ m M HM Hwf)
    as (t & σt & T & Hrun & Hfresh & Hmats & Hvecs & HwT & HrT & HcT & Hcells).
  assert (mats σt !! t = Some T) as HT by (by rewrite Hmats, lookup_insert_eq).
  pose proof (mat_get_col_runs σt t T row HT HwT ltac:(lia)) as Hcol.
  pose proof (mat_get_row_runs σ m M row r HM Hwf Hr) as Hget.
  rewrite Hvecs in Hcol.
  assert (mkVector (map (λ i, ent T i row) (seq 0 (nrows T))) (nrows T)
          = mkVector r (ncols M)) as Heq.
  { rewrite HrT. f_equal. apply list_eq_same_length with (ncols M);
      [done|by rewrite length_map, length_seq|].
    intros j x y Hj Hx Hy. rewrite lookup_map_seq in Hx by done.
    injection Hx as <-. simpl. unfold ent. rewrite Hcells by lia.
    unfold mget. by rewrite Hr, Hy. }
  rewrite Heq in Hcol.
  eexists _, _, _. rewrite (bind_ok _ _ _ _ _ Hrun).
  split; [exact Hcol|]. split; [exact Hget|]. simpl.
  split; [done|]. apply lookup_insert_eq.
Qed.

End RowsAndColumns.

(** ** Reading a matrix from a stream *)

Section Reading.
Context {D : Type} `{Scalar D}.
Implicit Types (M : Matrix D) (σ : store D) (F : list (token D)).

(** The nest [for i, for j: s = step i j s] that assigns cell [i][j] of [A]
    at each step and threads a local [s], whose value after [k] steps is
    [st k]. *)
Lemma pointwise_fold_nest {L} (step : nat → nat → L → prog D L)
    (g : nat → nat → D) (st : nat → L) σ A nr nc :
  shape σ A nr nc →
  (∀ σ1 i j,
     only_mat A σ σ1 → i < nr → j < nc →
     cell σ1 A i j = cell σ A i j →
     ∃ σ2, step i j (st (i * nc + j)) σ1 = Ok (st (S (i * nc + j))) σ2 ∧
           only_mat A σ1 σ2 ∧
           cell σ2 A i j = Some (g i j) ∧
           ∀ i' j', i' ≠ i ∨ j' ≠ j → cell σ2 A i' j' = cell σ1 A i' j') →
  for_fold 0 nr (st 0) (λ i s, for_fold 0 nc s (step i)) σ
  = Ok (st (nr * nc))
       (mkStore (<[A := tabulated nr nc g]> (mats σ)) (vecs σ)).
Proof.
  intros Hsh Hstep.
  destruct (for_fold_inv (λ i s σ1, s = st (i * nc) ∧ only_mat A σ σ1 ∧
      (∀ i' j, i' < i → j < nc → cell σ1 A i' j = Some (g i' j)) ∧
      ∀ i' j, i ≤ i' → cell σ1 A i' j = cell σ A i' j)
    (λ i s, for_fold 0 nc s (step i)) 0 nr (st 0) σ)
    as (s' & σ' & Hrun & -> & Ho & Hdone & _); [lia| | |].
  - split; [done|]. split; [apply only_mat_refl|]. split; [intros; lia|done].
  - intros i s σa Hi (-> & Hoa & Ha1 & Ha2).
    destruct (for_fold_inv (λ j s σ1, s = st (i * nc + j) ∧ only_mat A σ σ1 ∧
        (∀ i' j', i' < i → j' < nc → cell σ1 A i' j' = Some (g i' j')) ∧
        (∀ j', j' < j → cell σ1 A i j' = Some (g i j')) ∧
        ∀ i' j', i < i' ∨ (i' = i ∧ j ≤ j') → cell σ1 A i' j' = cell σ A i' j')
      (step i) 0 nc (st (i * nc)) σa)
      as (s' & σb & Hrunb & -> & Hob & Hb1 & Hb2 & Hb3); [lia| | |].
    + split; [by rewrite Nat.add_0_r|]. split; [done|]. split; [done|].
      split; [intros; lia|]. intros i' j' Hl. apply Ha2. lia.
    + intros j s σc Hj (-> & Hoc & Hc1 & Hc2 & Hc3).
      destruct (Hstep σc i j Hoc) as (σd & Hs & Hod & Hnew & Hother);
        [lia..|apply Hc3; lia|].
      eexists _, σd. split; [exact Hs|].
      split; [f_equal; lia|]. split; [by eapply only_mat_trans|].
      split; [|split].
      * intros i' j' Hi' Hj'. rewrite Hother by lia. by apply Hc1.
      * intros j' Hj'. destruct (decide (j' = j)) as [->|Hne]; [done|].
        rewrite Hother by lia. apply Hc2. lia.
      * intros i' j' Hlater. rewrite Hother by lia. apply Hc3. lia.
    + eexists _, σb. split; [exact Hrunb|]. split; [f_equal; lia|].
      split; [done|]. split.
      * intros i' j Hi' Hj. destruct (decide (i' = i)) as [->|Hne].
        -- by apply Hb2.
        -- apply Hb1; lia.
      * intros i' j Hi'. apply Hb3. lia.
  - rewrite Hrun. f_equal. by eapply only_mat_store.
Qed.

Lemma after_S k F : after (S k) F = (fscanf_lf (after k F)).2.
Proof. reflexivity. Qed.

Lemma after_shift k F : after (S k) F = after k (fscanf_lf F).2.
Proof. unfold after. by rewrite Nat.iter_succ_r. Qed.

Lemma outcome_shift k F : outcome (S k) F = outcome k (fscanf_lf F).2.
Proof. unfold outcome. by rewrite after_shift. Qed.

(** Numbers at the head of the stream are taken one conversion each. *)
Lemma after_numbers (xs : list D) F' k :
  k ≤ length xs →
  after k ((Number <$> xs) ++ F') = (Number <$> drop k xs) ++ F'.
Proof.
  revert k. induction xs as [|x xs IH]; intros k Hk; simpl in Hk.
  - by replace k with 0 by lia.
  - destruct k as [|k]; [done|]. rewrite after_shift. simpl. apply IH. lia.
Qed.

Lemma outcome_numbers (xs : list D) F' k :
  k < length xs → outcome k ((Number <$> xs) ++ F') = xs !! k.
Proof.
  intros Hk. unfold outcome. rewrite after_numbers by lia.
  destruct (lookup_lt_is_Some_2 xs k Hk) as [x Hx].
  by rewrite (drop_S _ _ _ Hx), Hx.
Qed.

(** Where a conversion fails without reading, every later one does. *)
Lemma after_stuck F k : fscanf_lf F = (None, F) → after k F = F.
Proof.
  intros Hstuck. induction k as [|k IH]; [done|].
  by rewrite after_S, IH, Hstuck.
Qed.

(** What [mat_read] returns and leaves. *)
Lemma mat_read_runs σ m M F :
  mats σ !! m = Some M → wf M →
  mat_read m F σ =
    Ok (after (nrows M * ncols M) F)
       (mkStore
          (<[m := tabulated (nrows M) (ncols M)
                    (λ i j, default (ent M i j) (outcome (i * ncols M + j) F))]>
             (mats σ))
          (vecs σ)).
Proof.
  intros HM Hwf.
  unfold mat_read. rewrite (bind_ok _ _ _ _ _ (load_mat_ok _ _ _ HM)).
  apply (pointwise_fold_nest
    (λ i j F, match fscanf_lf F with
              | (Some x, F) => mat_set m i j x;; ret F
              | (None, F) => mat_get m i j;; ret F
              end)
    (λ i j, default (ent M i j) (outcome (i * ncols M + j) F))
    (λ k, after k F)
    σ m (nrows M) (ncols M) (shape_intro _ _ _ HM Hwf)).
  intros σ1 i j Ho Hi Hj Hsame.
  set (k := i * ncols M + j).
  rewrite after_S. unfold outcome. fold k.
  destruct (fscanf_lf (after k F)) as [[x|] F2]; simpl.
  - destruct (write_cell σ σ1 m (nrows M) (ncols M) i j x Ho
                (shape_intro _ _ _ HM Hwf) Hi Hj)
      as (σ2 & Hset & Ho2 & Hnew & Hother).
    exists σ2. rewrite (bind_ok _ _ _ _ _ Hset). done.
  - exists σ1. rewrite (bind_ok _ _ _ (ent M i j) σ1)
      by (by apply (read_operand σ σ1 m m M)).
    split; [done|]. split; [apply only_mat_refl|]. split; [|done].
    by rewrite Hsame, (cell_ent σ m M i j HM Hwf Hi Hj).
Qed.

(** X17: [mat_read] makes one conversion for each cell, in row-major order,
    and reports no failure: a cell whose conversion yields a number takes it,
    and a cell whose conversion fails keeps the value it had.  So with
    nrows * ncols numbers at the head of the stream every cell is read and
    exactly those numbers are taken; at the end of the file, or before text
    that no number begins with, nothing changes at all; and a fragment such
    as a lone sign costs one cell, which keeps its value, while the cells
    after it are filled from what follows the fragment. *)
Theorem mat_read_stores_what_converts σ m M F :
  mats σ !! m = Some M → wf M →
  mat_read m F σ =
    Ok (after (nrows M * ncols M) F)
       (mkStore
          (<[m := tabulated (nrows M) (ncols M)
                    (λ i j, default (ent M i j) (outcome (i * ncols M + j) F))]>
             (mats σ))
          (vecs σ)) ∧
  (∀ xs F', F = (Number <$> xs) ++ F' → length xs = nrows M * ncols M →
     mat_read m F σ =
       Ok F' (mkStore
                (<[m := tabulated (nrows M) (ncols M)
                          (λ i j, default (ent M i j) (xs !! (i * ncols M + j)))]>
                   (mats σ))
                (vecs σ)) ∧
     ∀ i j, i < nrows M → j < ncols M → is_Some (xs !! (i * ncols M + j))) ∧
  (F = [] ∨ (∃ F', F = Text :: F') → mat_read m F σ = Ok F σ) ∧
  (∀ xs F', F = (Number <$> xs) ++ Fragment :: F' →
     (∀ k, k < length xs → outcome k F = xs !! k) ∧
     outcome (length xs) F = None ∧
     ∀ k, outcome (length xs + 1 + k) F = outcome k F' ∧
          after (length xs + 1 + k) F = after k F').
Proof.
  intros HM Hwf. pose proof (mat_read_runs σ m M F HM Hwf) as Hrun.
  split; [done|]. split; [|split].
  - intros xs F' -> Hlen. split.
    + rewrite Hrun, <- Hlen, after_numbers, drop_all by done. simpl.
      do 3 f_equal. apply tabulated_ext. intros i j Hi Hj.
      rewrite outcome_numbers; [done|nia].
    + intros i j Hi Hj. apply lookup_lt_is_Some_2. nia.
  - intros Hstuck.
    assert (fscanf_lf F = (None, F)) as Hscan
      by (by destruct Hstuck as [->|[F' ->]]).
    rewrite Hrun, (after_stuck F _ Hscan). f_equal.
    assert (tabulated (nrows M) (ncols M)
              (λ i j, default (ent M i j) (outcome (i * ncols M + j) F)) = M)
      as ->.
    { transitivity (tabulated (nrows M) (ncols M) (ent M));
        [|by apply tabulated_ent].
      apply tabulated_ext. intros i j _ _.
      unfold outcome. by rewrite (after_stuck F _ Hscan), Hscan. }
    by apply store_insert_id.
  - intros xs F' ->. split; [|split].
    + intros k Hk. by apply outcome_numbers.
    + unfold outcome. rewrite after_numbers, drop_all by done. done.
    + assert (∀ k, after (length xs + 1 + k) ((Number <$> xs) ++ Fragment :: F')
                   = after k F') as Hafter.
      { intros k. replace (length xs + 1 + k) with (k + S (length xs)) by lia.
        unfold after at 1. rewrite Nat.iter_add.
        fold (after (S (length xs)) ((Number <$> xs) ++ Fragment :: F')).
        rewrite after_S, after_numbers, drop_all by done. done. }
      intros k. split; [|done]. unfold outcome. by rewrite Hafter.
Qed.

End Reading.

Section ReadingANewMatrix.
Context {D : Type} `{Scalar D}.
Variable uninit : nat → D.
Implicit Types (M : Matrix D) (σ : store D) (F : list (token D)).

(** X18: [mat_new_from_file] always returns a new matrix and the rest of
    the stream, and reports no failure: a cell whose conversion yields a
    number holds it, and a cell whose conversion fails holds the unspecified
    contents of the fresh row. *)
Theorem mat_new_from_file_is_unchecked σ F nr nc :
  ∃ r,
    mat_new_from_file uninit F nr nc σ =
      Ok (r, after (nr * nc) F)
         (mkStore
            (<[r := tabulated nr nc
                      (λ i j, default (uninit (i * nc + j))
                                      (outcome (i * nc + j) F))]> (mats σ))
            (vecs σ)) ∧
    mats σ !! r = None.
Proof.
  exists (fresh (dom (mats σ))). split; [|apply not_elem_of_dom, is_fresh].
  unfold mat_new_from_file.
  rewrite (bind_ok _ _ _ _ _ (mat_new_runs uninit σ nr nc)).
  set (r := fresh (dom (mats σ))).
  set (N := mkMatrix (map (λ i, fresh_row uninit i nc) (seq 0 nr)) nr nc).
  rewrite (bind_ok _ _ _ _ _
             (mat_read_runs (mkStore (<[r := N]> (mats σ)) (vecs σ)) r N F
                (lookup_insert_eq _ _ _) (mat_new_wf uninit nr nc))).
  simpl. rewrite insert_insert_eq. unfold ret. do 3 f_equal.
  apply tabulated_ext. intros i j Hi Hj. f_equal.
  unfold ent, mget, N, fresh_row; simpl.
  rewrite lookup_map_seq by done. by rewrite lookup_map_seq.
Qed.

End ReadingANewMatrix.

(** ** Further compositions *)

Section Resizing.
Context {D : Type} `{Scalar D}.
Variable uninit : nat → D.
Variable uninit_is_null : nat → bool.
Implicit Types (M : Matrix D) (σ : store D).

(** X19: resizing a matrix to the shape it has leaves the store as it was:
    no row is added, so no unassigned slot is met, and every row is
    reallocated to its own length. *)
Theorem mat_resize_to_same_shape σ m M :
  mats σ !! m = Some M → wf M →
  mat_resize uninit uninit_is_null m (nrows M) (ncols M) σ = Ok tt σ.
Proof.
  intros HM Hwf.
  rewrite (mat_resize_without_wild_pointer uninit uninit_is_null σ m M
             (nrows M) (ncols M) HM Hwf) by (intros; lia).
  f_equal.
  destruct (resized_keeps_prefix uninit M (nrows M) (ncols M) Hwf) as [Hwf' Hcells].
  assert (mkMatrix (map (resized_row uninit M (ncols M)) (seq 0 (nrows M)))
                   (nrows M) (ncols M) = M) as ->.
  { apply matrix_ext; [done..|]. simpl. intros i j Hi Hj. by apply Hcells. }
  by apply store_insert_id.
Qed.

(** X20: [mat_resize] gives the matrix the new shape and keeps every cell
    that lies within both the old and the new shape; no other object changes.
    Rows are added only over slots that hold NULL. *)
Theorem mat_resize_keeps_common_cells σ m M nr' nc' :
  mats σ !! m = Some M → wf M →
  (∀ k, nrows M ≤ k < nr' → uninit_is_null k = true) →
  ∃ σ', mat_resize uninit uninit_is_null m nr' nc' σ = Ok tt σ' ∧
        shape σ' m nr' nc' ∧
        vecs σ' = vecs σ ∧
        (∀ p, p ≠ m → mats σ' !! p = mats σ !! p) ∧
        ∀ i j, i < nrows M → i < nr' → j < ncols M → j < nc' →
          cell σ' m i j = cell σ m i j.
Proof.
  intros HM Hwf Hnull.
  eexists. split; [by apply mat_resize_without_wild_pointer|].
  destruct (resized_keeps_prefix uninit M nr' nc' Hwf) as [Hwf' Hcells].
  split; [|split; [done|split]].
  - eexists. split; [simpl; apply lookup_insert_eq|]. split; [exact Hwf'|done].
  - intros p Hp. simpl. by rewrite lookup_insert_ne.
  - intros i j Hi Hi' Hj Hj'. unfold cell. simpl.
    rewrite lookup_insert_eq, HM. by apply Hcells.
Qed.

End Resizing.

Section DiagonalOfOnes.
Context {D : Type} `{Scalar D}.
Implicit Types (M : Matrix D) (σ : store D).

(** X21: with a vector of ones for the diagonal, [mat_mult_diag] leaves
    what [mat_mult] of the two matrices leaves, where x * 1 = x. *)
Theorem mat_mult_diag_of_ones σ A B C D' MA MB (VC : Vector D) MD n :
  (∀ x : D, d_mul x d_one = x) →
  mats σ !! A = Some MA → mats σ !! B = Some MB →
  vecs σ !! C = Some VC → mats σ !! D' = Some MD →
  wf MA → wf MB → vwf VC → wf MD →
  nrows MA = n → ncols MA = n → nrows MB = n → ncols MB = n →
  size VC = n → nrows MD = n → ncols MD = n →
  A ≠ B → A ≠ D' →
  (∀ k, k < n → vent VC k = d_one) →
  mat_mult_diag A B C D' σ = mat_mult A B D' σ ∧
  mat_mult A B D' σ =
    Ok tt (mkStore
             (<[A := tabulated n n
                       (λ i j, accum (λ k, d_mul (ent MB i k) (ent MD k j)) n)]>
                (mats σ))
             (vecs σ)).
Proof.
  intros Hone HA HB HC HD HwA HwB HwC HwD HrA HcA HrB HcB Hsz HrD HcD HneB HneD
    Hones.
  destruct (mat_mult_diag_separate σ A B C D' MA MB VC MD n)
    as (σ1 & Hrun1 & Ho1 & Hcells1); try done.
  destruct (mat_mult_separate σ A B D' MA MB MD)
    as (σ2 & Hrun2 & Ho2 & Hcells2); try done; try congruence.
  assert (shape σ A n n) as Hsh by (by exists MA).
  assert (σ2 = mkStore
                 (<[A := tabulated n n
                           (λ i j, accum (λ k, d_mul (ent MB i k) (ent MD k j)) n)]>
                    (mats σ)) (vecs σ)) as Hσ2.
  { apply (only_mat_store σ σ2 A n n); [done..|].
    intros i j Hi Hj. rewrite Hcells2 by lia. by rewrite HcB. }
  assert (σ1 = σ2) as <-.
  { rewrite Hσ2. apply (only_mat_store σ σ1 A n n); [done..|].
    intros i j Hi Hj. rewrite Hcells1 by done. f_equal.
    apply accum_ext. intros k Hk. by rewrite Hones, Hone. }
  split; by rewrite ?Hrun1, Hrun2, ?Hσ2.
Qed.

End DiagonalOfOnes.

Section MatrixTimesVector.
Context {D : Type} `{Scalar D}.
Implicit Types (M : Matrix D) (V P : Vector D) (σ : store D).

(** What [mat_vec_mult] leaves when the destination is not the operand. *)
Lemma mat_vec_mult_separate σ prod m v M V P :
  mats σ !! m = Some M → vecs σ !! v = Some V → vecs σ !! prod = Some P →
  wf M → vwf V → vwf P →
  nrows M = size V → size V = size P →
  ncols M ≤ size V →
  prod ≠ v →
  mat_vec_mult prod m v σ =
  Ok tt (mkStore (mats σ)
           (<[prod := mkVector
                (map (λ i, accum (λ j, d_mul (ent M i j) (vent V j)) (ncols M))
                     (seq 0 (nrows M)))
                (size P)]> (vecs σ))).
Proof.
  intros HM HV HP HwM HwV HwP Hrv Hvp Hcols Hne. unfold mat_vec_mult.
  rewrite (bind_ok _ _ _ _ _ (load_mat_ok _ _ _ HM)).
  rewrite (bind_ok _ _ _ _ _ (load_vec_ok _ _ _ HV)).
  rewrite (bind_ok _ _ _ _ _ (load_vec_ok _ _ _ HP)).
  rewrite !bool_decide_eq_true_2 by done. simpl.
  rewrite (bind_ok _ _ _ tt σ) by done.
  unfold vwf in HwP.
  set (f := λ i j, d_mul (ent M i j) (vent V j)).
  set (target := map (λ i, accum (f i) (ncols M)) (seq 0 (nrows M))).
  assert (length target = nrows M) as Htarget
    by (unfold target; by rewrite length_map, length_seq).
  set (at_ := λ l, mkStore (mats σ) (<[prod := mkVector l (size P)]> (vecs σ))).
  assert (∀ l i x, i < length l →
            vec_set prod i x (at_ l) = Ok tt (at_ (<[i := x]> l))) as Hset.
  { intros l i x Hi.
    rewrite (vec_set_in_bounds (at_ l) prod (mkVector l (size P)) i x);
      [|simpl; apply lookup_insert_eq|done].
    unfold at_. simpl. by rewrite insert_insert_eq. }
  destruct (for_inv
    (λ i σ1, σ1 = at_ (take i target ++ drop i (vec_data P)))
    (λ i, vec_set prod i d_zero;;
          for_ 0 (ncols M) (λ j,
            acc ← vec_get prod i;
            x ← mat_get m i j;
            y ← vec_get v j;
            vec_set prod i (d_add acc (d_mul x y))))
    0 (nrows M) σ) as (σ' & Hrun & ->); [lia| | |].
  - unfold at_. rewrite take_0, drop_0. simpl. destruct σ as [ms vs]. simpl in *.
    f_equal. rewrite insert_id; [done|]. rewrite HP. by destruct P.
  - intros i σ1 Hi ->.
    set (base := take i target ++ drop i (vec_data P)).
    assert (length base = nrows M) as Hbase.
    { unfold base. rewrite length_app, length_take, length_drop. lia. }
    rewrite (bind_ok _ _ _ tt (at_ (<[i := d_zero]> base)))
      by (apply Hset; lia).
    destruct (for_inv
      (λ j σ2, σ2 = at_ (<[i := accum (f i) j]> base))
      (λ j, acc ← vec_get prod i;
            x ← mat_get m i j;
            y ← vec_get v j;
            vec_set prod i (d_add acc (d_mul x y)))
      0 (ncols M) (at_ (<[i := d_zero]> base)))
      as (σ2 & Hrun2 & ->); [lia|done| |].
    + intros j σ2 Hj ->.
      rewrite (bind_ok _ _ _ (accum (f i) j) (at_ (<[i := accum (f i) j]> base))).
      2:{ apply (vec_get_ok _ prod (mkVector (<[i := accum (f i) j]> base) (size P)));
            [simpl; apply lookup_insert_eq|].
          simpl. apply list_lookup_insert_eq. lia. }
      rewrite (bind_ok _ _ _ (ent M i j) (at_ (<[i := accum (f i) j]> base))).
      2:{ apply mat_get_cell. apply (cell_ent _ m M); [done|done|lia|lia]. }
      rewrite (bind_ok _ _ _ (vent V j) (at_ (<[i := accum (f i) j]> base))).
      2:{ apply (vec_get_ok _ v V).
          - simpl. by rewrite lookup_insert_ne.
          - apply vent_wf; [done|lia]. }
      eexists. split; [apply Hset; rewrite length_insert; lia|].
      by rewrite list_insert_insert_eq.
    + exists (at_ (<[i := accum (f i) (ncols M)]> base)). split; [done|].
      f_equal. unfold base. apply insert_take_drop_step; [lia|].
      unfold target. rewrite lookup_map_seq by lia. done.
  - rewrite Hrun. unfold at_. do 4 f_equal.
    rewrite <- Htarget at 1. rewrite firstn_all, drop_ge, app_nil_r by lia. done.
Qed.

(** X23: with a destination other than the operand, and an operand with an
    element for every column, [mat_vec_mult] leaves in element i of the
    destination the sum m[i][0]*v[0] + m[i][1]*v[1] + ... taken from zero in
    column order, keeps the destination's size, and changes nothing else. *)
Theorem mat_vec_mult_values σ prod m v M V P :
  mats σ !! m = Some M → vecs σ !! v = Some V → vecs σ !! prod = Some P →
  wf M → vwf V → vwf P →
  nrows M = size V → size V = size P →
  ncols M ≤ size V →
  prod ≠ v →
  ∃ σ' R,
    mat_vec_mult prod m v σ = Ok tt σ' ∧
    mats σ' = mats σ ∧
    (∀ p, p ≠ prod → vecs σ' !! p = vecs σ !! p) ∧
    vecs σ' !! prod = Some R ∧ vwf R ∧ size R = size P ∧
    ∀ i, i < nrows M →
      vec_data R !! i =
      Some (accum (λ j, d_mul (ent M i j) (vent V j)) (ncols M)).
Proof.
  intros HM HV HP HwM HwV HwP Hrv Hvp Hcols Hne.
  eexists _, _. split; [by apply (mat_vec_mult_separate σ prod m v M V P)|].
  simpl. split; [done|]. split; [|split; [|split; [|split]]].
  - intros p Hp. by rewrite lookup_insert_ne.
  - apply lookup_insert_eq.
  - unfold vwf. simpl. rewrite length_map, length_seq. lia.
  - done.
  - intros i Hi. simpl. by rewrite lookup_map_seq.
Qed.

(** X24: the matrix [mat_set_identity] leaves maps a vector to itself under
    [mat_vec_mult]: the destination ends with the operand's elements.  The
    laws used are 0 + x = x, x + 0 = x, x * 0 = 0, 0 * x = 0 and 1 * x = x. *)
Theorem mat_vec_mult_by_identity σ prod m v M V P n :
  (∀ x : D, d_add d_zero x = x) → (∀ x : D, d_add x d_zero = x) →
  (∀ x : D, d_mul x d_zero = d_zero) → (∀ x : D, d_mul d_zero x = d_zero) →
  (∀ x : D, d_mul d_one x = x) →
  mats σ !! m = Some M → vecs σ !! v = Some V → vecs σ !! prod = Some P →
  wf M → vwf V → vwf P →
  nrows M = n → ncols M = n → size V = n → size P = n →
  prod ≠ v →
  (mat_set_identity m;; mat_vec_mult prod m v) σ =
  Ok tt (mkStore
           (<[m := tabulated n n (λ i j, if decide (i = j) then d_one else d_zero)]>
              (mats σ))
           (<[prod := V]> (vecs σ))).
Proof.
  intros add_0_l add_0_r mul_0_r mul_0_l mul_1_l HM HV HP HwM HwV HwP
    HrM HcM HsV HsP Hne.
  pose proof (mat_set_identity_cells σ m M HM HwM) as Hid.
  rewrite HrM, HcM in Hid. rewrite (bind_ok _ _ _ _ _ Hid).
  set (Id := tabulated n n (λ i j, if decide (i = j) then d_one else d_zero)).
  rewrite (mat_vec_mult_separate _ prod m v Id V P);
    try done; simpl; try lia; [|apply lookup_insert_eq|apply tabulated_wf].
  do 3 f_equal. destruct V as [dv sv]. unfold vwf in HwV. simpl in *.
  f_equal; [|lia].
  apply (list_eq_same_length _ _ n); [lia|by rewrite length_map, length_seq|].
  intros i x y Hi Hx Hy. rewrite lookup_map_seq in Hx by done.
  injection Hx as <-. simpl.
  apply (accum_single add_0_l add_0_r mul_0_r _ i _ n); [| |lia].
  - intros l Hl Hnel. unfold Id. rewrite tabulated_entry by lia.
    rewrite decide_False by done. apply mul_0_l.
  - unfold Id. rewrite tabulated_entry by lia.
    rewrite decide_True by done. unfold vent. simpl. rewrite Hy. apply mul_1_l.
Qed.

End MatrixTimesVector.

Section TransposeOfProduct.
Context {D : Type} `{Scalar D}.
Variable uninit : nat → D.
Implicit Types (M : Matrix D) (σ : store D).

Lemma transposed_entry M i j :
  i < ncols M → j < nrows M → ent (transposed M) i j = ent M j i.
Proof. intros Hi Hj. unfold ent at 1. by rewrite transposed_mget. Qed.

Lemma mat_transpose_runs σ src M :
  mats σ !! src = Some M → wf M →
  ∃ r, mats σ !! r = None ∧
       mat_transpose uninit src σ =
       Ok r (mkStore (<[r := transposed M]> (mats σ)) (vecs σ)).
Proof.
  intros HM Hwf.
  destruct (mat_transpose_once uninit σ src M HM Hwf)
    as (r & σ' & T & Hrun & Hfresh & Hm & Hv & HwT & HrT & HcT & Hcells).
  exists r. split; [done|]. rewrite Hrun. f_equal.
  destruct σ' as [ms vs]. simpl in *. subst ms vs. do 2 f_equal.
  apply matrix_ext; [done|apply transposed_wf|done..|].
  intros j i Hj Hi. rewrite Hcells, transposed_mget by lia.
  apply ent_wf; [done|lia..].
Qed.

(** X25: the transpose of a product is the product of the transposes in
    the opposite order, where multiplication commutes: [mat_transpose] of
    what [mat_mult] leaves for a times b is the matrix [mat_mult] leaves for
    the transpose of b times the transpose of a. *)
Theorem mat_transpose_of_product σ a b p q MA MB MP MQ n :
  (∀ x y : D, d_mul x y = d_mul y x) →
  mats σ !! a = Some MA → mats σ !! b = Some MB →
  mats σ !! p = Some MP → mats σ !! q = Some MQ →
  wf MA → wf MB → wf MP → wf MQ →
  nrows MA = n → ncols MA = n → nrows MB = n → ncols MB = n →
  nrows MP = n → ncols MP = n → nrows MQ = n → ncols MQ = n →
  p ≠ a → p ≠ b → q ≠ a → q ≠ b →
  ∃ t σ1 σ2,
    (mat_mult p a b;; mat_transpose uninit p) σ = Ok t σ1 ∧
    (ta ← mat_transpose uninit a; tb ← mat_transpose uninit b;
     mat_mult q tb ta) σ = Ok tt σ2 ∧
    mats σ1 !! t =
      Some (transposed
              (tabulated n n
                 (λ i j, accum (λ k, d_mul (ent MA i k) (ent MB k j)) n))) ∧
    mats σ2 !! q = mats σ1 !! t.
Proof.
  intros Hcomm Ha Hb Hp Hq HwA HwB HwP HwQ HrA HcA HrB HcB HrP HcP HrQ HcQ
    Hpa Hpb Hqa Hqb.
  set (AB := tabulated n n
               (λ i j, accum (λ k, d_mul (ent MA i k) (ent MB k j)) n)).
  (* the product, then its transpose *)
  destruct (mat_mult_separate σ p a b MP MA MB)
    as (σp & Hrunp & Hop & Hcellsp); try done; try congruence.
  assert (σp = mkStore (<[p := AB]> (mats σ)) (vecs σ)) as ->.
  { apply (only_mat_store σ σp p n n); [done|by exists MP|].
    intros i j Hi Hj. rewrite Hcellsp by lia. by rewrite HcA. }
  destruct (mat_transpose_runs (mkStore (<[p := AB]> (mats σ)) (vecs σ)) p AB)
    as (t & Ht & Hrunt); [simpl; apply lookup_insert_eq|apply tabulated_wf|].
  (* the transposes, then their product *)
  destruct (mat_transpose_runs σ a MA Ha HwA) as (ta & Hta & Hrunta).
  set (σa := mkStore (<[ta := transposed MA]> (mats σ)) (vecs σ)) in *.
  assert (ta ≠ a ∧ ta ≠ b ∧ ta ≠ q) as (Htaa & Htab & Htaq)
    by (repeat split; congruence).
  destruct (mat_transpose_runs σa b MB) as (tb & Htb & Hruntb);
    [simpl; by rewrite lookup_insert_ne|done|].
  set (σb := mkStore (<[tb := transposed MB]> (mats σa)) (vecs σa)) in *.
  assert (tb ≠ ta) as Htba.
  { intros ->. simpl in Htb. by rewrite lookup_insert_eq in Htb. }
  assert (tb ≠ q) as Htbq.
  { intros ->. simpl in Htb. rewrite lookup_insert_ne in Htb by done. congruence. }
  destruct (mat_mult_separate σb q tb ta MQ (transposed MB) (transposed MA))
    as (σq & Hrunq & Hoq & Hcellsq); try apply transposed_wf; try done;
    simpl; rewrite ?lookup_insert_eq, ?lookup_insert_ne by done;
    try done; try congruence.
  { by rewrite lookup_insert_eq. }
  assert (σq = mkStore (<[q := transposed AB]> (mats σb)) (vecs σb)) as ->.
  { replace (transposed AB) with
      (tabulated n n (λ i j,
         accum (λ k, d_mul (ent (transposed MB) i k) (ent (transposed MA) k j)) n)).
    - apply (only_mat_store σb σq q n n); [done| |].
      + exists MQ. simpl. by rewrite !lookup_insert_ne.
      + intros i j Hi Hj. simpl in Hcellsq. rewrite Hcellsq by lia.
        by rewrite HrB.
    - apply matrix_ext; [apply tabulated_wf|apply transposed_wf|done..|].
      simpl. intros i j Hi Hj. rewrite tabulated_mget by done.
      rewrite (transposed_mget AB j i) by done. f_equal.
      unfold AB, ent at 3. rewrite tabulated_mget by done. simpl.
      apply accum_ext. intros k Hk.
      rewrite !transposed_entry by lia. apply Hcomm. }
  eexists t, _, _. split; [|split; [|split]].
  - unfold mbind at 1, prog_bind, bind. rewrite Hrunp. exact Hrunt.
  - rewrite (bind_ok _ _ _ _ _ Hrunta). by rewrite (bind_ok _ _ _ _ _ Hruntb).
  - simpl. apply lookup_insert_eq.
  - simpl. by rewrite !lookup_insert_eq.
Qed.

End TransposeOfProduct.

(** ** The accessors and the dump *)

Section Accessors.
Context {D : Type} `{Scalar D}.
Implicit Types (M : Matrix D) (σ : store D).

(** X26: a cell written by [mat_set] is what [mat_get] reads next, every
    other cell of the matrix and every cell of another matrix reads as
    before, and no vector changes. *)
Theorem mat_set_then_get σ m M i j v :
  mats σ !! m = Some M → wf M → i < nrows M → j < ncols M →
  ∃ σ', mat_set m i j v σ = Ok tt σ' ∧
        mat_get m i j σ' = Ok v σ' ∧
        vecs σ' = vecs σ ∧
        ∀ p i' j' x, p ≠ m ∨ i' ≠ i ∨ j' ≠ j →
          mat_get p i' j' σ = Ok x σ → mat_get p i' j' σ' = Ok x σ'.
Proof.
  intros HM Hwf Hi Hj.
  destruct (mat_set_shape σ m (nrows M) (ncols M) i j v)
    as (σ' & Hrun & (Hv & Hf & _) & Hnew & Hold); [by apply shape_intro|done..|].
  exists σ'. split; [done|]. split; [by apply mat_get_cell|]. split; [done|].
  intros p i' j' x Hdiff Hget. apply mat_get_cell.
  assert (cell σ p i' j' = Some x) as Hc.
  { unfold mat_get, load_mat, mbind, prog_bind, bind in Hget. unfold cell.
    destruct (mats σ !! p) as [N|]; [|done].
    destruct (mget N i' j'); [|done]. by injection Hget as ->. }
  destruct (decide (p = m)) as [->|Hp].
  - rewrite Hold; [done|]. destruct Hdiff as [?|Hd]; [done|exact Hd].
  - unfold cell. rewrite Hf by done. exact Hc.
Qed.

End Accessors.

(** ** Allocation and release, block by block *)

#[local] Set Warnings "-clear-no-such-hyp".

Section BlocksOfAMatrix.
Import Blocks.
Implicit Types (h : gmap loc block) (rs : list loc).

Lemma blocks_bind_done {A B} (c : run A) (k : A → run B) a h h' :
  c h = Done a h' → (x ← c; k x) h = k a h'.
Proof. intros Hc. unfold mbind, run_bind, bind. by rewrite Hc. Qed.

Lemma blocks_for_inv (I : nat → gmap loc block → Prop) (body : nat → run unit)
    lo hi h :
  lo ≤ hi → I lo h →
  (∀ k h, lo ≤ k < hi → I k h → ∃ h', body k h = Done tt h' ∧ I (S k) h') →
  ∃ h', for_ lo hi body h = Done tt h' ∧ I hi h'.
Proof.
  intros Hle HI Hstep. unfold for_.
  remember (hi - lo) as cnt eqn:Hcnt.
  revert lo h Hle HI Hstep Hcnt. induction cnt as [|cnt IH];
    intros lo h Hle HI Hstep Hcnt; simpl.
  - exists h. split; [done|]. by replace hi with lo by lia.
  - destruct (Hstep lo h) as (h1 & Hb & HI1); [lia|done|].
    rewrite (blocks_bind_done _ _ tt h h1 Hb).
    apply IH; [lia|done| |lia]. intros k h2 Hk. apply Hstep. lia.
Qed.

Lemma fresh_not_in h : h !! fresh (dom h) = None.
Proof. apply not_elem_of_dom, is_fresh. Qed.

Lemma get_header_done h m data dims :
  h !! m = Some (Header data dims) → get_header m h = Done (data, dims) h.
Proof.
  intros Hm. unfold get_header, load, mbind, run_bind, bind. by rewrite Hm.
Qed.

Lemma get_data_done h m t dims :
  h !! m = Some (Header (Some t) dims) → get_data m h = Done t h.
Proof.
  intros Hm. unfold get_data.
  by rewrite (blocks_bind_done _ _ _ _ _ (get_header_done _ _ _ _ Hm)).
Qed.

Lemma get_slot_done h m t dims slots i p :
  h !! m = Some (Header (Some t) dims) → h !! t = Some (Table slots) →
  slots !! i = Some p → get_slot m i h = Done p h.
Proof.
  intros Hm Ht Hp. unfold get_slot.
  rewrite (blocks_bind_done _ _ _ _ _ (get_data_done _ _ _ _ Hm)).
  rewrite (blocks_bind_done (get_slots t) _ slots h h)
    by (unfold get_slots, load, mbind, run_bind, bind; by rewrite Ht).
  by rewrite Hp.
Qed.

Lemma free_done h l b : h !! l = Some b → free (Some l) h = Done tt (delete l h).
Proof. intros Hl. unfold free. by rewrite decide_True by (by rewrite Hl). Qed.

Lemma store_done h l b b' :
  h !! l = Some b → Blocks.store l b' h = Done tt (<[l := b']> h).
Proof. intros Hl. unfold Blocks.store. by rewrite decide_True by (by rewrite Hl). Qed.

Lemma slots_step rs (r : loc) n :
  length rs < n →
  <[length rs := Some r]> ((Some <$> rs) ++ replicate (n - length rs) None)
  = (Some <$> (rs ++ [r])) ++ replicate (n - S (length rs)) None.
Proof.
  intros Hlt.
  replace (n - length rs) with (S (n - S (length rs))) by lia. simpl.
  rewrite fmap_app, <- app_assoc. simpl.
  rewrite <- (length_fmap Some rs) at 1.
  rewrite insert_app_r_alt by lia. by rewrite Nat.sub_diag.
Qed.

(** What [mat_new] leaves: [nrows] + 2 new blocks, wired together. *)
Lemma blocks_mat_new h nr nc :
  ∃ m t rs h',
    mat_new nr nc h = Done m h' ∧ length rs = nr ∧
    extends h h' m t rs (Some (nr, nc)) (Some <$> rs) nc.
Proof.
  unfold mat_new.
  set (m := fresh (dom h)). set (h1 := <[m := Header None None]> h).
  set (t := fresh (dom h1)).
  set (h2 := <[t := Table (replicate nr None)]> h1).
  assert (h !! m = None) as Hm by apply fresh_not_in.
  assert (h1 !! t = None) as Ht1 by apply fresh_not_in.
  assert (t ≠ m) as Htm.
  { intros E. rewrite E in Ht1. unfold h1 in Ht1.
    by rewrite lookup_insert_eq in Ht1. }
  assert (h !! t = None) as Ht.
  { unfold h1 in Ht1. by rewrite lookup_insert_ne in Ht1. }
  rewrite (blocks_bind_done _ _ m h h1) by done.
  rewrite (blocks_bind_done _ _ t h1 h2) by done.
  set (h3 := <[m := Header (Some t) None]> h2).
  assert (set_data m t h2 = Done tt h3) as Hset.
  { assert (h2 !! m = Some (Header None None)) as Hm2
      by (unfold h2, h1; by rewrite lookup_insert_ne, lookup_insert_eq).
    unfold set_data.
    rewrite (blocks_bind_done _ _ _ _ _ (get_header_done h2 m None None Hm2)).
    by apply (store_done h2 m (Header None None)). }
  rewrite (blocks_bind_done _ _ tt h2 h3 Hset).
  destruct (blocks_for_inv
    (λ i h', ∃ rs, length rs = i ∧
       extends h h' m t rs None ((Some <$> rs) ++ replicate (nr - i) None) nc)
    (λ i, r ← smalloc (Row nc); set_slot m i r) 0 nr h3)
    as (h4 & Hloop & rs & Hlen & Hext); [lia| | |].
  - exists []. split; [done|]. simpl. rewrite Nat.sub_0_r.
    split; [repeat constructor; set_solver|].
    split; [intros l Hl; set_unfold; naive_solver|].
    unfold h3, h2, h1.
    split; [by rewrite lookup_insert_eq|].
    split; [by rewrite lookup_insert_ne, lookup_insert_eq by done|].
    split; [intros r Hr; set_solver|].
    intros l Hl. rewrite !lookup_insert_ne; [done|set_solver..].
  - intros i h' Hi (rs & Hlen & Hnd & Hfresh & Hhm & Hht & Hrows & Hrest).
    set (r := fresh (dom h')). set (h'' := <[r := Row nc]> h').
    assert (h' !! r = None) as Hr by apply fresh_not_in.
    assert (r ≠ m) as Hrm by (intros E; rewrite E in Hr; congruence).
    assert (r ≠ t) as Hrt by (intros E; rewrite E in Hr; congruence).
    assert (r ∉ rs) as Hrrs.
    { intros Hin. rewrite (Hrows r Hin) in Hr. done. }
    assert (h !! r = None) as Hhr.
    { rewrite <- Hrest; [done|]. set_solver. }
    rewrite (blocks_bind_done _ _ r h' h'') by done.
    exists (<[t := Table ((Some <$> (rs ++ [r])) ++ replicate (nr - S i) None)]> h'').
    split.
    + unfold set_slot.
      assert (h'' !! m = Some (Header (Some t) None)) as Hm''
        by (unfold h''; by rewrite lookup_insert_ne).
      rewrite (blocks_bind_done _ _ _ _ _ (get_data_done h'' m t None Hm'')).
      assert (h'' !! t = Some (Table ((Some <$> rs) ++ replicate (nr - i) None)))
        as Ht'' by (unfold h''; by rewrite lookup_insert_ne).
      rewrite (blocks_bind_done (get_slots t) _
                 ((Some <$> rs) ++ replicate (nr - i) None) h'' h'')
        by (unfold get_slots, load, mbind, run_bind, bind; by rewrite Ht'').
      rewrite decide_True
        by (rewrite length_app, length_fmap, length_replicate; lia).
      rewrite (store_done h'' t _ _ Ht''). do 3 f_equal.
      rewrite <- Hlen. apply slots_step. lia.
    + exists (rs ++ [r]). split; [rewrite length_app; simpl; lia|].
      split.
      { apply list.NoDup_cons in Hnd as [Hm1 Hnd]. apply list.NoDup_cons in Hnd as [Ht2 Hnd].
        apply list.NoDup_cons. split; [set_solver|].
        apply list.NoDup_cons. split; [set_solver|].
        apply list.NoDup_app. split; [done|]. split; [set_solver|].
        apply list.NoDup_singleton. }
      split.
      { intros l Hl. destruct (decide (l = r)) as [->|Hne]; [done|].
        apply Hfresh. set_solver. }
      unfold h''.
      split; [by rewrite !lookup_insert_ne|].
      split; [by rewrite lookup_insert_eq|].
      split.
      { intros r' [Hr'|Hr']%elem_of_app.
        - rewrite !lookup_insert_ne; [by apply Hrows| |];
            intros E; subst r'; [done|].
          apply list.NoDup_cons in Hnd as [_ Hnd]. apply list.NoDup_cons in Hnd as [Ht2 _].
          done.
        - apply list_elem_of_singleton in Hr' as ->.
          by rewrite lookup_insert_ne, lookup_insert_eq. }
      intros l Hl. rewrite !lookup_insert_ne; [|set_solver..].
      apply Hrest. set_solver.
  - rewrite (blocks_bind_done _ _ tt h3 h4 Hloop).
    destruct Hext as (Hnd & Hfresh & Hhm & Hht & Hrows & Hrest).
    rewrite Nat.sub_diag in Hht. simpl in Hht. rewrite app_nil_r in Hht.
    assert (set_dims m nr nc h4 =
            Done tt (<[m := Header (Some t) (Some (nr, nc))]> h4)) as Hdims.
    { unfold set_dims.
      rewrite (blocks_bind_done _ _ _ _ _ (get_header_done h4 m _ _ Hhm)).
      by apply (store_done h4 m (Header (Some t) None)). }
    rewrite (blocks_bind_done _ _ tt _ _ Hdims).
    exists m, t, rs, (<[m := Header (Some t) (Some (nr, nc))]> h4).
    split; [done|]. split; [done|].
    split; [done|]. split; [done|].
    split; [by rewrite lookup_insert_eq|].
    split; [by rewrite lookup_insert_ne|].
    split.
    + intros r Hr. rewrite lookup_insert_ne; [by apply Hrows|].
      intros E. subst r. apply list.NoDup_cons in Hnd as [Hm1 _]. set_solver.
    + intros l Hl. rewrite lookup_insert_ne; [by apply Hrest|set_solver].
Qed.

(** What [mat_free] leaves of such a matrix: nothing. *)
Lemma blocks_mat_free h h' m t rs nr nc :
  length rs = nr →
  extends h h' m t rs (Some (nr, nc)) (Some <$> rs) nc →
  mat_free m h' = Done tt h.
Proof.
  intros Hlen (Hnd & Hfresh & Hhm & Hht & Hrows & Hrest).
  apply list.NoDup_cons in Hnd as [Hm1 Hnd]. apply list.NoDup_cons in Hnd as [Ht1 Hnd].
  assert (m ≠ t) as Hmt by set_solver.
  unfold mat_free.
  assert (get_nrows m h' = Done nr h') as Hnr.
  { unfold get_nrows.
    by rewrite (blocks_bind_done _ _ _ _ _ (get_header_done h' m _ _ Hhm)). }
  rewrite (blocks_bind_done _ _ nr h' h' Hnr).
  destruct (blocks_for_inv
    (λ i h1,
       h1 !! m = Some (Header (Some t) (Some (nr, nc))) ∧
       h1 !! t = Some (Table (Some <$> rs)) ∧
       (∀ k r, rs !! k = Some r →
          h1 !! r = if decide (k < i) then None else Some (Row nc)) ∧
       ∀ l, l ∉ m :: t :: rs → h1 !! l = h !! l)
    (λ i, p ← get_slot m i; free p) 0 nr h')
    as (h1 & Hloop & Hhm1 & Hht1 & Hgone & Hrest1); [lia| | |].
  - split; [done|]. split; [done|]. split; [|done].
    intros k r Hr. rewrite decide_False by lia.
    apply Hrows. by eapply list_elem_of_lookup_2.
  - intros i h1 Hi (Hhm1 & Hht1 & Hgone & Hrest1).
    destruct (lookup_lt_is_Some_2 rs i) as [r Hr]; [lia|].
    assert (r ∈ rs) as Hin by (by eapply list_elem_of_lookup_2).
    assert (r ≠ m ∧ r ≠ t) as [Hrm Hrt] by set_solver.
    rewrite (blocks_bind_done _ _ (Some r) h1 h1).
    2:{ apply (get_slot_done h1 m t (Some (nr, nc)) (Some <$> rs) i (Some r)
                 Hhm1 Hht1).
        by rewrite list_lookup_fmap, Hr. }
    exists (delete r h1). split.
    + apply (free_done h1 r (Row nc)).
      rewrite (Hgone i r Hr). by rewrite decide_False by lia.
    + split; [by rewrite lookup_delete_ne|].
      split; [by rewrite lookup_delete_ne|]. split.
      * intros k r' Hr'. destruct (decide (r' = r)) as [->|Hne].
        -- rewrite lookup_delete_eq.
           rewrite (list.NoDup_lookup rs k i r Hnd Hr' Hr).
           by rewrite decide_True by lia.
        -- rewrite lookup_delete_ne by done. rewrite (Hgone k r' Hr').
           assert (k ≠ i) by (intros ->; congruence).
           destruct (decide (k < i)), (decide (k < S i)); try done; lia.
      * intros l Hl. rewrite lookup_delete_ne; [by apply Hrest1|set_solver].
  - rewrite (blocks_bind_done _ _ tt h' h1 Hloop).
    rewrite (blocks_bind_done _ _ t h1 h1 (get_data_done h1 m t _ Hhm1)).
    rewrite (blocks_bind_done _ _ tt h1 (delete t h1) (free_done h1 t _ Hht1)).
    rewrite (free_done (delete t h1) m (Header (Some t) (Some (nr, nc))))
      by (by rewrite lookup_delete_ne).
    f_equal. apply map_eq. intros l.
    destruct (decide (l = m)) as [->|Hlm].
    { rewrite lookup_delete_eq. symmetry. apply Hfresh. set_solver. }
    rewrite lookup_delete_ne by done.
    destruct (decide (l = t)) as [->|Hlt].
    { rewrite lookup_delete_eq. symmetry. apply Hfresh. set_solver. }
    rewrite lookup_delete_ne by done.
    destruct (decide (l ∈ rs)) as [Hin|Hnin].
    + apply list_elem_of_lookup in Hin as [k Hk].
      rewrite (Hgone k l Hk), decide_True.
      * symmetry. apply Hfresh. apply list_elem_of_lookup_2 in Hk. set_solver.
      * apply lookup_lt_Some in Hk. lia.
    + apply Hrest1. set_solver.
Qed.

(** X11: [mat_new] adds nrows + 2 blocks to the heap and touches no block
    that was there: the struct, which holds the dimensions and points to the
    row table, the table, whose slots point to the rows in order, and one
    buffer of ncols numbers for each row, all at different addresses.
    [mat_free] of what [mat_new] returned releases every one of them, so the
    heap is exactly what it was before the allocation; and a second
    [mat_free] of the same pointer is a use of a freed block. *)
Theorem mat_new_then_free (h : gmap loc Blocks.block) nr nc :
  (m ← Blocks.mat_new nr nc; Blocks.mat_free m) h = Blocks.Done tt h ∧
  ∃ m t rs h',
    Blocks.mat_new nr nc h = Blocks.Done m h' ∧
    length rs = nr ∧
    Blocks.extends h h' m t rs (Some (nr, nc)) (Some <$> rs) nc ∧
    h ⊆ h' ∧ base.size h' = base.size h + nr + 2 ∧
    (Blocks.mat_free m;; Blocks.mat_free m) h' = Blocks.Crash InvalidPointer.
Proof.
  destruct (blocks_mat_new h nr nc) as (m & t & rs & h' & Hnew & Hlen & Hext).
  pose proof (blocks_mat_free h h' m t rs nr nc Hlen Hext) as Hfree.
  split; [by rewrite (blocks_bind_done _ _ m h h' Hnew)|].
  exists m, t, rs, h'. split; [done|]. split; [done|]. split; [done|].
  destruct Hext as (Hnd & Hfresh & Hhm & Hht & Hrows & Hrest).
  assert (∀ l, l ∈ m :: t :: rs → is_Some (h' !! l)) as Hlive.
  { intros l Hl. apply elem_of_cons in Hl as [->|Hl]; [by rewrite Hhm|].
    apply elem_of_cons in Hl as [->|Hl]; [by rewrite Hht|].
    by rewrite (Hrows l Hl). }
  split; [|split].
  - apply map_subseteq_spec. intros l b Hl.
    rewrite Hrest; [done|]. intros Hin. by rewrite (Hfresh l Hin) in Hl.
  - rewrite <- !size_dom.
    assert (dom h' ≡ list_to_set (m :: t :: rs) ∪ dom h) as ->.
    { intros l. rewrite elem_of_union, elem_of_list_to_set, !elem_of_dom.
      destruct (decide (l ∈ m :: t :: rs)) as [Hin|Hnin].
      - split; [by left|]. intros _. by apply Hlive.
      - rewrite (Hrest l Hnin). split; [by right|]. by intros [?|?]. }
    rewrite size_union.
    + rewrite size_list_to_set by done. simpl. lia.
    + intros l Hl1%elem_of_list_to_set Hl2%elem_of_dom.
      rewrite (Hfresh l Hl1) in Hl2. by destruct Hl2.
  - rewrite (blocks_bind_done _ _ tt h' h Hfree).
    unfold mat_free, get_nrows, get_header, load, mbind, run_bind, bind.
    rewrite Hfresh; [done|]. set_solver.
Qed.

End BlocksOfAMatrix.

(** ** Concrete runs

    Each statement above that has premises, applied to a sample store over
    the exact rationals. *)

Lemma Qc_sub_diag (x : Qc) : (x - x = 0)%Qc.
Proof. ring. Qed.

Ltac sample_facts :=
  try reflexivity; try (split; [reflexivity|repeat constructor]);
  try (simpl; lia).

Lemma mat_set_all_fills_witness :
  mat_set_all 2 (q 7) Samples.rectangles =
    Ok tt (mkStore (<[2 := tabulated 2 3 (λ _ _, q 7)]> (mats Samples.rectangles))
                   (vecs Samples.rectangles)) ∧
  (∀ i j, i < 2 → j < 3 → mget (tabulated 2 3 (λ _ _, q 7)) i j = Some (q 7)) ∧
  (2 = 0 ∨ 3 = 0 → tabulated 2 3 (λ _ _, q 7) = Samples.two_by_three).
Proof.
  apply (mat_set_all_fills (H := Qc_scalar) Samples.rectangles 2
           Samples.two_by_three (q 7)); sample_facts.
Defined.

Lemma mat_set_identity_any_shape_witness :
  mat_set_identity 2 Samples.rectangles =
    Ok tt (mkStore
             (<[2 := tabulated 2 3 (λ i j, if decide (i = j) then 1%Qc else 0%Qc)]>
                (mats Samples.rectangles))
             (vecs Samples.rectangles)) ∧
  ∀ i j, i < 2 → j < 3 →
    mget (tabulated 2 3 (λ i j, if decide (i = j) then 1%Qc else 0%Qc)) i j
    = Some (if decide (i = j) then 1%Qc else 0%Qc).
Proof.
  apply (mat_set_identity_any_shape (H := Qc_scalar) Samples.rectangles 2
           Samples.two_by_three); sample_facts.
Defined.

Lemma mat_copy_all_or_nothing_witness :
  mat_copy 0 1 Samples.squares =
    (if decide (2 = 2 ∧ 2 = 2)
     then Ok tt (mkStore (<[0 := matrix_of [[q 1; q 2]; [q 3; q 4]]]>
                            (mats Samples.squares))
                         (vecs Samples.squares))
     else Fault AssertFail) ∧
  (0 = 1 → mat_copy 0 1 Samples.squares = Ok tt Samples.squares).
Proof.
  apply (mat_copy_all_or_nothing (H := Qc_scalar) Samples.squares 0 1
           (matrix_of [[q 0; q 0]; [q 0; q 0]])
           (matrix_of [[q 1; q 2]; [q 3; q 4]])); sample_facts.
Defined.

Lemma mat_linear_comb_allows_aliasing_witness :
  mat_linear_comb 1 1 (q 2) 2 (q 3) Samples.squares =
    Ok tt (mkStore
             (<[1 := tabulated 2 2
                       (λ i j, (q 2 * ent (matrix_of [[q 1; q 2]; [q 3; q 4]]) i j
                                + q 3 * ent (matrix_of [[q 1; q 2]; [q 4; q 5]]) i j)%Qc)]>
                (mats Samples.squares))
             (vecs Samples.squares)) ∧
  ∀ i j, i < 2 → j < 2 →
    mget (tabulated 2 2
            (λ i j, (q 2 * ent (matrix_of [[q 1; q 2]; [q 3; q 4]]) i j
                     + q 3 * ent (matrix_of [[q 1; q 2]; [q 4; q 5]]) i j)%Qc)) i j
    = Some (q 2 * ent (matrix_of [[q 1; q 2]; [q 3; q 4]]) i j
            + q 3 * ent (matrix_of [[q 1; q 2]; [q 4; q 5]]) i j)%Qc.
Proof.
  apply (mat_linear_comb_allows_aliasing (H := Qc_scalar) Samples.squares
           1 1 (q 2) 2 (q 3)
           (matrix_of [[q 1; q 2]; [q 3; q 4]])
           (matrix_of [[q 1; q 2]; [q 3; q 4]])
           (matrix_of [[q 1; q 2]; [q 4; q 5]])); sample_facts.
Defined.

Lemma mat_scale_by_one_and_zero_witness :
  mat_scale 2 1%Qc Samples.rectangles = Ok tt Samples.rectangles ∧
  mat_scale 2 0%Qc Samples.rectangles = mat_zero 2 Samples.rectangles.
Proof.
  assert (wf Samples.two_by_three) as Hwf
    by (split; [reflexivity|repeat constructor]).
  split.
  - apply (proj1 (mat_scale_by_one_and_zero (H := Qc_scalar) Samples.rectangles 2
                    Samples.two_by_three eq_refl Hwf)).
    exact Qcmult_1_r.
  - apply (proj2 (mat_scale_by_one_and_zero (H := Qc_scalar) Samples.rectangles 2
                    Samples.two_by_three eq_refl Hwf)).
    exact Qcmult_0_r.
Defined.

Lemma mat_linear_comb_as_plus_eq_witness :
  mat_linear_comb 1 1 1%Qc 2 1%Qc Samples.squares = mat_plus_eq 1 2 Samples.squares.
Proof.
  apply (mat_linear_comb_as_plus_eq (H := Qc_scalar) Samples.squares 1 2
           (matrix_of [[q 1; q 2]; [q 3; q 4]])
           (matrix_of [[q 1; q 2]; [q 4; q 5]]) Qcmult_1_l); sample_facts.
Defined.

Lemma mat_minus_eq_itself_witness :
  mat_minus_eq 1 1 Samples.squares = mat_zero 1 Samples.squares ∧
  mat_zero 1 Samples.squares =
    Ok tt (mkStore (<[1 := tabulated 2 2 (λ _ _, 0%Qc)]> (mats Samples.squares))
                   (vecs Samples.squares)).
Proof.
  apply (mat_minus_eq_itself (H := Qc_scalar) Samples.squares 1
           (matrix_of [[q 1; q 2]; [q 3; q 4]]) Qc_sub_diag); sample_facts.
Defined.

Lemma mat_mult_by_identity_witness :
  (mat_set_identity 0;; mat_mult 2 0 1) Samples.squares =
    Ok tt (mkStore
             (<[2 := matrix_of [[q 1; q 2]; [q 3; q 4]]]>
                (<[0 := tabulated 2 2 (λ i j, if decide (i = j) then 1%Qc else 0%Qc)]>
                   (mats Samples.squares)))
             (vecs Samples.squares)) ∧
  (mat_set_identity 0;; mat_mult 2 1 0) Samples.squares =
    Ok tt (mkStore
             (<[2 := matrix_of [[q 1; q 2]; [q 3; q 4]]]>
                (<[0 := tabulated 2 2 (λ i j, if decide (i = j) then 1%Qc else 0%Qc)]>
                   (mats Samples.squares)))
             (vecs Samples.squares)).
Proof.
  apply (mat_mult_by_identity (H := Qc_scalar) Samples.squares 0 1 2
           (matrix_of [[q 0; q 0]; [q 0; q 0]])
           (matrix_of [[q 1; q 2]; [q 3; q 4]])
           (matrix_of [[q 1; q 2]; [q 4; q 5]]) 2
           Qcplus_0_l Qcplus_0_r Qcmult_0_r Qcmult_0_l Qcmult_1_l Qcmult_1_r);
    sample_facts.
Defined.

Lemma mat_create_copy_is_fresh_and_equal_witness :
  ∃ r, mat_create_copy Samples.junk 1 Samples.squares =
         Ok r (mkStore (<[r := matrix_of [[q 1; q 2]; [q 3; q 4]]]>
                          (mats Samples.squares))
                       (vecs Samples.squares)) ∧
       mats Samples.squares !! r = None ∧ r ≠ 1.
Proof.
  apply (mat_create_copy_is_fresh_and_equal (H := Qc_scalar) Samples.junk
           Samples.squares 1 (matrix_of [[q 1; q 2]; [q 3; q 4]])); sample_facts.
Defined.

Lemma mat_new_from_array_copies_witness :
  ∃ r,
    mat_new_from_array Samples.junk MoreSamples.rows 2 2 Samples.single =
      Ok r (mkStore
              (<[r := tabulated 2 2
                        (λ i j, ent (mkMatrix MoreSamples.rows 2 2) i j)]>
                 (mats Samples.single))
              (vecs Samples.single)) ∧
    mats Samples.single !! r = None ∧
    (wf (mkMatrix MoreSamples.rows 2 2) →
     tabulated 2 2 (λ i j, ent (mkMatrix MoreSamples.rows 2 2) i j)
     = mkMatrix MoreSamples.rows 2 2).
Proof.
  apply (mat_new_from_array_copies (H := Qc_scalar) Samples.junk Samples.single
           MoreSamples.rows 2 2); [simpl; lia|].
  repeat constructor.
Defined.

Lemma mat_get_row_copies_witness :
  ∃ v, mat_get_row Samples.junk 2 1 Samples.rectangles =
         Ok v (mkStore (mats Samples.rectangles)
                 (<[v := mkVector [q 4; q 5; q 6] 3]> (vecs Samples.rectangles))) ∧
       vecs Samples.rectangles !! v = None ∧ length [q 4; q 5; q 6] = 3.
Proof.
  apply (mat_get_row_copies (H := Qc_scalar) Samples.junk Samples.rectangles 2
           Samples.two_by_three 1 [q 4; q 5; q 6]); sample_facts.
Defined.

Lemma mat_get_col_copies_witness :
  ∃ v, mat_get_col Samples.junk 2 1 Samples.rectangles =
         Ok v (mkStore (mats Samples.rectangles)
                 (<[v := mkVector (map (λ i, ent Samples.two_by_three i 1) (seq 0 2)) 2]>
                    (vecs Samples.rectangles))) ∧
       vecs Samples.rectangles !! v = None ∧
       ∀ i, i < 2 → mget Samples.two_by_three i 1 = Some (ent Samples.two_by_three i 1).
Proof.
  apply (mat_get_col_copies (H := Qc_scalar) Samples.junk Samples.rectangles 2
           Samples.two_by_three 1); sample_facts.
Defined.

Lemma mat_get_col_of_transpose_witness :
  ∃ v σ1 σ2,
    (t ← mat_transpose Samples.junk 2; mat_get_col Samples.junk t 1)
      Samples.rectangles = Ok v σ1 ∧
    mat_get_row Samples.junk 2 1 Samples.rectangles = Ok v σ2 ∧
    vecs σ1 = vecs σ2 ∧
    vecs σ1 !! v = Some (mkVector [q 4; q 5; q 6] 3).
Proof.
  apply (mat_get_col_of_transpose (H := Qc_scalar) Samples.junk Samples.rectangles 2
           Samples.two_by_three 1 [q 4; q 5; q 6]); sample_facts.
Defined.

Lemma mat_read_stores_what_converts_witness :
  mat_read 2 MoreSamples.tokens Samples.rectangles =
    Ok (after (2 * 3) MoreSamples.tokens)
       (mkStore
          (<[2 := tabulated 2 3
                    (λ i j, default (ent Samples.two_by_three i j)
                                    (outcome (i * 3 + j) MoreSamples.tokens))]>
             (mats Samples.rectangles))
          (vecs Samples.rectangles)) ∧
  (∀ xs F', MoreSamples.tokens = (Number <$> xs) ++ F' → length xs = 2 * 3 →
     mat_read 2 MoreSamples.tokens Samples.rectangles =
       Ok F' (mkStore
                (<[2 := tabulated 2 3
                          (λ i j, default (ent Samples.two_by_three i j)
                                          (xs !! (i * 3 + j)))]>
                   (mats Samples.rectangles))
                (vecs Samples.rectangles)) ∧
     ∀ i j, i < 2 → j < 3 → is_Some (xs !! (i * 3 + j))) ∧
  (MoreSamples.tokens = [] ∨ (∃ F', MoreSamples.tokens = Text :: F') →
   mat_read 2 MoreSamples.tokens Samples.rectangles
   = Ok MoreSamples.tokens Samples.rectangles) ∧
  (∀ xs F', MoreSamples.tokens = (Number <$> xs) ++ Fragment :: F' →
     (∀ k, k < length xs → outcome k MoreSamples.tokens = xs !! k) ∧
     outcome (length xs) MoreSamples.tokens = None ∧
     ∀ k, outcome (length xs + 1 + k) MoreSamples.tokens = outcome k F' ∧
          after (length xs + 1 + k) MoreSamples.tokens = after k F').
Proof.
  apply (mat_read_stores_what_converts (H := Qc_scalar) Samples.rectangles 2
           Samples.two_by_three MoreSamples.tokens); sample_facts.
Defined.

(** The text [10 20 - 30 40 50 60] read into [[1, 2, 3], [4, 5, 6]]: the
    sign is lost, the third cell keeps its 3, and 60 is left unread. *)
Lemma mat_read_past_a_lone_sign :
  match mat_read 2 MoreSamples.tokens Samples.rectangles with
  | Ok F σ' => Some (F, map (map frac) <$> (data <$> mats σ' !! 2))
  | Fault _ => None
  end =
  Some ([Number (q 60)],
        Some [[(10%Z, 1%positive); (20%Z, 1%positive); (3%Z, 1%positive)];
              [(30%Z, 1%positive); (40%Z, 1%positive); (50%Z, 1%positive)]]).
Proof. vm_compute. reflexivity. Qed.

Lemma mat_resize_to_same_shape_witness :
  mat_resize Samples.junk Samples.never_null 2 2 3 Samples.rectangles
  = Ok tt Samples.rectangles.
Proof.
  apply (mat_resize_to_same_shape (H := Qc_scalar) Samples.junk Samples.never_null
           Samples.rectangles 2 Samples.two_by_three); sample_facts.
Defined.

Lemma mat_resize_keeps_common_cells_witness :
  ∃ σ', mat_resize Samples.junk Samples.never_null 2 1 4 Samples.rectangles
          = Ok tt σ' ∧
        shape σ' 2 1 4 ∧
        vecs σ' = vecs Samples.rectangles ∧
        (∀ p, p ≠ 2 → mats σ' !! p = mats Samples.rectangles !! p) ∧
        ∀ i j, i < 2 → i < 1 → j < 3 → j < 4 →
          cell σ' 2 i j = cell Samples.rectangles 2 i j.
Proof.
  apply (mat_resize_keeps_common_cells (H := Qc_scalar) Samples.junk
           Samples.never_null Samples.rectangles 2 Samples.two_by_three 1 4);
    sample_facts.
Defined.

Lemma mat_mult_diag_of_ones_witness :
  mat_mult_diag 0 1 0 2 MoreSamples.unit_triple
    = mat_mult 0 1 2 MoreSamples.unit_triple ∧
  mat_mult 0 1 2 MoreSamples.unit_triple =
    Ok tt (mkStore
             (<[0 := tabulated 2 2
                       (λ i j, accum
                          (λ k, (ent (matrix_of [[q 1; q 2]; [q 3; q 4]]) i k
                                 * ent (matrix_of [[q 1; q 2]; [q 4; q 5]]) k j)%Qc) 2)]>
                (mats MoreSamples.unit_triple))
             (vecs MoreSamples.unit_triple)).
Proof.
  apply (mat_mult_diag_of_ones (H := Qc_scalar) MoreSamples.unit_triple 0 1 0 2
           (matrix_of [[q 0; q 0]; [q 0; q 0]])
           (matrix_of [[q 1; q 2]; [q 3; q 4]])
           MoreSamples.unit_weights
           (matrix_of [[q 1; q 2]; [q 4; q 5]]) 2 Qcmult_1_r); sample_facts.
  intros [|[|k]] Hk; [reflexivity|reflexivity|lia].
Defined.

Lemma mat_vec_mult_values_witness :
  ∃ σ' R,
    mat_vec_mult 0 0 1 MoreSamples.with_vectors = Ok tt σ' ∧
    mats σ' = mats MoreSamples.with_vectors ∧
    (∀ p, p ≠ 0 → vecs σ' !! p = vecs MoreSamples.with_vectors !! p) ∧
    vecs σ' !! 0 = Some R ∧ vwf R ∧ size R = 2 ∧
    ∀ i, i < 2 →
      vec_data R !! i =
      Some (accum (λ j, (ent MoreSamples.two_by_two i j
                         * vent MoreSamples.operand j)%Qc) 2).
Proof.
  apply (mat_vec_mult_values (H := Qc_scalar) MoreSamples.with_vectors 0 0 1
           MoreSamples.two_by_two MoreSamples.operand MoreSamples.target);
    sample_facts.
Defined.

Lemma mat_vec_mult_by_identity_witness :
  (mat_set_identity 0;; mat_vec_mult 0 0 1) MoreSamples.with_vectors =
  Ok tt (mkStore
           (<[0 := tabulated 2 2 (λ i j, if decide (i = j) then 1%Qc else 0%Qc)]>
              (mats MoreSamples.with_vectors))
           (<[0 := MoreSamples.operand]> (vecs MoreSamples.with_vectors))).
Proof.
  apply (mat_vec_mult_by_identity (H := Qc_scalar) MoreSamples.with_vectors 0 0 1
           MoreSamples.two_by_two MoreSamples.operand MoreSamples.target 2
           Qcplus_0_l Qcplus_0_r Qcmult_0_r Qcmult_0_l Qcmult_1_l); sample_facts.
Defined.

Lemma mat_transpose_of_product_witness :
  ∃ t σ1 σ2,
    (mat_mult 0 1 2;; mat_transpose Samples.junk 0) Samples.squares = Ok t σ1 ∧
    (ta ← mat_transpose Samples.junk 1; tb ← mat_transpose Samples.junk 2;
     mat_mult 0 tb ta) Samples.squares = Ok tt σ2 ∧
    mats σ1 !! t =
      Some (transposed
              (tabulated 2 2
                 (λ i j, accum
                    (λ k, (ent (matrix_of [[q 1; q 2]; [q 3; q 4]]) i k
                           * ent (matrix_of [[q 1; q 2]; [q 4; q 5]]) k j)%Qc) 2))) ∧
    mats σ2 !! 0 = mats σ1 !! t.
Proof.
  apply (mat_transpose_of_product (H := Qc_scalar) Samples.junk Samples.squares
           1 2 0 0
           (matrix_of [[q 1; q 2]; [q 3; q 4]])
           (matrix_of [[q 1; q 2]; [q 4; q 5]])
           (matrix_of [[q 0; q 0]; [q 0; q 0]])
           (matrix_of [[q 0; q 0]; [q 0; q 0]]) 2 Qcmult_comm); sample_facts.
Defined.

Lemma mat_set_then_get_witness :
  ∃ σ', mat_set 2 1 2 (q 9) Samples.rectangles = Ok tt σ' ∧
        mat_get 2 1 2 σ' = Ok (q 9) σ' ∧
        vecs σ' = vecs Samples.rectangles ∧
        ∀ p i' j' x, p ≠ 2 ∨ i' ≠ 1 ∨ j' ≠ 2 →
          mat_get p i' j' Samples.rectangles = Ok x Samples.rectangles →
          mat_get p i' j' σ' = Ok x σ'.
Proof.
  apply (mat_set_then_get (H := Qc_scalar) Samples.rectangles 2
           Samples.two_by_three 1 2 (q 9)); sample_facts.
Defined.

